(** * treematcher: tree patterns with quantified connections

    A shallow embedding of [treematcher.py] (classes [TreePatternCache],
    [_FakeCache] and [TreePattern]) and the properties of its pattern
    compiler, matcher, extreme-case selector and attribute caches.

    Conventions of the embedding:
    - pattern nodes are Python objects with identity and mutable fields; they
      live in a store ([heap]) and are referred to by location;
    - target nodes are read only; a target node is a position (a path from the
      root) in an immutable target tree, which gives it identity, a parent and
      sisters;
    - a method that can raise returns a [res]; methods that mutate pattern
      objects run in the state-and-exception monad [M];
    - the recursion of [match] follows the target tree downwards and is
      driven by a fuel argument. *)

From Stdlib Require Import String Ascii ZArith Permutation.
From stdpp Require Import prelude strings gmap.

Open Scope string_scope.
Open Scope Z_scope.

(** ** Python string built-ins used by the pattern compiler *)

Module Py.

(** [c in s] for a one-character string [c]. *)
Fixpoint mem_char (c : ascii) (s : string) : bool :=
  match s with
  | EmptyString => false
  | String d s' => Ascii.eqb c d || mem_char c s'
  end.

(** [pat in s]. *)
Fixpoint contains (pat s : string) : bool :=
  String.prefix pat s ||
  match s with
  | EmptyString => false
  | String _ s' => contains pat s'
  end.

(** [s.find(c)] for a one-character string [c]: the first index, or -1. *)
Fixpoint find_char (c : ascii) (s : string) : Z :=
  match s with
  | EmptyString => -1
  | String d s' =>
      if Ascii.eqb c d then 0
      else let r := find_char c s' in if r <? 0 then -1 else r + 1
  end.

Fixpoint drop (n : nat) (s : string) : string :=
  match n, s with
  | O, _ => s
  | S n', EmptyString => EmptyString
  | S n', String _ s' => drop n' s'
  end.

Fixpoint take (n : nat) (s : string) : string :=
  match n, s with
  | O, _ => EmptyString
  | S n', EmptyString => EmptyString
  | S n', String c s' => String c (take n' s')
  end.

(** A slice bound as Python normalises it: a negative index counts from the
    end, and every index is clamped to [0, len]. *)
Definition clamp (len : nat) (i : Z) : nat :=
  let j := if i <? 0 then Z.of_nat len + i else i in
  Z.to_nat (Z.min (Z.max j 0) (Z.of_nat len)).

(** [s[a:b]]. *)
Definition slice (a b : Z) (s : string) : string :=
  let len := String.length s in
  let a' := clamp len a in
  let b' := clamp len b in
  take (b' - a')%nat (drop a' s).

(** The last character, [s[len(s)-1]], of a non-empty string. *)
Fixpoint last_char (s : string) : option ascii :=
  match s with
  | EmptyString => None
  | String c EmptyString => Some c
  | String _ s' => last_char s'
  end.

(** [s.split(c)] for a one-character separator: never the empty list. *)
Fixpoint split (c : ascii) (s : string) : list string :=
  match s with
  | EmptyString => [EmptyString]
  | String d s' =>
      if Ascii.eqb c d then EmptyString :: split c s'
      else match split c s' with
           | [] => [String d EmptyString]
           | w :: ws => String d w :: ws
           end
  end.

(** The characters [str.strip()] removes: space, tab, newline, vertical tab,
    form feed and carriage return. *)
Definition is_space (c : ascii) : bool :=
  let n := nat_of_ascii c in
  (n =? 32)%nat || ((9 <=? n)%nat && (n <=? 13)%nat).

Fixpoint lstrip (s : string) : string :=
  match s with
  | EmptyString => EmptyString
  | String c s' => if is_space c then lstrip s' else s
  end.

Fixpoint rstrip (s : string) : string :=
  match s with
  | EmptyString => EmptyString
  | String c s' =>
      match rstrip s' with
      | EmptyString => if is_space c then EmptyString else String c EmptyString
      | r => String c r
      end
  end.

Definition strip (s : string) : string := rstrip (lstrip s).

(** [c.isalpha()] on a byte string in the C locale. *)
Definition is_alpha (c : ascii) : bool :=
  let n := nat_of_ascii c in
  ((65 <=? n)%nat && (n <=? 90)%nat) || ((97 <=? n)%nat && (n <=? 122)%nat).

(** [all(letter.isalpha() for letter in s)]. *)
Fixpoint all_alpha (s : string) : bool :=
  match s with
  | EmptyString => true
  | String c s' => is_alpha c && all_alpha s'
  end.

(** [sep.join(l)]. *)
Fixpoint join (sep : string) (l : list string) : string :=
  match l with
  | [] => EmptyString
  | [x] => x
  | x :: l' => x ++ sep ++ join sep l'
  end.

Fixpoint replace_fuel (fuel : nat) (old new s : string) : string :=
  match fuel with
  | O => s
  | S fuel' =>
      match s with
      | EmptyString => EmptyString
      | String c s' =>
          if String.prefix old s
          then new ++ replace_fuel fuel' old new (drop (String.length old) s)
          else String c (replace_fuel fuel' old new s')
      end
  end.

Fixpoint intersperse (new s : string) : string :=
  match s with
  | EmptyString => new
  | String c s' => new ++ String c (intersperse new s')
  end.

(** [s.replace(old, new)]: every non-overlapping occurrence, left to right;
    an empty [old] matches before every character and at the end. *)
Definition replace (old new s : string) : string :=
  match old with
  | EmptyString => intersperse new s
  | _ => replace_fuel (String.length s) old new s
  end.

Definition is_digit (c : ascii) : bool :=
  let n := nat_of_ascii c in (48 <=? n)%nat && (n <=? 57)%nat.

Definition digit_val (c : ascii) : Z := Z.of_nat (nat_of_ascii c) - 48.

(** The value of a string of decimal digits, or [None] when some character is
    not a digit. *)
Fixpoint digits_value (acc : Z) (s : string) : option Z :=
  match s with
  | EmptyString => Some acc
  | String c s' =>
      if is_digit c then digits_value (10 * acc + digit_val c) s' else None
  end.

(** [int(s)]: surrounding white space is ignored, one sign is allowed, and at
    least one digit is required; [None] stands for the [ValueError] that
    [int] raises on anything else. *)
Definition int (s : string) : option Z :=
  match strip s with
  | EmptyString => None
  | String c rest =>
      if Ascii.eqb c "-"%char then
        match rest with
        | EmptyString => None
        | _ => Z.opp <$> digits_value 0 rest
        end
      else if Ascii.eqb c "+"%char then
        match rest with
        | EmptyString => None
        | _ => digits_value 0 rest
        end
      else digits_value 0 (String c rest)
  end.

(** The text [e] between double quotes. *)
Definition dquote : ascii := ascii_of_nat 34.

Definition quoted (e : string) : string :=
  String dquote (e ++ String dquote EmptyString).

End Py.

(** ** Results of methods that can raise *)

Inductive exn : Set :=
| ValueError
| IndexError
| NameError
| AttributeError
| TypeError
| KeyError
| SyntaxError
| OtherError.

Inductive res (A : Type) : Type :=
| Ok (a : A)
| Raise (e : exn).
Arguments Ok {A} a.
Arguments Raise {A} e.

Definition res_bind {A B : Type} (r : res A) (k : A -> res B) : res B :=
  match r with
  | Ok a => k a
  | Raise e => Raise e
  end.

(** ** The symbol tables

    [symbols.py], from which the code imports the dictionaries [SYMBOL] and
    [SET], is not among the sources.  Both tables are parameters of the
    embedding.  A value of [SYMBOL] is a one-character string:
    [parse_metacharacters] compares the values with single characters of a
    label. *)

Record symbols : Set := {
  sym_is_root : ascii;
  sym_is_leaf : ascii;
  sym_not : ascii;
  sym_one_or_more : ascii;
  sym_zero_or_more : ascii;
  sym_zero_or_one : ascii;
  sym_defined_number_set_start : ascii;
  sym_defined_number_set_end : ascii;
  sym_node_reference : ascii
}.

Record sets : Set := {
  set_any_child : string;
  set_children : string;
  set_all_nodes : string
}.

(** [SYMBOL.values()]. *)
Definition symbol_values (S : symbols) : list ascii :=
  [ sym_is_root S; sym_is_leaf S; sym_not S; sym_one_or_more S;
    sym_zero_or_more S; sym_zero_or_one S; sym_defined_number_set_start S;
    sym_defined_number_set_end S; sym_node_reference S ].

Definition in_values (S : symbols) (c : ascii) : bool :=
  existsb (Ascii.eqb c) (symbol_values S).

(** The characters the tests and the docstrings of [treematcher.py] use: a
    plus sign for one-or-more, a star for zero-or-more, an at sign for the
    node reference, an exclamation mark in ['d!'], a caret in ['a, ^'] and
    braces in [{x-y}]; the marks of a leaf and of zero-or-one follow the
    regular-expression convention. *)
Definition default_symbols : symbols :=
  {| sym_is_root := "^"%char;
     sym_is_leaf := "$"%char;
     sym_not := "!"%char;
     sym_one_or_more := "+"%char;
     sym_zero_or_more := "*"%char;
     sym_zero_or_one := "?"%char;
     sym_defined_number_set_start := "{"%char;
     sym_defined_number_set_end := "}"%char;
     sym_node_reference := "@"%char |}.

(** Sample set markers, used where a concrete table is needed. *)
Definition sample_sets : sets :=
  {| set_any_child := "<any_child>";
     set_children := "<children>";
     set_all_nodes := "<all_nodes>" |}.

(** ** The controller of a pattern node *)

(** The dictionary [self.controller].  [set_controller] always sets the keys
    ["not"], ["low"], ["high"], ["skipped"], ["single_match"],
    ["allow_indirect_connection"] and ["direct_connection_first"]; the keys
    ["root"], ["leaf"] and ["single_match_contstraint"] are present only when
    a label asks for them. *)
Record controller : Set := {
  c_root : option bool;
  c_leaf : option bool;
  c_not : bool;
  c_low : Z;
  c_high : Z;
  c_skipped : Z;
  c_single_match : bool;
  c_allow_indirect_connection : bool;
  c_direct_connection_first : bool;
  c_single_match_contstraint : option string
}.

(** The dictionary [define_skipping_properties] returns: every key optional. *)
Record properties : Set := {
  pr_root : option bool;
  pr_leaf : option bool;
  pr_not : option bool;
  pr_allow_indirect_connection : option bool;
  pr_direct_connection_first : option bool;
  pr_low : option Z;
  pr_high : option Z
}.

Definition no_properties : properties :=
  {| pr_root := None; pr_leaf := None; pr_not := None;
     pr_allow_indirect_connection := None;
     pr_direct_connection_first := None;
     pr_low := None; pr_high := None |}.

(** The values [set_controller] writes before it looks at the label. *)
Definition default_controller : controller :=
  {| c_root := None; c_leaf := None;
     c_not := false; c_low := 0; c_high := -1; c_skipped := 0;
     c_single_match := false;
     c_allow_indirect_connection := false;
     c_direct_connection_first := false;
     c_single_match_contstraint := None |}.

(** [controller.update(properties)]. *)
Definition controller_update (c : controller) (p : properties) : controller :=
  {| c_root := match pr_root p with Some b => Some b | None => c_root c end;
     c_leaf := match pr_leaf p with Some b => Some b | None => c_leaf c end;
     c_not := default (c_not c) (pr_not p);
     c_low := default (c_low c) (pr_low p);
     c_high := default (c_high c) (pr_high p);
     c_skipped := c_skipped c;
     c_single_match := c_single_match c;
     c_allow_indirect_connection :=
       default (c_allow_indirect_connection c) (pr_allow_indirect_connection p);
     c_direct_connection_first :=
       default (c_direct_connection_first c) (pr_direct_connection_first p);
     c_single_match_contstraint := c_single_match_contstraint c |}.

Definition set_skipped (k : Z) (c : controller) : controller :=
  {| c_root := c_root c; c_leaf := c_leaf c; c_not := c_not c;
     c_low := c_low c; c_high := c_high c; c_skipped := k;
     c_single_match := c_single_match c;
     c_allow_indirect_connection := c_allow_indirect_connection c;
     c_direct_connection_first := c_direct_connection_first c;
     c_single_match_contstraint := c_single_match_contstraint c |}.

Definition set_single_match (constraint : string) (c : controller) : controller :=
  {| c_root := c_root c; c_leaf := c_leaf c; c_not := c_not c;
     c_low := c_low c; c_high := c_high c; c_skipped := c_skipped c;
     c_single_match := true;
     c_allow_indirect_connection := c_allow_indirect_connection c;
     c_direct_connection_first := c_direct_connection_first c;
     c_single_match_contstraint := Some constraint |}.

Inductive bound : Set := low | high.

(** [TreePattern.is_in_bounds], on the controller of [self]. *)
Definition is_in_bounds (c : controller) (b : bound) (test : Z) : bool :=
  match b with
  | low => c_low c <=? test
  | high => if 0 <=? c_high c then test <=? c_high c else true
  end.

(** ** The pattern compiler *)

Section Compiler.

Variable SYMBOL : symbols.

(** [TreePattern.decode_repeat_symbol]. *)
Definition decode_repeat_symbol (bounds : string) : res (Z * Z) :=
  let bounds := Py.slice 1 (Z.of_nat (String.length bounds) - 1) bounds in
  let to_int (s : string) : res Z :=
    match Py.int s with Some z => Ok z | None => Raise ValueError end in
  if Py.mem_char "-" bounds then
    let split := Py.split "-" bounds in
    let s0 := default EmptyString (split !! 0%nat) in
    let s1 := default EmptyString (split !! 1%nat) in
    res_bind (match s0 with EmptyString => Ok 0 | _ => to_int s0 end)
      (fun lo =>
    res_bind (match s1 with EmptyString => Ok (-1) | _ => to_int s1 end)
      (fun hi => Ok (lo, hi)))
  else
    res_bind (to_int bounds) (fun n => Ok (n, n)).

(** The loop of [TreePattern.parse_metacharacters].  Every iteration makes
    the name shorter, so the length of the name bounds their number. *)
Fixpoint parse_metacharacters_loop
    (fuel : nat) (name : string) (metacharacters : list string)
    : string * list string :=
  match fuel with
  | O => (name, metacharacters)
  | S fuel' =>
      match Py.last_char name with
      | None => (name, metacharacters)
      | Some c =>
          if in_values SYMBOL c then
            if Py.mem_char (sym_defined_number_set_start SYMBOL) name then
              let a := Py.find_char (sym_defined_number_set_start SYMBOL) name in
              let b := Py.find_char (sym_defined_number_set_end SYMBOL) name in
              parse_metacharacters_loop fuel'
                (Py.slice 0 a name)
                (metacharacters ++ [Py.slice a (b + 1) name])%list
            else
              parse_metacharacters_loop fuel'
                (Py.slice 0 (Z.of_nat (String.length name) - 1) name)
                (metacharacters ++ [String c EmptyString])%list
          else (name, metacharacters)
      end
  end.

(** [TreePattern.parse_metacharacters]: the new [self.name] and the list of
    metacharacters, the rightmost first. *)
Definition parse_metacharacters (name : string) : string * list string :=
  let '(name', metacharacters) :=
    parse_metacharacters_loop (String.length name) name [] in
  match name' with
  | EmptyString =>
      (String (sym_node_reference SYMBOL) EmptyString, metacharacters)
  | _ => (name', metacharacters)
  end.

(** [TreePattern.parse_node_name]. *)
Definition parse_node_name (name : string) : string :=
  let expressions := map Py.strip (Py.split "," name) in
  let expressions :=
    map (fun e =>
           match e with
           | EmptyString => e
           | _ => if Py.all_alpha e then "@.name == " ++ Py.quoted e else e
           end) expressions in
  Py.join " and "
    (filter (fun e => negb (String.eqb e EmptyString)) expressions).

(** One iteration of the loop of [TreePattern.define_skipping_properties]. *)
Definition define_skipping_step
    (controller : properties) (metacharacter : string) : res properties :=
  let same (c : ascii) := String.eqb metacharacter (String c EmptyString) in
  let controller :=
    if same (sym_is_root SYMBOL) then
      {| pr_root := Some true; pr_leaf := pr_leaf controller;
         pr_not := pr_not controller;
         pr_allow_indirect_connection := pr_allow_indirect_connection controller;
         pr_direct_connection_first := pr_direct_connection_first controller;
         pr_low := pr_low controller; pr_high := pr_high controller |}
    else controller in
  let controller :=
    if same (sym_is_leaf SYMBOL) then
      {| pr_root := pr_root controller; pr_leaf := Some true;
         pr_not := pr_not controller;
         pr_allow_indirect_connection := pr_allow_indirect_connection controller;
         pr_direct_connection_first := pr_direct_connection_first controller;
         pr_low := pr_low controller; pr_high := pr_high controller |}
    else controller in
  let controller :=
    if same (sym_not SYMBOL) then
      {| pr_root := pr_root controller; pr_leaf := pr_leaf controller;
         pr_not := Some true;
         pr_allow_indirect_connection := pr_allow_indirect_connection controller;
         pr_direct_connection_first := pr_direct_connection_first controller;
         pr_low := pr_low controller; pr_high := pr_high controller |}
    else controller in
  if same (sym_one_or_more SYMBOL) then
    Ok {| pr_root := pr_root controller; pr_leaf := pr_leaf controller;
          pr_not := pr_not controller;
          pr_allow_indirect_connection := Some true;
          pr_direct_connection_first := Some false;
          pr_low := Some 1; pr_high := pr_high controller |}
  else if same (sym_zero_or_more SYMBOL) then
    Ok {| pr_root := pr_root controller; pr_leaf := pr_leaf controller;
          pr_not := pr_not controller;
          pr_allow_indirect_connection := Some true;
          pr_direct_connection_first := Some true;
          pr_low := pr_low controller; pr_high := pr_high controller |}
  else if same (sym_zero_or_one SYMBOL) then
    Ok {| pr_root := pr_root controller; pr_leaf := pr_leaf controller;
          pr_not := pr_not controller;
          pr_allow_indirect_connection := Some true;
          pr_direct_connection_first := Some true;
          pr_low := pr_low controller; pr_high := Some 1 |}
  else if Py.mem_char (sym_defined_number_set_start SYMBOL) metacharacter then
    res_bind (decode_repeat_symbol metacharacter) (fun '(lo, hi) =>
    Ok {| pr_root := pr_root controller; pr_leaf := pr_leaf controller;
          pr_not := pr_not controller;
          pr_allow_indirect_connection := Some true;
          pr_direct_connection_first := Some (lo =? 0);
          pr_low := Some lo; pr_high := Some hi |})
  else Ok controller.

(** [TreePattern.define_skipping_properties]. *)
Fixpoint define_skipping_loop
    (controller : properties) (metacharacters : list string) : res properties :=
  match metacharacters with
  | [] => Ok controller
  | m :: rest =>
      res_bind (define_skipping_step controller m)
        (fun controller' => define_skipping_loop controller' rest)
  end.

Definition define_skipping_properties (metacharacters : list string)
    : res properties :=
  define_skipping_loop no_properties metacharacters.

(** The quantifier descriptor of a label: the controller [set_controller]
    holds once the metacharacters of the label are read, that is its default
    values updated with the properties of the metacharacters. *)
Definition label_controller (label : string) : res controller :=
  let metacharacters :=
    match label with
    | EmptyString => []
    | _ => snd (parse_metacharacters label)
    end in
  res_bind (define_skipping_properties metacharacters)
    (fun p => Ok (controller_update default_controller p)).

End Compiler.

(** ** Target trees

    The target is an ETE tree, which the matcher only reads.  A target node is
    given by its position in the tree together with the subtree below it: the
    position is its identity, and leads to its parent and its sisters. *)

#[warnings="-register-all"]
Inductive tree : Type :=
| Node (name : string) (children : list tree).

Definition t_name (t : tree) : string :=
  match t with Node n _ => n end.

Definition t_children (t : tree) : list tree :=
  match t with Node _ ts => ts end.

Definition path : Type := list nat.

Definition tnode : Type := path * tree.

Definition node_name (x : tnode) : string := t_name (snd x).

(** [node.children]. *)
Definition kids (x : tnode) : list tnode :=
  imap (fun i c => ((fst x ++ [i])%list, c)) (t_children (snd x)).

(** [node.is_leaf()] and [node.is_root()] of ETE. *)
Definition node_is_leaf (x : tnode) : bool :=
  match t_children (snd x) with [] => true | _ => false end.

Definition node_is_root (x : tnode) : bool :=
  match fst x with [] => true | _ => false end.

Fixpoint subtree (t : tree) (p : path) : option tree :=
  match p with
  | [] => Some t
  | i :: p' =>
      match t_children t !! i with
      | Some c => subtree c p'
      | None => None
      end
  end.

Fixpoint tree_size (t : tree) : nat :=
  match t with
  | Node _ ts => S (list_sum (map tree_size ts))
  end.

Fixpoint tree_height (t : tree) : nat :=
  match t with
  | Node _ ts => S (foldr Nat.max 0%nat (map tree_height ts))
  end.

(** [node.get_sisters()] of ETE: the other children of the parent, in their
    order; none for the root. *)
Definition get_sisters (T : tree) (x : tnode) : list tnode :=
  match reverse (fst x) with
  | [] => []
  | i :: rp =>
      let parent := reverse rp in
      match subtree T parent with
      | Some t =>
          omap (fun '(j, y) => if (j =? i)%nat then None else Some y)
               (imap (fun j y => (j, y)) (kids (parent, t)))
      | None => []
      end
  end.

(** The traversal strategies of ETE's [traverse]. *)
Inductive strategy : Set := preorder | levelorder | postorder.

Fixpoint traverse_preorder (p : path) (t : tree) : list tnode :=
  match t with
  | Node _ ts =>
      (p, t) ::
      (fix go (i : nat) (ts : list tree) : list tnode :=
         match ts with
         | [] => []
         | c :: ts' => (traverse_preorder (p ++ [i]) c ++ go (S i) ts')%list
         end) 0%nat ts
  end.

Fixpoint traverse_postorder (p : path) (t : tree) : list tnode :=
  match t with
  | Node _ ts =>
      ((fix go (i : nat) (ts : list tree) : list tnode :=
         match ts with
         | [] => []
         | c :: ts' => (traverse_postorder (p ++ [i]) c ++ go (S i) ts')%list
         end) 0%nat ts
      ++ [(p, t)])%list
  end.

(** Level order with ETE's queue: take the first node, append its children. *)
Fixpoint traverse_queue (fuel : nat) (queue : list tnode) : list tnode :=
  match fuel with
  | O => []
  | S fuel' =>
      match queue with
      | [] => []
      | x :: rest => x :: traverse_queue fuel' (rest ++ kids x)%list
      end
  end.

Definition traverse_levelorder (x : tnode) : list tnode :=
  traverse_queue (tree_size (snd x)) [x].

(** [node.traverse(strategy)]. *)
Definition traverse (s : strategy) (x : tnode) : list tnode :=
  match s with
  | preorder => traverse_preorder (fst x) (snd x)
  | levelorder => traverse_levelorder x
  | postorder => traverse_postorder (fst x) (snd x)
  end.

(** [itertools.permutations(l)]: all orderings, in lexicographic order of the
    positions. *)
Fixpoint pick {A : Type} (l : list A) : list (A * list A) :=
  match l with
  | [] => []
  | x :: l' => (x, l') :: map (fun '(y, r) => (y, x :: r)) (pick l')
  end.

Fixpoint permutations_fuel {A : Type} (n : nat) (l : list A) : list (list A) :=
  match n with
  | O => [[]]
  | S n' =>
      flat_map (fun '(x, r) => map (cons x) (permutations_fuel n' r)) (pick l)
  end.

Definition permutations {A : Type} (l : list A) : list (list A) :=
  permutations_fuel (length l) l.

(** ** Pattern objects and the store *)

(** A location of the store. *)
Abbreviation loc := nat.

(** The syntax object of a pattern node: the [PatternSyntax()] every node
    gets by default, or the one handed to the constructor of the root. *)
Inductive syntax : Set :=
| DefaultSyntax
| CustomSyntax (id : nat).

(** A [TreePattern] instance: the fields the matcher reads and writes.
    [p_controller] is [None] until [set_controller] has run on the node. *)
Record pobj : Set := {
  p_name : string;
  p_children : list loc;
  p_up : option loc;
  p_controller : option controller;
  p_syntax : syntax
}.

(** The store: the object at location [l] is the element of index [l]. *)
Abbreviation heap := (list pobj).

Definition with_name (n : string) (o : pobj) : pobj :=
  {| p_name := n; p_children := p_children o; p_up := p_up o;
     p_controller := p_controller o; p_syntax := p_syntax o |}.

Definition with_controller (c : controller) (o : pobj) : pobj :=
  {| p_name := p_name o; p_children := p_children o; p_up := p_up o;
     p_controller := Some c; p_syntax := p_syntax o |}.

(** A pattern as the Newick reader hands it to [TreePattern.__init__]. *)
#[warnings="-register-all"]
Inductive ptree : Type :=
| PNode (label : string) (children : list ptree).

Fixpoint psize (p : ptree) : nat :=
  match p with
  | PNode _ ks => S (list_sum (map psize ks))
  end.

(** The objects of a pattern, laid out in preorder from location [base]. *)
Fixpoint alloc_at (base : loc) (up : option loc) (syn : syntax) (p : ptree)
    : list pobj :=
  match p with
  | PNode label ks =>
      let '(ls, os) :=
        (fix go (b : loc) (ks : list ptree) : list loc * list pobj :=
           match ks with
           | [] => ([], [])
           | k :: ks' =>
               let '(ls, os) := go (b + psize k)%nat ks' in
               (b :: ls, (alloc_at b (Some base) DefaultSyntax k ++ os)%list)
           end) (S base) ks in
      {| p_name := label; p_children := ls; p_up := up;
         p_controller := None; p_syntax := syn |} :: os
  end.

(** [TreePattern(newick, syntax=syn)]: the new objects are appended to the
    store, and the root of the pattern is returned. *)
Definition TreePattern_init (syn : syntax) (p : ptree) (h : heap) : heap * loc :=
  ((h ++ alloc_at (length h) None syn p)%list, length h).

Definition shift_obj (d : nat) (o : pobj) : pobj :=
  {| p_name := p_name o;
     p_children := map (Nat.add d) (p_children o);
     p_up := Nat.add d <$> p_up o;
     p_controller := p_controller o;
     p_syntax := p_syntax o |}.

(** [copy.deepcopy(self)]: a copy of every object that [self] reaches, with
    the references among the copies redirected to the copies.  The store is
    copied as a whole: copies of objects that [self] does not reach are
    reached by no copy, so they cannot be told from objects that were never
    made. *)
Definition deepcopy (self : loc) (h : heap) : heap * loc :=
  ((h ++ map (shift_obj (length h)) h)%list, (length h + self)%nat).

Definition children_at (h : heap) (l : loc) : list loc :=
  match h !! l with
  | Some o => p_children o
  | None => []
  end.

(** [self.traverse()], ETE's default level order, over pattern objects. *)
Fixpoint ptraverse_queue (fuel : nat) (h : heap) (queue : list loc) : list loc :=
  match fuel with
  | O => []
  | S fuel' =>
      match queue with
      | [] => []
      | l :: rest => l :: ptraverse_queue fuel' h (rest ++ children_at h l)%list
      end
  end.

Definition ptraverse (h : heap) (self : loc) : list loc :=
  ptraverse_queue (length h) h [self].

(** [self.get_tree_root()]. *)
Fixpoint tree_root_fuel (fuel : nat) (h : heap) (l : loc) : loc :=
  match fuel with
  | O => l
  | S fuel' =>
      match h !! l with
      | Some o =>
          match p_up o with
          | Some u => tree_root_fuel fuel' h u
          | None => l
          end
      | None => l
      end
  end.

Definition get_tree_root (h : heap) (l : loc) : loc :=
  tree_root_fuel (length h) h l.

(** ** The monad of the methods that mutate pattern objects *)

Inductive outcome (A : Type) : Type :=
| Ret (a : A)
| Exc (e : exn)
| OutOfFuel.
Arguments Ret {A} a.
Arguments Exc {A} e.
Arguments OutOfFuel {A}.

Definition M (A : Type) : Type := heap -> outcome A * heap.

Definition ret {A : Type} (a : A) : M A := fun h => (Ret a, h).

Definition bind {A B : Type} (m : M A) (k : A -> M B) : M B :=
  fun h =>
    match m h with
    | (Ret a, h') => k a h'
    | (Exc e, h') => (Exc e, h')
    | (OutOfFuel, h') => (OutOfFuel, h')
    end.

Definition raise {A : Type} (e : exn) : M A := fun h => (Exc e, h).

Definition out_of_fuel {A : Type} : M A := fun h => (OutOfFuel, h).

Definition lift {A : Type} (r : res A) : M A :=
  match r with
  | Ok a => ret a
  | Raise e => raise e
  end.

Declare Scope m_scope.
Delimit Scope m_scope with M.
Notation "x <- m ;; k" := (bind m (fun x => k))
  (at level 100, m at next level, right associativity) : m_scope.
Notation "m ;;; k" := (bind m (fun _ => k))
  (at level 100, right associativity) : m_scope.
Open Scope m_scope.

(** Reading a pattern object.  A reference always leads to an object; the
    store reports a location outside it as [OtherError]. *)
Definition get_obj (l : loc) : M pobj :=
  fun h =>
    match h !! l with
    | Some o => (Ret o, h)
    | None => (Exc OtherError, h)
    end.

(** [self.controller]: an [AttributeError] before [set_controller]. *)
Definition get_controller (l : loc) : M controller :=
  o <- get_obj l ;;
  match p_controller o with
  | Some c => ret c
  | None => raise AttributeError
  end.

Definition get_children (l : loc) : M (list loc) :=
  o <- get_obj l ;; ret (p_children o).

Definition is_leaf (l : loc) : M bool :=
  ks <- get_children l ;; ret (match ks with [] => true | _ => false end).

Definition set_name (l : loc) (n : string) : M unit :=
  fun h => (Ret tt, alter (with_name n) l h).

Definition put_controller (l : loc) (c : controller) : M unit :=
  fun h => (Ret tt, alter (with_controller c) l h).

(** [self.controller["skipped"] += d]. *)
Definition add_skipped (l : loc) (d : Z) : M unit :=
  c <- get_controller l ;;
  put_controller l (set_skipped (c_skipped c + d) c).

(** [l[i]] on a Python list, for an index that is not negative. *)
Definition index {A : Type} (l : list A) (i : nat) : M A :=
  match l !! i with
  | Some a => ret a
  | None => raise IndexError
  end.

(** ** The constraint evaluator and the matcher *)

Section Matcher.

Variable SYMBOL : symbols.
Variable SET : sets.

(** Python's [eval] of a constraint, for the constraints the embedding does
    not evaluate itself: the whole target tree, the syntax object whose
    attributes make the scope, the text, and the nodes bound to names of the
    scope.  Its result is the truth value that the caller's [st &= ...] or
    [if st] takes from the value, or the exception raised. *)
Variable pyeval : tree -> syntax -> string -> list (string * path) -> res bool.

(** The target tree of the search. *)
Variable T : tree.

(** The characters of a name that make [__target_node.name == "name"] the
    comparison with that name: printable, no quote, no backslash. *)
Definition plain_char (c : ascii) : bool :=
  let n := nat_of_ascii c in
  (32 <=? n)%nat && (n <=? 126)%nat && negb (n =? 34)%nat && negb (n =? 92)%nat.

Fixpoint plain (s : string) : bool :=
  match s with
  | EmptyString => true
  | String c s' => plain_char c && plain s'
  end.

(** The name [X] when the constraint is [__target_node.name == "X"]. *)
Definition name_test (constraint : string) : option string :=
  let pre := "__target_node.name == " ++ String Py.dquote EmptyString in
  if String.prefix pre constraint then
    let rest := Py.drop (String.length pre) constraint in
    let n := String.length rest in
    let x := Py.take (n - 1) rest in
    if String.eqb rest (x ++ String Py.dquote EmptyString) && plain x
    then Some x else None
  else None.

(** [eval(constraint, constraint_scope)] with [__target_node] bound to [x]
    and, in [find_extreme_case], [__correct_node] bound to [best]. *)
Definition eval_constraint
    (syn : syntax) (constraint : string) (x : tnode) (best : option tnode)
    : res bool :=
  if String.eqb constraint "__target_node.is_root()" then Ok (node_is_root x)
  else if String.eqb constraint "__target_node.is_leaf()" then Ok (node_is_leaf x)
  else
    match name_test constraint with
    | Some n => Ok (String.eqb (node_name x) n)
    | None =>
        pyeval T syn constraint
          (("__target_node", fst x) ::
           match best with
           | Some b => [("__correct_node", fst b)]
           | None => []
           end)
    end.

(** The loop [st = True; for constraint in constraints: ...] of
    [is_local_match]. *)
Fixpoint eval_constraints
    (syn : syntax) (constraints : list string) (x : tnode) (st : bool)
    : res bool :=
  match constraints with
  | [] => Ok st
  | constraint :: rest =>
      match constraint with
      | EmptyString => eval_constraints syn rest x st
      | _ =>
          res_bind (eval_constraint syn constraint x None)
            (fun v => eval_constraints syn rest x (st && v))
      end
  end.

(** The constraints [is_local_match] collects for a pattern node. *)
Definition local_constraints (name : string) (c : controller) : list string :=
  (match c_root c with Some true => ["__target_node.is_root()"] | _ => [] end) ++
  (match c_leaf c with Some true => ["__target_node.is_leaf()"] | _ => [] end) ++
  [ match name with
    | EmptyString => EmptyString
    | _ =>
        if Py.mem_char "@" name then
          if (String.length name =? 1)%nat then EmptyString
          else Py.replace "@" "__target_node" name
        else if c_allow_indirect_connection c then EmptyString
        else "__target_node.name == " ++ Py.quoted name
    end ].

(** [TreePattern.is_local_match]. *)
Definition is_local_match (self : loc) (target_node : tnode) : M bool :=
  o <- get_obj self ;;
  c <- get_controller self ;;
  let constraints := local_constraints (p_name o) c in
  match eval_constraints (p_syntax o) constraints target_node true with
  | Ok st => ret st
  | Raise ValueError => raise ValueError
  | Raise AttributeError => raise ValueError
  | Raise IndexError => raise ValueError
  | Raise NameError =>
      fun h =>
        match h !! get_tree_root h self with
        | None => (Exc OtherError, h)
        | Some root =>
            match eval_constraints (p_syntax root) constraints target_node true with
            | Ok st => (Ret st, h)
            | Raise e => (Exc e, h)
            end
        end
  | Raise e => raise e
  end.

(** The variables of the loops of [match]. *)
Record locals : Set := {
  status : bool;
  sub_status : bool;
  sub_status_count : Z;
  test_children_properties : bool;
  continious_matched : list Z;
  current_matched : Z
}.

Section Body.

(** The recursive call [self.children[i].match(candidate[j], cache)]. *)
Variable rec : loc -> tnode -> M bool.

(** The loop [while i < len(self.children)].  Every iteration advances [j],
    and leaves the loop or advances [i] once [j] has passed the candidate, so
    [fuel] iterations suffice when [fuel] exceeds the two lengths together. *)
Fixpoint while_loop (fuel : nat) (self : loc) (candidate : list tnode)
    (i j : nat) (v : locals) : M locals :=
  match fuel with
  | O => out_of_fuel
  | S fuel' =>
      children <- get_children self ;;
      if (i <? length children)%nat then
        child <- index children i ;;
        cand_j <- index candidate j ;;
        st <- rec child cand_j ;;
        child_leaf <- is_leaf child ;;
        cc <- (if child_leaf then get_controller child else ret default_controller) ;;
        if child_leaf
           && (c_allow_indirect_connection cc || c_not cc)
           && sub_status v
        then
          let v :=
            {| status := status v; sub_status := sub_status v;
               sub_status_count := sub_status_count v;
               test_children_properties := true;
               continious_matched := continious_matched v;
               current_matched :=
                 if st then current_matched v + 1 else current_matched v |} in
          let j := S j in
          if (j <? length candidate)%nat then
            while_loop fuel' self candidate i j v
          else
            let v :=
              {| status := status v; sub_status := sub_status v;
                 sub_status_count := sub_status_count v;
                 test_children_properties := test_children_properties v;
                 continious_matched :=
                   if 0 <? current_matched v
                   then (continious_matched v ++ [current_matched v])%list
                   else continious_matched v;
                 current_matched := 0 |} in
            while_loop fuel' self candidate (S i) (S j) v
        else
          c <- get_controller self ;;
          let st :=
            if st && negb (is_in_bounds c low (c_skipped c)) then false else st in
          skip <-
            (if negb st && c_allow_indirect_connection c then
               cand_i <- index candidate i ;;
               ret (negb (node_is_leaf cand_i))
             else ret false) ;;
          let v :=
            if skip then v
            else
              let sub := sub_status v && st in
              {| status := status v; sub_status := sub;
                 sub_status_count :=
                   if sub then sub_status_count v + 1 else sub_status_count v;
                 test_children_properties := test_children_properties v;
                 continious_matched := continious_matched v;
                 current_matched := current_matched v |} in
          while_loop fuel' self candidate (S i) (S j) v
      else ret v
  end.

Definition with_status (b : bool) (v : locals) : locals :=
  {| status := b; sub_status := sub_status v;
     sub_status_count := sub_status_count v;
     test_children_properties := test_children_properties v;
     continious_matched := continious_matched v;
     current_matched := current_matched v |}.

(** The loop [for candidate in permutations(node.children)]. *)
Fixpoint candidates_loop (self : loc) (candidates : list (list tnode))
    (v : locals) : M locals :=
  match candidates with
  | [] => ret v
  | candidate :: rest =>
      children <- get_children self ;;
      let v :=
        {| status := status v; sub_status := true;
           sub_status_count := sub_status_count v;
           test_children_properties := test_children_properties v;
           continious_matched := continious_matched v;
           current_matched := 0 |} in
      v <- while_loop (S (length children + length candidate)) self candidate
             0 0 v ;;
      if test_children_properties v then candidates_loop self rest v
      else if sub_status v && (0 <? sub_status_count v) then
        ret (with_status true v)
      else candidates_loop self rest (with_status false v)
  end.

(** What follows the loop over the permutations when the last pattern child
    counted its matches. *)
Definition fold_continious_matched (self : loc) (v : locals) : M locals :=
  children <- get_children self ;;
  last_child <- index children (length children - 1) ;;
  lc <- get_controller last_child ;;
  let sub_sub_status :=
    match continious_matched v with
    | [] => c_direct_connection_first lc
    | ms =>
        foldl (fun acc con_matches =>
                 acc || (is_in_bounds lc low con_matches
                         && is_in_bounds lc high con_matches))
              false ms
    end in
  let sub_sub_status :=
    if c_not lc then negb sub_sub_status else sub_sub_status in
  ret {| status := sub_sub_status; sub_status := sub_sub_status;
         sub_status_count :=
           if sub_sub_status then sub_status_count v + 1
           else sub_status_count v;
         test_children_properties := test_children_properties v;
         continious_matched := continious_matched v;
         current_matched := current_matched v |}.

(** The loop [for node in nodes]. *)
Fixpoint nodes_loop (self : loc) (nodes : list tnode) (st : bool) : M bool :=
  match nodes with
  | [] => ret st
  | node :: rest =>
      children <- get_children self ;;
      v <-
        (let v0 :=
           {| status := st; sub_status := true; sub_status_count := 0;
              test_children_properties := false; continious_matched := [];
              current_matched := 0 |} in
         if (length children <=? length (kids node))%nat then
           v <- candidates_loop self (permutations (kids node)) v0 ;;
           if test_children_properties v then fold_continious_matched self v
           else ret v
         else ret v0) ;;
      if status v && (0 <? sub_status_count v) then ret (status v)
      else nodes_loop self rest (status v)
  end.

(** The nodes whose children are matched with the children of the pattern
    node, and the status, when the target node has too few children. *)
Definition skip_to_nodes (c : controller) (n_children : nat) (node : tnode)
    (st : bool) : list tnode * bool :=
  if (length (kids node) <? n_children)%nat then
    if c_allow_indirect_connection c then
      match
        List.find (fun y => (n_children <=? length (kids y))%nat)
                  (traverse levelorder node)
      with
      | Some skip_to_node => (skip_to_node :: get_sisters T skip_to_node, st)
      | None => ([], false)
      end
    else ([], false)
  else ([], st).

(** The first half of [TreePattern.match]: the pattern node that goes on
    with the match and the status.  A node that tries the direct connection
    first hands over to its first child; a node whose constraint fails hands
    over to its parent when the parent can skip one more target node. *)
Definition match_node (self : loc) (node : tnode) : M (bool * loc) :=
  c <- get_controller self ;;
  leaf <- is_leaf self ;;
  self <- (if c_direct_connection_first c && negb leaf
           then children <- get_children self ;; index children 0
           else ret self) ;;
  st <- is_local_match self node ;;
  (* [not self.is_leaf] is the negation of a bound method, which is true:
     the status is never inverted here *)
  let method_is_true := true in
  st <- (if negb method_is_true
         then c <- get_controller self ;; ret (if c_not c then negb st else st)
         else ret st) ;;
  c <- get_controller self ;;
  if negb st then
    leaf <- is_leaf self ;;
    if c_allow_indirect_connection c && leaf then ret (st, self)
    else
      o <- get_obj self ;;
      match p_up o with
      | None => ret (st, self)
      | Some up =>
          cu <- get_controller up ;;
          if c_allow_indirect_connection cu
             && is_in_bounds cu high (c_skipped cu + 1)
          then add_skipped up 1 ;;; ret (true, up)
          else ret (st, self)
      end
  else
    if c_allow_indirect_connection c && (c_skipped c =? 0)
    then add_skipped self 1 ;;; ret (st, self)
    else ret (st, self).

(** The second half of [TreePattern.match]: the children of the pattern node
    are matched with the children of the target node, or of the nodes skipped
    to, and a failed match gives back one skipped node. *)
Definition match_children (self : loc) (node : tnode) (st : bool) : M bool :=
  children <- get_children self ;;
  st <-
    (if st && negb (match children with [] => true | _ => false end) then
       c <- (if (length (kids node) <? length children)%nat
             then get_controller self else ret default_controller) ;;
       let '(nodes, st) := skip_to_nodes c (length children) node st in
       let nodes := match nodes with [] => [node] | _ => nodes end in
       nodes_loop self nodes st
     else ret st) ;;
  c <- (if negb st then get_controller self else ret default_controller) ;;
  (if negb st && c_allow_indirect_connection c
   then add_skipped self (-1) else ret tt) ;;;
  ret st.

(** [TreePattern.match], its recursive calls aside. *)
Definition match_body (self : loc) (node : tnode) : M bool :=
  r <- match_node self node ;;
  let '(st, self) := r in
  match_children self node st.

End Body.

(** [TreePattern.match]: the recursion goes from a target node to children
    of its descendants, so a fuel above the height of the target suffices. *)
Fixpoint match_fuel (fuel : nat) (self : loc) (node : tnode) : M bool :=
  match fuel with
  | O => out_of_fuel
  | S fuel' => match_body (match_fuel fuel') self node
  end.

Definition match_ (self : loc) (node : tnode) : M bool :=
  match_fuel (S (tree_height (snd node))) self node.

(** [TreePattern.set_controller]: compiles the label of [self] into its
    controller and its constraint, and tells whether the node is a single
    match node. *)
Definition set_controller (self : loc) : M bool :=
  o <- get_obj self ;;
  metacharacters <-
    (match p_name o with
     | EmptyString => ret []
     | name =>
         let '(name', metacharacters) := parse_metacharacters SYMBOL name in
         set_name self name' ;;; ret metacharacters
     end) ;;
  properties <- lift (define_skipping_properties SYMBOL metacharacters) ;;
  let controller := controller_update default_controller properties in
  o <- get_obj self ;;
  set_name self (parse_node_name (p_name o)) ;;;
  o <- get_obj self ;;
  (if Py.contains (set_any_child SET) (p_name o) then
     let parts := Py.split "[" (p_name o) in
     part0 <- index parts 0 ;;
     part1 <- index parts 1 ;;
     set_name self
       (" any( " ++ part0 ++ " "
        ++ Py.replace (set_any_child SET) "x" ("[" ++ part1)
        ++ " for x in __target_node.children)")
   else ret tt) ;;;
  o <- get_obj self ;;
  (if Py.contains (set_children SET) (p_name o) then
     let parts := Py.split "[" (p_name o) in
     part0 <- index parts 0 ;;
     part1 <- index parts 1 ;;
     set_name self
       (" all( " ++ part0 ++ " "
        ++ Py.replace (set_children SET) "x" ("[" ++ part1)
        ++ " for x in __target_node.children)")
   else ret tt) ;;;
  o <- get_obj self ;;
  controller <-
    (if Py.contains (set_all_nodes SET) (p_name o) then
       set_name self "@" ;;; ret (set_single_match (p_name o) controller)
     else ret controller) ;;
  put_controller self controller ;;;
  ret (c_single_match controller).

(** The loop [for node in one_use_pattern.traverse()] of [find_match]. *)
Fixpoint set_controllers (nodes : list loc) (single_match_pattern : bool)
    : M bool :=
  match nodes with
  | [] => ret single_match_pattern
  | node :: rest =>
      b <- set_controller node ;;
      set_controllers rest (single_match_pattern || b)
  end.

(** The first loop of [find_extreme_case]: the last node of the traversal
    whose controller says [single_match]. *)
Fixpoint single_match_node (nodes : list loc) (pattern : option loc)
    : M (option loc) :=
  match nodes with
  | [] => ret pattern
  | node :: rest =>
      c <- get_controller node ;;
      single_match_node rest (if c_single_match c then Some node else pattern)
  end.

(** The second loop of [find_extreme_case].  The handlers of
    [AttributeError] and [IndexError] and of the second [NameError] format
    their message with [target_node], a name the method does not define, so
    what leaves them is a [NameError]. *)
Fixpoint extreme_loop (self pattern : loc) (match_list : list tnode)
    (correct_node : tnode) : M tnode :=
  match match_list with
  | [] => ret correct_node
  | node :: rest =>
      c <- get_controller pattern ;;
      constraint <-
        (match c_single_match_contstraint c with
         | Some s => ret s
         | None => raise OtherError
         end) ;;
      o <- get_obj self ;;
      let constraint := Py.replace "@" "__target_node" constraint in
      let constraint :=
        Py.replace (set_all_nodes SET) "__correct_node" constraint in
      match eval_constraint (p_syntax o) constraint node (Some correct_node) with
      | Ok st => extreme_loop self pattern rest (if st then node else correct_node)
      | Raise ValueError => raise ValueError
      | Raise AttributeError => raise NameError
      | Raise IndexError => raise NameError
      | Raise NameError =>
          fun h =>
            match h !! get_tree_root h self with
            | None => (Exc OtherError, h)
            | Some root =>
                match
                  eval_constraint (p_syntax root) constraint node
                    (Some correct_node)
                with
                | Ok st =>
                    extreme_loop self pattern rest
                      (if st then node else correct_node) h
                | Raise e => (Exc e, h)
                end
            end
      | Raise e => raise e
      end
  end.

(** [TreePattern.find_extreme_case]. *)
Definition find_extreme_case (self : loc) (match_list : list tnode) : M tnode :=
  nodes <- (fun h => (Ret (ptraverse h self), h)) ;;
  pattern <- single_match_node nodes None ;;
  correct_node <- index match_list 0 ;;
  match pattern with
  | Some pattern => extreme_loop self pattern match_list correct_node
  | None => raise NameError
  end.

(** What a caller gets from the generator [find_match]: the nodes it
    yields, and how it ends, normally ([Ret tt]) or with an exception. *)
Record search : Type := {
  yielded : list tnode;
  ending : outcome unit
}.

(** The loop of a single match pattern: every node of the traversal is
    matched, and the matches are collected. *)
Fixpoint collect_loop (pattern : loc) (nodes : list tnode)
    (matched_nodes : list tnode) : M (list tnode) :=
  match nodes with
  | [] => ret matched_nodes
  | node :: rest =>
      b <- match_ pattern node ;;
      collect_loop pattern rest
        (if b then (matched_nodes ++ [node])%list else matched_nodes)
  end.

(** The loop of an ordinary pattern.  The test of [maxhits] follows the
    [yield]. *)
Fixpoint search_loop (pattern : loc) (maxhits : option Z) (nodes : list tnode)
    (num_hits : Z) (h : heap) : search * heap :=
  match nodes with
  | [] => ({| yielded := []; ending := Ret tt |}, h)
  | node :: rest =>
      match match_ pattern node h with
      | (Ret b, h') =>
          let num_hits := if b then num_hits + 1 else num_hits in
          let stop :=
            match maxhits with
            | Some k => k <=? num_hits
            | None => false
            end in
          let '(s, h'') :=
            if stop then ({| yielded := []; ending := Ret tt |}, h')
            else search_loop pattern maxhits rest num_hits h' in
          ({| yielded := if b then node :: yielded s else yielded s;
              ending := ending s |}, h'')
      | (Exc e, h') => ({| yielded := []; ending := Exc e |}, h')
      | (OutOfFuel, h') => ({| yielded := []; ending := OutOfFuel |}, h')
      end
  end.

Definition ended {A : Type} (r : outcome A * heap) : search * heap :=
  match r with
  | (Ret _, h) => ({| yielded := []; ending := Ret tt |}, h)
  | (Exc e, h) => ({| yielded := []; ending := Exc e |}, h)
  | (OutOfFuel, h) => ({| yielded := []; ending := OutOfFuel |}, h)
  end.

(** [TreePattern.find_match(tree, maxhits, cache, target_traversal)], run to
    its end: the pattern is copied, the copy is compiled and then matched
    with the nodes of the target in the order of the traversal. *)
Definition find_match (self : loc) (maxhits : option Z)
    (target_traversal : strategy) (h : heap) : search * heap :=
  let '(h, one_use_pattern) := deepcopy self h in
  match set_controllers (ptraverse h one_use_pattern) false h with
  | (Ret single_match_pattern, h) =>
      let nodes := traverse target_traversal ([], T) in
      if single_match_pattern then
        match
          (matched_nodes <- collect_loop one_use_pattern nodes [] ;;
           find_extreme_case one_use_pattern matched_nodes) h
        with
        | (Ret node, h) => ({| yielded := [node]; ending := Ret tt |}, h)
        | r => ended r
        end
      else search_loop one_use_pattern maxhits nodes 0 h
  | r => ended r
  end.

End Matcher.

(** ** The attribute caches

    [TreePatternCache] keeps two dictionaries that ETE's
    [get_cached_content] builds; [_FakeCache] answers the same questions by
    traversing the target. *)

Section Caches.

Variable V : Type.

(** [getattr(n, attr_name, None)] for the node at a position of the target. *)
Variable getattr : path -> string -> V.

(** ETE's [TreeNode.get_cached_content(leaves_only=...)], with its default
    container, a set: the children fill the store first; then a leaf stores
    itself, and an inner node stores the union of what its children stored,
    with itself and its children added unless [leaves_only]. *)
Fixpoint get_cached_content (leaves_only : bool) (p : path) (t : tree)
    (store : gmap path (gset path)) : gmap path (gset path) :=
  match t with
  | Node _ ts =>
      let store :=
        (fix go (i : nat) (ts : list tree) (store : gmap path (gset path)) :=
           match ts with
           | [] => store
           | c :: ts' =>
               go (S i) ts' (get_cached_content leaves_only (p ++ [i])%list c store)
           end) 0%nat ts store in
      match ts with
      | [] => <[p := {[p]}]> store
      | _ =>
          let val : gset path := if leaves_only then ∅ else {[p]} in
          let val :=
            foldl (fun (val : gset path) (ch : path) =>
                     val ∪ default ∅ (store !! ch)
                         ∪ (if leaves_only then ∅ else {[ch]}))
                  val (imap (fun i _ => (p ++ [i])%list) ts) in
          <[p := val]> store
      end
  end.

(** ETE's [iter_leaves] and [get_leaves]: the leaves, in preorder. *)
Definition get_leaves (x : tnode) : list tnode :=
  filter (fun y => node_is_leaf y = true) (traverse preorder x).

(** ETE's [get_descendants]: the nodes of the default traversal that are not
    the node itself. *)
Definition get_descendants (x : tnode) : list tnode :=
  filter (fun y => fst y ≠ fst x) (traverse levelorder x).

Record TreePatternCache : Type := {
  leaves_cache : gmap path (gset path);
  all_node_cache : gmap path (gset path)
}.

(** [TreePatternCache.__init__]. *)
Definition TreePatternCache_init (tree : tree) : TreePatternCache :=
  {| leaves_cache := get_cached_content true [] tree ∅;
     all_node_cache := get_cached_content false [] tree ∅ |}.

(** The three accessors of a cache object, as [PatternSyntax] calls them on
    whichever cache it holds. *)
Record Cache (C : Type) : Type := {
  get_cached_attr : C -> string -> tnode -> bool -> res (list V);
  cache_get_leaves : C -> tnode -> res (list path);
  cache_get_descendants : C -> tnode -> res (list path)
}.

(** [cache[node]] on one of the dictionaries, its set listed in some order. *)
Definition cached (c : gmap path (gset path)) (node : tnode) : res (list path) :=
  match c !! fst node with
  | Some s => Ok (elements s)
  | None => Raise KeyError
  end.

Definition TreePatternCache_methods : Cache TreePatternCache :=
  {| get_cached_attr c attr_name node leaves_only :=
       res_bind
         (cached (if leaves_only then leaves_cache c else all_node_cache c) node)
         (fun ns => Ok (map (fun n => getattr n attr_name) ns));
     cache_get_leaves c node := cached (leaves_cache c) node;
     cache_get_descendants c node := cached (all_node_cache c) node |}.

(** [_FakeCache] has no state. *)
Inductive FakeCache : Set := fake_cache.

Definition FakeCache_methods : Cache FakeCache :=
  {| get_cached_attr _ attr_name node leaves_only :=
       Ok (map (fun n => getattr (fst n) attr_name)
               (if leaves_only then get_leaves node
                else traverse levelorder node));
     cache_get_leaves _ node := Ok (map fst (get_leaves node));
     cache_get_descendants _ node := Ok (map fst (get_descendants node)) |}.

(** [PatternSyntax.n_leaves]. *)
Definition n_leaves {C : Type} (methods : Cache C) (cache : C)
    (target_node : tnode) : res nat :=
  res_bind (cache_get_leaves C methods cache target_node)
    (fun l => Ok (length l)).

End Caches.

Arguments get_cached_attr {V C}.
Arguments cache_get_leaves {V C}.
Arguments cache_get_descendants {V C}.
Arguments n_leaves {V C}.

(** ** Auxiliary definitions of the statements *)

(** The truth value of the root and leaf anchors of a controller. *)
Definition anchors (c : controller) (x : tnode) : bool :=
  (match c_root c with Some true => node_is_root x | _ => true end)
  && (match c_leaf c with Some true => node_is_leaf x | _ => true end).

(** An evaluator that knows no name: every constraint the embedding leaves
    to it raises [NameError]. *)
Definition no_oracle
    (T : tree) (syn : syntax) (constraint : string) (env : list (string * path))
    : res bool :=
  Raise NameError.

(** A pattern object that [set_controller] has compiled to the name [n] and
    the controller [c]. *)
Definition compiled (n : string) (c : controller) : pobj :=
  {| p_name := n; p_children := []; p_up := None;
     p_controller := Some c; p_syntax := DefaultSyntax |}.

(** The controller of a one-or-more connection. *)
Definition one_or_more_controller : controller :=
  {| c_root := None; c_leaf := None;
     c_not := false; c_low := 1; c_high := -1; c_skipped := 0;
     c_single_match := false;
     c_allow_indirect_connection := true;
     c_direct_connection_first := false;
     c_single_match_contstraint := None |}.

(** No character of [r] is a value of [SYMBOL]. *)
Fixpoint no_symbols (S : symbols) (r : string) : bool :=
  match r with
  | EmptyString => true
  | String c r' => negb (in_values S c) && no_symbols S r'
  end.

(** A string of decimal digits. *)
Fixpoint digits (s : string) : bool :=
  match s with
  | EmptyString => true
  | String c s' => Py.is_digit c && digits s'
  end.

(** What the compiler needs of a symbol table: the values differ from one
    another, and the braces of the bounded marker are neither digits nor the
    dash that separates the bounds. *)
Definition symbols_ok (S : symbols) : bool :=
  bool_decide (NoDup (symbol_values S))
  && negb (Py.is_digit (sym_defined_number_set_start S))
  && negb (Py.is_digit (sym_defined_number_set_end S))
  && negb (Ascii.eqb (sym_defined_number_set_start S) "-")
  && negb (Ascii.eqb (sym_defined_number_set_end S) "-").

(** The bound a digit string denotes, [d] when the bound is left out. *)
Definition bound_of (d : Z) (s : string) : Z :=
  match s with
  | EmptyString => d
  | _ => default d (Py.digits_value 0 s)
  end.

(** The controller of a node whose label carries one quantifier and no
    anchor. *)
Definition quantified (lo hi : Z) (direct_first : bool) : controller :=
  {| c_root := None; c_leaf := None;
     c_not := false; c_low := lo; c_high := hi; c_skipped := 0;
     c_single_match := false;
     c_allow_indirect_connection := true;
     c_direct_connection_first := direct_first;
     c_single_match_contstraint := None |}.

(** The bounded marker with the text [body] between the braces. *)
Definition braces (S : symbols) (body : string) : string :=
  String (sym_defined_number_set_start S)
    (body ++ String (sym_defined_number_set_end S) EmptyString).

(** ** Patterns, targets and evaluators of the examples *)

(** The object that [TreePattern.__init__] makes of a node labelled [label]:
    not compiled yet. *)
Definition fresh_obj (label : string) (children : list loc) (up : option loc)
    (syn : syntax) : pobj :=
  {| p_name := label; p_children := children; p_up := up;
     p_controller := None; p_syntax := syn |}.

(** A pattern of one node whose bounded marker holds a letter. *)
Definition malformed_pattern : ptree := PNode "c{x}" [].

(** The pattern [(@.x)a]: a node named [a] with a child that satisfies the
    constraint [@.x]. *)
Definition attribute_pattern : ptree := PNode "a" [PNode "@.x" []].

(** A target with two nodes named [a], each with one child. *)
Definition two_a_target : tree :=
  Node "r" [Node "a" [Node "u" []]; Node "a" [Node "v" []]].

(** An evaluator for which the attribute of the constraint is missing on the
    node at position 0.0 and true on every other node. *)
Definition raising_oracle
    (T : tree) (syn : syntax) (constraint : string) (env : list (string * path))
    : res bool :=
  match env with
  | (_, [0%nat; 0%nat]) :: _ => Raise AttributeError
  | _ => Ok true
  end.

(** The same evaluator with the attribute false instead of missing. *)
Definition quiet_oracle
    (T : tree) (syn : syntax) (constraint : string) (env : list (string * path))
    : res bool :=
  match env with
  | (_, [0%nat; 0%nat]) :: _ => Ok false
  | _ => Ok true
  end.

(** The pattern of the single node [a]. *)
Definition single_node_pattern : ptree := PNode "a" [].

(** A single match pattern: the root compares a candidate with the best one
    so far, and asks for a child named [zzz]. *)
Definition extreme_pattern : ptree :=
  PNode "@.dist > <all_nodes>.dist" [PNode "zzz" []].

(** The target [(c,g)a]. *)
Definition cg_target : tree := Node "a" [Node "c" []; Node "g" []].

(** The pattern node whose constraint [match] evaluates first: the first
    child of a node that tries the direct connection first, the node itself
    otherwise. *)
Definition tested_node (o : pobj) (c : controller) (self : loc) : loc :=
  if c_direct_connection_first c then
    match p_children o with
    | child :: _ => child
    | [] => self
    end
  else self.

(** ** The part of the store a search works on *)

(** The objects from location [N] on refer only to objects from location [N]
    on. *)
Definition closed_above (N : nat) (h : heap) : Prop :=
  forall (l : loc) (o : pobj),
    (N <= l)%nat -> h !! l = Some o ->
    Forall (le N) (p_children o)
    /\ (forall u : loc, p_up o = Some u -> (N <= u)%nat).

(** The computation [m] keeps the store closed above [N], leaves the
    objects below [N] as they are, and returns only values that satisfy
    [Q]. *)
Definition frame {A : Type} (N : nat) (m : M A) (Q : A -> Prop) : Prop :=
  forall h : heap,
    closed_above N h ->
    closed_above N (snd (m h))
    /\ take N (snd (m h)) = take N h
    /\ (forall a : A, fst (m h) = Ret a -> Q a).

(** What [frame] asks of an object read from location [N] on. *)
Definition refers_above (N : nat) (o : pobj) : Prop :=
  Forall (le N) (p_children o)
  /\ (forall u : loc, p_up o = Some u -> (N <= u)%nat).

(** ** The connection patterns and their targets *)

(** The pattern [((c)q)a]: a node named [a], a connection [q], a node named
    [c]. *)
Definition connection_pattern (q : string) : ptree :=
  PNode "a" [PNode q [PNode "c" []]].

(** The names of the three nodes once compiled. *)
Definition connection_names : list string :=
  [ "@.name == " ++ Py.quoted "a"; "@"; "@.name == " ++ Py.quoted "c" ].

(** None of the set markers occurs in the names. *)
Definition markers_absent (SET : sets) (names : list string) : bool :=
  forallb (fun n => negb (Py.contains (set_any_child SET) n)
                    && negb (Py.contains (set_children SET) n)
                    && negb (Py.contains (set_all_nodes SET) n)) names.

(** The store of a search with a connection pattern, once the copy is
    compiled: the three objects of the pattern as the constructor made them,
    and their copies with their controllers; [k] is the counter of skipped
    nodes of the connection. *)
Definition connection_heap (q : string) (lo : Z) (df : bool) (k : Z) : heap :=
  [ fresh_obj "a" [1%nat] None DefaultSyntax;
    fresh_obj q [2%nat] (Some 0%nat) DefaultSyntax;
    fresh_obj "c" [] (Some 1%nat) DefaultSyntax;
    {| p_name := "@.name == " ++ Py.quoted "a"; p_children := [4%nat];
       p_up := None; p_controller := Some default_controller;
       p_syntax := DefaultSyntax |};
    {| p_name := "@"; p_children := [5%nat]; p_up := Some 3%nat;
       p_controller := Some (set_skipped k (quantified lo (-1) df));
       p_syntax := DefaultSyntax |};
    {| p_name := "@.name == " ++ Py.quoted "c"; p_children := [];
       p_up := Some 4%nat; p_controller := Some default_controller;
       p_syntax := DefaultSyntax |} ].

(** Some node of the tree, the root included, is named [n]. *)
Fixpoint has_named (n : string) (t : tree) : bool :=
  match t with
  | Node m ts => String.eqb m n || existsb (has_named n) ts
  end.

(** Some node below the root is named [n]. *)
Definition named_below (n : string) (t : tree) : bool :=
  existsb (has_named n) (t_children t).

(** What [match] answers for the root of the pattern [((c)+)a]: the node
    is named [a] and a node named [c] lies below one of its children. *)
Definition one_or_more_match (t : tree) : bool :=
  String.eqb (t_name t) "a" && existsb (named_below "c") (t_children t).

(** What [match] answers for the root of the pattern with a star: the node
    is named [a] and a node named [c] lies below it. *)
Definition zero_or_more_match (t : tree) : bool :=
  String.eqb (t_name t) "a" && named_below "c" t.

(** A chain of nodes with one child each, named [names] from the top, that
    ends above [last]. *)
Fixpoint chain (names : list string) (last : tree) : tree :=
  match names with
  | [] => last
  | n :: names' => Node n [chain names' last]
  end.

(** A leaf. *)
Definition leaf (n : string) : tree := Node n [].

(** The first elements of the candidates. *)
Definition heads {A : Type} (candidates : list (list A)) : list A :=
  omap head candidates.

(** The variables after the loop over the children of the pattern node, for
    one candidate whose first node answers [b]. *)
Definition after_while (b skip : bool) (v : locals) : locals :=
  if b then
    {| status := status v; sub_status := true;
       sub_status_count := sub_status_count v + 1;
       test_children_properties := test_children_properties v;
       continious_matched := continious_matched v;
       current_matched := current_matched v |}
  else if skip then v
  else
    {| status := status v; sub_status := false;
       sub_status_count := sub_status_count v;
       test_children_properties := test_children_properties v;
       continious_matched := continious_matched v;
       current_matched := current_matched v |}.

(** The expressions that [parse_node_name] leaves as they are: not empty,
    without a comma, not alphabetic, and with no white space around. *)
Definition kept (p : string) : Prop :=
  p <> EmptyString /\ Py.mem_char "," p = false /\ Py.strip p = p
  /\ Py.all_alpha p = false.


(** The pattern [(b+,c)a]: a node with two children, the first of them a
    leaf with a quantifier. *)
Definition sibling_pattern (a b c : string) : ptree :=
  PNode a [PNode (b ++ "+") []; PNode c []].

(** The store of a search with that pattern, once the copy is compiled;
    [k] is the counter of skipped nodes of the quantified leaf. *)
Definition sibling_heap (a b c : string) (k : Z) : heap :=
  [ fresh_obj a [1%nat; 2%nat] None DefaultSyntax;
    fresh_obj (b ++ "+") [] (Some 0%nat) DefaultSyntax;
    fresh_obj c [] (Some 0%nat) DefaultSyntax;
    {| p_name := "@.name == " ++ Py.quoted a; p_children := [4%nat; 5%nat];
       p_up := None; p_controller := Some default_controller;
       p_syntax := DefaultSyntax |};
    {| p_name := "@.name == " ++ Py.quoted b; p_children := [];
       p_up := Some 3%nat;
       p_controller := Some (set_skipped k (quantified 1 (-1) false));
       p_syntax := DefaultSyntax |};
    {| p_name := "@.name == " ++ Py.quoted c; p_children := [];
       p_up := Some 3%nat; p_controller := Some default_controller;
       p_syntax := DefaultSyntax |} ].

(** ** The shortcuts of [PatternSyntax] that look for names

    The values of an attribute are of any type [V] with a decidable
    equality: strings, or [None] where a node lacks the attribute. *)

Section Syntax.

Context {V : Type} `{Countable V}.
Context {C : Type}.

(** The cache the syntax object holds: the one [match] has set, or the
    emulator. *)
Variable methods : Cache V C.

(** The argument [species_names] or [node_names]: one string, or an
    iterable of values. *)
Inductive names_arg : Type :=
| OneName (name : V)
| ManyNames (names : list V).

(** [set([names])] for a string, [set(names)] otherwise. *)
Definition names_set (names : names_arg) : gset V :=
  match names with
  | OneName name => {[ name ]}
  | ManyNames names => list_to_set names
  end.

(** The loop [for v in values: if v in names: found += 1]. *)
Definition count_found (names : gset V) (values : list V) : nat :=
  foldl (fun found v => if decide (v ∈ names) then S found else found)
        0%nat values.

(** [PatternSyntax.contains_species]. *)
Definition contains_species (cache : C) (target_node : tnode)
    (species_names : names_arg) : res bool :=
  let species_names := names_set species_names in
  res_bind (get_cached_attr methods cache "species" target_node true)
    (fun values =>
       Ok (count_found species_names values =? size species_names)%nat).

(** [PatternSyntax.contains_leaves]. *)
Definition contains_leaves (cache : C) (target_node : tnode)
    (node_names : names_arg) : res bool :=
  let node_names := names_set node_names in
  res_bind (get_cached_attr methods cache "name" target_node true)
    (fun values =>
       Ok (count_found node_names values =? size node_names)%nat).

(** [PatternSyntax.n_species]. *)
Definition n_species (cache : C) (target_node : tnode) : res nat :=
  res_bind (get_cached_attr methods cache "species" target_node true)
    (fun species => Ok (size (list_to_set species : gset V))).

End Syntax.

(** ** Termination of the search *)

(** A method call that returns or raises: the fuel of the embedding does
    not run out. *)
Definition finishes {A : Type} (m : M A) : Prop :=
  forall h : heap, fst (m h) <> OutOfFuel.

(** [y] is the node at the path [q] below [x], or [x] itself. *)
Definition below (x y : tnode) : Prop :=
  exists q : path,
    fst y = (fst x ++ q)%list /\ subtree (snd x) q = Some (snd y).

(** [y] is a node of the target tree [T]. *)
Definition in_target (T : tree) (y : tnode) : Prop := below ([], T) y.

(** The store of a search with a connection pattern whose connection has
    the bounds [lo] and [hi], once the copy is compiled; [k] is the counter
    of skipped nodes of the connection. *)
Definition bounded_heap (q : string) (lo hi : Z) (df : bool) (k : Z) : heap :=
  [ fresh_obj "a" [1%nat] None DefaultSyntax;
    fresh_obj q [2%nat] (Some 0%nat) DefaultSyntax;
    fresh_obj "c" [] (Some 1%nat) DefaultSyntax;
    {| p_name := "@.name == " ++ Py.quoted "a"; p_children := [4%nat];
       p_up := None; p_controller := Some default_controller;
       p_syntax := DefaultSyntax |};
    {| p_name := "@"; p_children := [5%nat]; p_up := Some 3%nat;
       p_controller := Some (set_skipped k (quantified lo hi df));
       p_syntax := DefaultSyntax |};
    {| p_name := "@.name == " ++ Py.quoted "c"; p_children := [];
       p_up := Some 4%nat; p_controller := Some default_controller;
       p_syntax := DefaultSyntax |} ].

(** A node named [a] above a node named [c], one node in between. *)
Definition one_between : tree := Node "a" [Node "x" [Node "c" []]].

(** The target with [n] such nodes under its root. *)
Definition copies (n : nat) : tree := Node "r" (replicate n one_between).

(** The nodes of [n] copies in preorder, the first copy at the position
    [i] under the root. *)
Fixpoint copies_nodes (i n : nat) : list tnode :=
  match n with
  | O => []
  | S n' =>
      ([i], one_between) :: ([i; 0%nat], Node "x" [Node "c" []])
      :: ([i; 0%nat; 0%nat], Node "c" []) :: copies_nodes (S i) n'
  end.

(** ** Evaluators that fail more often *)

(** [m'] runs as [m] does, or it raises. *)
Definition or_raises {A : Type} (m m' : M A) : Prop :=
  forall h, m' h = m h \/ exists e h', m' h = (Exc e, h').

(** The evaluator [pyeval'] is [pyeval] with failures added: where the two
    differ, [pyeval'] raises, and when it raises a [NameError] it does so in
    the scope of every syntax object, so the second evaluation that
    [is_local_match] tries in the scope of the root fails as well. *)
Definition adds_failures
    (pyeval pyeval' : tree -> syntax -> string -> list (string * path) -> res bool)
    : Prop :=
  forall T syn constraint env,
    pyeval' T syn constraint env = pyeval T syn constraint env
    \/ exists e,
         pyeval' T syn constraint env = Raise e
         /\ (e = NameError ->
             forall syn', exists e', pyeval' T syn' constraint env = Raise e').

(** ** Patterns in the store, and bounds that are no numbers *)

(** The labels of a pattern, in preorder. *)
Fixpoint labels (p : ptree) : list string :=
  match p with
  | PNode label ks => label :: flat_map labels ks
  end.

(** The pattern [p] is in the store [h] at location [l] as the constructor
    leaves it: every node is an object that carries the label of the node
    and no controller, and its children are the objects of the children of
    the node. *)
#[warnings="-register-all"]
Inductive stored (h : heap) : ptree -> loc -> Prop :=
| stored_node (label : string) (ks : list ptree) (l : loc) (o : pobj) :
    h !! l = Some o ->
    p_name o = label ->
    p_controller o = None ->
    Forall2 (stored h) ks (p_children o) ->
    stored h (PNode label ks) l.

(** The characters of the texts that [int] accepts: digits, white space and
    signs. *)
Definition numeric_char (c : ascii) : bool :=
  Py.is_digit c || Py.is_space c || Ascii.eqb c "+" || Ascii.eqb c "-".

(** A text with a character that no text accepted by [int] holds. *)
Fixpoint non_numeric (s : string) : bool :=
  match s with
  | EmptyString => false
  | String c s' => negb (numeric_char c) || non_numeric s'
  end.

(** The text between the braces of a bounded marker is malformed: one of the
    two bounds that [decode_repeat_symbol] reads, the texts before and after
    the first dash, is no number. *)
Definition malformed_bounds (body : string) : bool :=
  existsb non_numeric (take 2 (Py.split "-" body)).

(** What a method that compiles the node at [l] does: it returns, leaving
    every other object of the store as it is, or it raises a [ValueError] or
    an [IndexError]. *)
Definition compiles_at {A : Type} (l : loc) (m : M A) : Prop :=
  forall h : heap,
    is_Some (h !! l) ->
    match m h with
    | (Ret _, h') =>
        length h' = length h /\ forall l', l' <> l -> h' !! l' = h !! l'
    | (Exc e, _) => e = ValueError \/ e = IndexError
    | (OutOfFuel, _) => False
    end.

(** Patterns with a malformed bounded marker on the root and on a leaf. *)
Definition malformed_leaf_pattern : ptree :=
  PNode "a" [PNode "b" []; PNode "c{1-x}+" []].

(** The pattern [(b,c)a]: a node with two children, all three with plain
    names. *)
Definition pair_pattern (a b c : string) : ptree :=
  PNode a [PNode b []; PNode c []].

(** The store of a search with that pattern, once the copy is compiled. *)
Definition pair_heap (a b c : string) : heap :=
  [ fresh_obj a [1%nat; 2%nat] None DefaultSyntax;
    fresh_obj b [] (Some 0%nat) DefaultSyntax;
    fresh_obj c [] (Some 0%nat) DefaultSyntax;
    {| p_name := "@.name == " ++ Py.quoted a; p_children := [4%nat; 5%nat];
       p_up := None; p_controller := Some default_controller;
       p_syntax := DefaultSyntax |};
    {| p_name := "@.name == " ++ Py.quoted b; p_children := [];
       p_up := Some 3%nat; p_controller := Some default_controller;
       p_syntax := DefaultSyntax |};
    {| p_name := "@.name == " ++ Py.quoted c; p_children := [];
       p_up := Some 3%nat; p_controller := Some default_controller;
       p_syntax := DefaultSyntax |} ].

(** Two different trees of the list are named [b] and [c], in either
    order. *)
Definition two_named (b c : string) (ts : list tree) : bool :=
  existsb (fun '(t, rest) =>
             String.eqb (t_name t) b
             && existsb (fun u => String.eqb (t_name u) c) rest)
          (pick ts).

(** What [match] answers for the root of the pattern [(b,c)a]. *)
Definition pair_match (a b c : string) (t : tree) : bool :=
  String.eqb (t_name t) a && two_named b c (t_children t).

(** * Properties *)

(** ** Strings: small facts *)

Lemma py_take_app (x y : string) :
  Py.take (String.length x) (x ++ y) = x.
Proof. induction x as [|c x IH]; simpl; [by destruct y | by rewrite IH]. Qed.

Lemma string_length_app (x y : string) :
  String.length (x ++ y) = (String.length x + String.length y)%nat.
Proof. induction x as [|c x IH]; simpl; [done | by rewrite IH]. Qed.

Lemma string_prefix_app (p r : string) : String.prefix p (p ++ r) = true.
Proof.
  induction p as [|c p IH]; [by destruct r|].
  change (String c p ++ r) with (String c (p ++ r)).
  cbn [String.prefix]. destruct (ascii_dec c c); [done|congruence].
Qed.

Lemma py_drop_app (p r : string) : Py.drop (String.length p) (p ++ r) = r.
Proof. induction p as [|c p IH]; [done|]. exact IH. Qed.

Lemma name_test_quoted (n : string) :
  plain n = true ->
  name_test ("__target_node.name == " ++ Py.quoted n) = Some n.
Proof.
  intros Hn. unfold name_test, Py.quoted.
  set (pre := "__target_node.name == " ++ String Py.dquote "").
  change ("__target_node.name == " ++ String Py.dquote (n ++ String Py.dquote ""))
    with (pre ++ (n ++ String Py.dquote "")).
  rewrite string_prefix_app, py_drop_app, string_length_app.
  cbn [String.length].
  replace (String.length n + 1 - 1)%nat with (String.length n) by lia.
  rewrite py_take_app, String.eqb_refl, Hn. done.
Qed.

Lemma eval_constraint_name pyeval T syn (n : string) (x : tnode) best :
  plain n = true ->
  eval_constraint pyeval T syn ("__target_node.name == " ++ Py.quoted n) x best
  = Ok (String.eqb (node_name x) n).
Proof.
  intros Hn. unfold eval_constraint.
  assert (H1 : String.eqb ("__target_node.name == " ++ Py.quoted n)
                 "__target_node.is_root()" = false) by reflexivity.
  assert (H2 : String.eqb ("__target_node.name == " ++ Py.quoted n)
                 "__target_node.is_leaf()" = false) by reflexivity.
  by rewrite H1, H2, name_test_quoted.
Qed.

(** C10: a compiled pattern node that allows an indirect connection and whose
    name is not empty and holds no reference to the node puts no constraint on
    the name of the target node: [is_local_match] returns the truth value of
    the root and leaf anchors alone.  The same name on a node without a
    quantifier is compared with the name of the target node. *)
Theorem is_local_match_indirect_ignores_name pyeval T (h : heap) (self : loc) (o : pobj) (c : controller) (x : tnode) :
    h !! self = Some o ->
    p_controller o = Some c ->
    p_name o <> EmptyString ->
    Py.mem_char "@" (p_name o) = false ->
    (c_allow_indirect_connection c = true ->
     is_local_match pyeval T self x h = (Ret (anchors c x), h))
    /\ (c_allow_indirect_connection c = false ->
        plain (p_name o) = true ->
        is_local_match pyeval T self x h
        = (Ret (anchors c x && String.eqb (node_name x) (p_name o)), h)).
Proof.
  intros Ho Hc Hne Hat.
  assert (Hget : get_obj self h = (Ret o, h)) by (unfold get_obj; by rewrite Ho).
  assert (Hgc : get_controller self h = (Ret c, h)).
  { unfold get_controller, bind. rewrite Hget, Hc. done. }
  split.
  - intros Hind. unfold is_local_match, bind. rewrite Hget, Hgc.
    unfold local_constraints, anchors. rewrite Hat, Hind.
    destruct (p_name o) eqn:En; [done|].
    destruct (c_root c) as [[]|], (c_leaf c) as [[]|]; cbn;
      by rewrite ?andb_true_r.
  - intros Hind Hpl. unfold is_local_match, bind. rewrite Hget, Hgc.
    unfold local_constraints, anchors. rewrite Hat, Hind.
    destruct (p_name o) as [|a s] eqn:En; [done|].
    assert (Hq : exists q, "__target_node.name == " ++ Py.quoted (String a s)
                           = String "_" q) by (eexists; reflexivity).
    destruct Hq as [q Hq].
    destruct (c_root c) as [[]|], (c_leaf c) as [[]|];
      cbn [app eval_constraints res_bind];
      rewrite Hq; cbn [eval_constraints res_bind]; rewrite <- Hq;
      rewrite ?eval_constraint_name by done;
      cbn; by rewrite ?andb_true_r, ?andb_true_l.
Qed.

Lemma is_local_match_indirect_ignores_name_witness :
  is_local_match no_oracle (Node "b" []) 0%nat ([], Node "b" [])
    [compiled "x1" one_or_more_controller]
  = (Ret true, [compiled "x1" one_or_more_controller])
  /\ is_local_match no_oracle (Node "b" []) 0%nat ([], Node "b" [])
       [compiled "x1" default_controller]
     = (Ret false, [compiled "x1" default_controller]).
Proof.
  split.
  - apply (is_local_match_indirect_ignores_name no_oracle (Node "b" []) _ 0%nat
             (compiled "x1" one_or_more_controller) one_or_more_controller
             ([], Node "b" [])); reflexivity || discriminate.
  - apply (is_local_match_indirect_ignores_name no_oracle (Node "b" []) _ 0%nat
             (compiled "x1" default_controller) default_controller
             ([], Node "b" [])); reflexivity || discriminate.
Defined.

(** ** The compiler: reading the metacharacters of a label *)

Lemma string_app_assoc (x y z : string) : (x ++ y) ++ z = x ++ (y ++ z).
Proof.
  induction x as [|c x IH]; [done|].
  change (String c ((x ++ y) ++ z) = String c (x ++ (y ++ z))). by rewrite IH.
Qed.

Lemma string_app_cons (c : ascii) (x y : string) :
  String c x ++ y = String c (x ++ y).
Proof. done. Qed.

Lemma string_app_nil_l (y : string) : EmptyString ++ y = y.
Proof. done. Qed.

Lemma last_char_app (r : string) (c : ascii) (s : string) :
  Py.last_char (r ++ String c s) = Py.last_char (String c s).
Proof.
  induction r as [|d r IH]; [done|].
  rewrite string_app_cons, <- IH.
  cbn [Py.last_char]. by destruct r.
Qed.

Lemma mem_char_app (c : ascii) (x y : string) :
  Py.mem_char c (x ++ y) = Py.mem_char c x || Py.mem_char c y.
Proof.
  induction x as [|d x IH]; [done|].
  rewrite string_app_cons. cbn [Py.mem_char]. rewrite IH. by rewrite orb_assoc.
Qed.

Lemma find_char_app (c : ascii) (x y : string) :
  Py.mem_char c x = false ->
  Py.find_char c (x ++ String c y) = Z.of_nat (String.length x).
Proof.
  induction x as [|d x IH]; intros H.
  - rewrite string_app_nil_l. cbn. by rewrite Ascii.eqb_refl.
  - cbn [Py.mem_char] in H. apply orb_false_elim in H as [H1 H2].
    rewrite string_app_cons. cbn [Py.find_char String.length].
    rewrite H1, IH by done.
    destruct (Z.ltb_spec (Z.of_nat (String.length x)) 0); lia.
Qed.

Lemma clamp_of_nat (len a : nat) :
  (a <= len)%nat -> Py.clamp len (Z.of_nat a) = a.
Proof.
  intros H. unfold Py.clamp.
  destruct (Z.ltb_spec (Z.of_nat a) 0); lia.
Qed.

Lemma slice_of_nat (a b : nat) (s : string) :
  (a <= String.length s)%nat -> (b <= String.length s)%nat ->
  Py.slice (Z.of_nat a) (Z.of_nat b) s = Py.take (b - a) (Py.drop a s).
Proof. intros Ha Hb. unfold Py.slice. by rewrite !clamp_of_nat. Qed.

Lemma py_take_all (s : string) : Py.take (String.length s) s = s.
Proof. induction s as [|c s IH]; [done|]. cbn. by rewrite IH. Qed.

Lemma slice_prefix (x y : string) :
  Py.slice 0 (Z.of_nat (String.length x)) (x ++ y) = x.
Proof.
  change 0 with (Z.of_nat 0). rewrite slice_of_nat.
  - cbn [Py.drop]. rewrite Nat.sub_0_r. apply py_take_app.
  - lia.
  - rewrite string_length_app. lia.
Qed.

Lemma slice_suffix (x y : string) :
  Py.slice (Z.of_nat (String.length x))
           (Z.of_nat (String.length x + String.length y)) (x ++ y) = y.
Proof.
  rewrite slice_of_nat.
  - rewrite py_drop_app.
    replace (String.length x + String.length y - String.length x)%nat
      with (String.length y) by lia.
    apply py_take_all.
  - rewrite string_length_app. lia.
  - rewrite string_length_app. lia.
Qed.

Lemma in_values_In (ST : symbols) (c : ascii) :
  in_values ST c = true <-> In c (symbol_values ST).
Proof.
  unfold in_values. rewrite existsb_exists. split.
  - intros (d & Hd & E). apply Ascii.eqb_eq in E. by subst.
  - intros H. exists c. by rewrite Ascii.eqb_refl.
Qed.

Lemma no_symbols_mem (ST : symbols) (r : string) (c : ascii) :
  no_symbols ST r = true -> in_values ST c = true -> Py.mem_char c r = false.
Proof.
  intros Hr Hc. induction r as [|d r IH]; [done|].
  cbn [no_symbols] in Hr. apply andb_prop in Hr as [H1 H2].
  cbn [Py.mem_char]. rewrite IH by done. rewrite orb_false_r.
  destruct (Ascii.eqb_spec c d) as [->|]; [|done].
  by rewrite Hc in H1.
Qed.

Lemma no_symbols_last (ST : symbols) (r : string) (c : ascii) :
  no_symbols ST r = true -> Py.last_char r = Some c -> in_values ST c = false.
Proof.
  induction r as [|d r IH]; [done|]. intros Hr Hl.
  cbn [no_symbols] in Hr. apply andb_prop in Hr as [H1 H2].
  cbn [Py.last_char] in Hl. destruct r as [|e r].
  - injection Hl as <-. by apply negb_true_iff.
  - by apply IH.
Qed.

(** The loop stops on a residue without symbols. *)
Lemma parse_loop_stop (ST : symbols) (fuel : nat) (r : string) (ms : list string) :
  no_symbols ST r = true ->
  parse_metacharacters_loop ST fuel r ms = (r, ms).
Proof.
  intros Hr. destruct fuel as [|fuel]; [done|]. cbn [parse_metacharacters_loop].
  destruct (Py.last_char r) as [c|] eqn:E; [|done].
  by rewrite (no_symbols_last ST r c).
Qed.

(** A label that ends with one symbol other than a brace. *)
Lemma parse_metacharacters_symbol (ST : symbols) (r : string) (q : ascii) :
  no_symbols ST r = true ->
  in_values ST q = true ->
  q <> sym_defined_number_set_start ST ->
  snd (parse_metacharacters ST (r ++ String q EmptyString))
  = [String q EmptyString].
Proof.
  intros Hr Hq Hne. unfold parse_metacharacters.
  rewrite string_length_app. cbn [String.length].
  replace (String.length r + 1)%nat with (S (String.length r)) by lia.
  cbn [parse_metacharacters_loop].
  rewrite last_char_app. cbn [Py.last_char]. rewrite Hq.
  rewrite mem_char_app. cbn [Py.mem_char].
  rewrite (no_symbols_mem ST r) by (done || apply in_values_In; cbn; tauto).
  rewrite orb_false_r.
  destruct (Ascii.eqb_spec (sym_defined_number_set_start ST) q) as [E|_];
    [by subst|].
  cbn [orb].
  rewrite string_length_app. cbn [String.length].
  replace (Z.of_nat (String.length r + 1) - 1) with (Z.of_nat (String.length r))
    by lia.
  rewrite slice_prefix, parse_loop_stop by done.
  by destruct r.
Qed.

(** A label that ends with a bounded marker. *)
Lemma parse_metacharacters_braces (ST : symbols) (r body : string) :
  no_symbols ST r = true ->
  sym_defined_number_set_start ST <> sym_defined_number_set_end ST ->
  Py.mem_char (sym_defined_number_set_end ST) body = false ->
  snd (parse_metacharacters ST (r ++ braces ST body)) = [braces ST body].
Proof.
  intros Hr Hne Hbody. unfold parse_metacharacters, braces.
  remember (sym_defined_number_set_start ST) as o eqn:Eo.
  remember (sym_defined_number_set_end ST) as e eqn:Ee.
  assert (Ho : in_values ST o = true) by (apply in_values_In; subst; cbn; tauto).
  assert (He : in_values ST e = true) by (apply in_values_In; subst; cbn; tauto).
  rewrite string_length_app. cbn [String.length].
  replace (String.length r + S (String.length (body ++ String e "")))%nat
    with (S (String.length r + String.length (body ++ String e "")))%nat by lia.
  cbn [parse_metacharacters_loop]. rewrite <- Eo, <- Ee.
  rewrite last_char_app.
  change (String o (body ++ String e "")) with (String o body ++ String e "").
  rewrite last_char_app. cbn [Py.last_char]. rewrite He.
  rewrite mem_char_app, (string_app_cons o). cbn [Py.mem_char].
  rewrite Ascii.eqb_refl, orb_true_r.
  rewrite find_char_app by by apply (no_symbols_mem ST).
  rewrite slice_prefix.
  change (String o (body ++ String e "")) with (String o body ++ String e "").
  rewrite <- string_app_assoc, find_char_app.
  2:{ rewrite mem_char_app, (no_symbols_mem ST r) by done.
      cbn [Py.mem_char orb]. rewrite Hbody, orb_false_r.
      destruct (Ascii.eqb_spec e o); [by subst|done]. }
  rewrite string_app_assoc.
  replace (Z.of_nat (String.length (r ++ String o body)) + 1)
    with (Z.of_nat (String.length r
                    + String.length (String o body ++ String e ""))).
  2:{ rewrite !string_length_app. cbn [String.length]. lia. }
  rewrite slice_suffix, parse_loop_stop by done.
  by destruct r.
Qed.
(** ** The compiler: decoding the bounds *)

Lemma digit_facts (c : ascii) :
  Py.is_digit c = true ->
  Py.is_space c = false /\ Ascii.eqb c "-" = false /\ Ascii.eqb c "+" = false.
Proof.
  destruct c as [[] [] [] [] [] [] [] []]; vm_compute; intros H;
    (discriminate H || done).
Qed.

Lemma rstrip_digits (s : string) : digits s = true -> Py.rstrip s = s.
Proof.
  induction s as [|c s IH]; [done|]. cbn [digits]. intros H.
  apply andb_prop in H as [Hc Hs]. cbn [Py.rstrip]. rewrite IH by done.
  destruct s; [|done]. by destruct (digit_facts c Hc) as (-> & _).
Qed.

Lemma strip_digits (s : string) : digits s = true -> Py.strip s = s.
Proof.
  intros H. unfold Py.strip.
  replace (Py.lstrip s) with s; [by apply rstrip_digits|].
  destruct s as [|c s]; [done|]. cbn [digits] in H.
  apply andb_prop in H as [Hc _]. cbn [Py.lstrip].
  by destruct (digit_facts c Hc) as (-> & _).
Qed.

Lemma digits_value_Some (s : string) (acc : Z) :
  digits s = true -> is_Some (Py.digits_value acc s).
Proof.
  revert acc. induction s as [|c s IH]; intros acc H; [by eexists|].
  cbn [digits] in H. apply andb_prop in H as [Hc Hs].
  cbn [Py.digits_value]. rewrite Hc. by apply IH.
Qed.

Lemma int_digits (s : string) :
  digits s = true -> s <> EmptyString ->
  Py.int s = Some (bound_of 0 s).
Proof.
  intros H Hne. unfold Py.int. rewrite strip_digits by done.
  destruct s as [|c s]; [done|].
  pose proof H as H'. cbn [digits] in H'. apply andb_prop in H' as [Hc _].
  destruct (digit_facts c Hc) as (_ & -> & ->).
  unfold bound_of. by destruct (digits_value_Some (String c s) 0 H) as [v ->].
Qed.

Lemma bound_of_default (d d' : Z) (s : string) :
  digits s = true -> s <> EmptyString -> bound_of d s = bound_of d' s.
Proof.
  intros H Hne. destruct s as [|c s]; [done|]. unfold bound_of.
  by destruct (digits_value_Some (String c s) 0 H) as [v ->].
Qed.

Lemma digits_no_dash (s : string) :
  digits s = true -> Py.mem_char "-" s = false.
Proof.
  induction s as [|c s IH]; [done|]. cbn [digits]. intros H.
  apply andb_prop in H as [Hc Hs]. cbn [Py.mem_char]. rewrite IH by done.
  destruct (digit_facts c Hc) as (_ & E & _).
  rewrite orb_false_r, Ascii.eqb_sym. exact E.
Qed.

Lemma split_no_sep (c : ascii) (s : string) :
  Py.mem_char c s = false -> Py.split c s = [s].
Proof.
  induction s as [|d s IH]; [done|]. cbn [Py.mem_char]. intros H.
  apply orb_false_elim in H as [H1 H2]. cbn [Py.split].
  by rewrite H1, IH.
Qed.

Lemma split_one_sep (c : ascii) (x y : string) :
  Py.mem_char c x = false -> Py.mem_char c y = false ->
  Py.split c (x ++ String c y) = [x; y].
Proof.
  intros Hx Hy. induction x as [|d x IH].
  - rewrite string_app_nil_l. cbn [Py.split].
    by rewrite Ascii.eqb_refl, split_no_sep.
  - cbn [Py.mem_char] in Hx. apply orb_false_elim in Hx as [H1 H2].
    rewrite string_app_cons. cbn [Py.split]. by rewrite H1, IH.
Qed.

(** The text between the first and the last character of a marker. *)
Lemma slice_inside (o e : ascii) (body : string) :
  Py.slice 1
    (Z.of_nat (String.length (String o (body ++ String e EmptyString))) - 1)
    (String o (body ++ String e EmptyString)) = body.
Proof.
  cbn [String.length]. rewrite string_length_app. cbn [String.length].
  replace (Z.of_nat (S (String.length body + 1)) - 1)
    with (Z.of_nat (S (String.length body))) by lia.
  change 1 with (Z.of_nat 1). rewrite slice_of_nat.
  - cbn [Py.drop].
    replace (S (String.length body) - 1)%nat with (String.length body) by lia.
    apply py_take_app.
  - cbn [String.length]. lia.
  - cbn [String.length]. rewrite string_length_app. cbn [String.length]. lia.
Qed.

Lemma decode_repeat_symbol_range (ST : symbols) (lo hi : string) :
  digits lo = true -> digits hi = true ->
  decode_repeat_symbol (braces ST (lo ++ String "-" hi))
  = Ok (bound_of 0 lo, bound_of (-1) hi).
Proof.
  intros Hlo Hhi. unfold decode_repeat_symbol, braces.
  rewrite slice_inside.
  rewrite mem_char_app. cbn [Py.mem_char]. rewrite Ascii.eqb_refl, orb_true_r.
  rewrite split_one_sep by by apply digits_no_dash.
  change (default "" ([lo; hi] !! 0%nat)) with lo.
  change (default "" ([lo; hi] !! 1%nat)) with hi.
  destruct lo as [|a lo], hi as [|b hi];
    rewrite ?int_digits by done; cbn [res_bind]; try done.
  - by rewrite (bound_of_default 0 (-1)).
  - by rewrite (bound_of_default 0 (-1) (String b hi)).
Qed.

Lemma decode_repeat_symbol_single (ST : symbols) (n : string) :
  digits n = true -> n <> EmptyString ->
  decode_repeat_symbol (braces ST n) = Ok (bound_of 0 n, bound_of 0 n).
Proof.
  intros Hn Hne. unfold decode_repeat_symbol, braces.
  rewrite slice_inside, digits_no_dash, int_digits by done. done.
Qed.

Lemma symbols_ok_distinct (ST : symbols) (i j : nat) (x y : ascii) :
  symbols_ok ST = true ->
  symbol_values ST !! i = Some x -> symbol_values ST !! j = Some y ->
  i <> j -> x <> y.
Proof.
  unfold symbols_ok. intros H Hi Hj Hij ->.
  repeat (apply andb_prop in H as [H _]).
  apply bool_decide_eq_true in H.
  apply Hij. by eapply NoDup_lookup.
Qed.

Lemma symbols_ok_braces (ST : symbols) :
  symbols_ok ST = true ->
  Py.is_digit (sym_defined_number_set_end ST) = false
  /\ sym_defined_number_set_end ST <> "-"%char.
Proof.
  unfold symbols_ok. intros H.
  apply andb_prop in H as [H H5]. apply andb_prop in H as [H H4].
  apply andb_prop in H as [H H3]. apply andb_prop in H as [H H2].
  apply negb_true_iff in H3, H5. split; [done|].
  intros E. by rewrite E in H5.
Qed.

Lemma same_symbol (x y : ascii) :
  String.eqb (String x EmptyString) (String y EmptyString) = Ascii.eqb x y.
Proof. cbn. by destruct (Ascii.eqb x y). Qed.

Lemma marker_not_symbol (o e c : ascii) (body : string) :
  String.eqb (String o (body ++ String e EmptyString)) (String c EmptyString)
  = false.
Proof. cbn. destruct (Ascii.eqb o c); [|done]. by destruct body. Qed.

Lemma digits_no_char (s : string) (e : ascii) :
  digits s = true -> Py.is_digit e = false -> Py.mem_char e s = false.
Proof.
  intros Hs He. induction s as [|c s IH]; [done|].
  cbn [digits] in Hs. apply andb_prop in Hs as [Hc Hs].
  cbn [Py.mem_char]. rewrite IH by done.
  destruct (Ascii.eqb_spec e c) as [->|]; [congruence|done].
Qed.

Lemma label_controller_eq (ST : symbols) (label : string) (ms : list string) :
  label <> EmptyString ->
  snd (parse_metacharacters ST label) = ms ->
  label_controller ST label
  = res_bind (define_skipping_properties ST ms)
      (fun p => Ok (controller_update default_controller p)).
Proof. intros Hne <-. unfold label_controller. by destruct label. Qed.

Lemma app_not_empty (r : string) (c : ascii) (s : string) :
  r ++ String c s <> EmptyString.
Proof. by destruct r. Qed.
Lemma symbols_ok_eqb (ST : symbols) (i j : nat) (x y : ascii) :
  symbols_ok ST = true ->
  symbol_values ST !! i = Some x -> symbol_values ST !! j = Some y ->
  i <> j -> Ascii.eqb x y = false.
Proof. intros. apply Ascii.eqb_neq. by eapply symbols_ok_distinct. Qed.

(** Two different entries of a table that is [symbols_ok] differ. *)
Ltac symbol_index :=
  first [ exact (eq_refl : symbol_values _ !! 0%nat = Some _)
        | exact (eq_refl : symbol_values _ !! 1%nat = Some _)
        | exact (eq_refl : symbol_values _ !! 2%nat = Some _)
        | exact (eq_refl : symbol_values _ !! 3%nat = Some _)
        | exact (eq_refl : symbol_values _ !! 4%nat = Some _)
        | exact (eq_refl : symbol_values _ !! 5%nat = Some _)
        | exact (eq_refl : symbol_values _ !! 6%nat = Some _)
        | exact (eq_refl : symbol_values _ !! 7%nat = Some _)
        | exact (eq_refl : symbol_values _ !! 8%nat = Some _) ].

Ltac symbols_differ Hok :=
  lazymatch goal with
  | |- Ascii.eqb _ _ = false =>
      eapply symbols_ok_eqb; [exact Hok | symbol_index | symbol_index | lia]
  | |- _ <> _ =>
      eapply symbols_ok_distinct; [exact Hok | symbol_index | symbol_index | lia]
  end.

Ltac rewrite_symbols Hok :=
  rewrite ?same_symbol, ?Ascii.eqb_refl;
  repeat match goal with
         | |- context [Ascii.eqb ?x ?y] =>
             let E := fresh "E" in
             assert (E : Ascii.eqb x y = false) by symbols_differ Hok;
             rewrite E; clear E
         end.

(** C7: the descriptor of a label that ends with a quantifier marker.
    One-or-more gives low 1, high -1, an indirect connection and no direct
    connection first; zero-or-more gives an indirect connection, tried
    directly first, with the default bounds 0 and -1; zero-or-one gives the
    same with high 1; a bounded marker gives an indirect connection with the
    bounds written in it, 0 for a missing low bound, -1 for a missing high
    bound, both bounds equal for a single number, and the direct connection
    first exactly when the low bound is 0. *)
Theorem quantifier_descriptors (ST : symbols) (r : string) :
  symbols_ok ST = true ->
  no_symbols ST r = true ->
  label_controller ST (r ++ String (sym_one_or_more ST) EmptyString)
  = Ok (quantified 1 (-1) false)
  /\ label_controller ST (r ++ String (sym_zero_or_more ST) EmptyString)
     = Ok (quantified 0 (-1) true)
  /\ label_controller ST (r ++ String (sym_zero_or_one ST) EmptyString)
     = Ok (quantified 0 1 true)
  /\ (forall lo hi : string,
        digits lo = true -> digits hi = true ->
        label_controller ST (r ++ braces ST (lo ++ String "-" hi))
        = Ok (quantified (bound_of 0 lo) (bound_of (-1) hi)
                (bound_of 0 lo =? 0)))
  /\ (forall n : string,
        digits n = true -> n <> EmptyString ->
        label_controller ST (r ++ braces ST n)
        = Ok (quantified (bound_of 0 n) (bound_of 0 n) (bound_of 0 n =? 0))).
Proof.
  intros Hok Hr.
  destruct (symbols_ok_braces ST Hok) as [Hed Hedash].
  repeat split.
  - rewrite (label_controller_eq ST _ [String (sym_one_or_more ST) ""]).
    + unfold define_skipping_properties, define_skipping_loop,
        define_skipping_step.
      rewrite_symbols Hok.
      reflexivity.
    + apply app_not_empty.
    + apply parse_metacharacters_symbol; [done| |].
      * apply in_values_In. cbn. tauto.
      * symbols_differ Hok.
  - rewrite (label_controller_eq ST _ [String (sym_zero_or_more ST) ""]).
    + unfold define_skipping_properties, define_skipping_loop,
        define_skipping_step.
      rewrite_symbols Hok.
      reflexivity.
    + apply app_not_empty.
    + apply parse_metacharacters_symbol; [done| |].
      * apply in_values_In. cbn. tauto.
      * symbols_differ Hok.
  - rewrite (label_controller_eq ST _ [String (sym_zero_or_one ST) ""]).
    + unfold define_skipping_properties, define_skipping_loop,
        define_skipping_step.
      rewrite_symbols Hok.
      reflexivity.
    + apply app_not_empty.
    + apply parse_metacharacters_symbol; [done| |].
      * apply in_values_In. cbn. tauto.
      * symbols_differ Hok.
  - intros lo hi Hlo Hhi.
    rewrite (label_controller_eq ST _ [braces ST (lo ++ String "-" hi)]).
    + unfold define_skipping_properties, define_skipping_loop,
        define_skipping_step.
      rewrite decode_repeat_symbol_range by done.
      unfold braces. rewrite !marker_not_symbol.
      cbn [Py.mem_char]. rewrite Ascii.eqb_refl. reflexivity.
    + apply app_not_empty.
    + apply parse_metacharacters_braces; [done| |].
      * symbols_differ Hok.
      * rewrite mem_char_app. cbn [Py.mem_char].
        rewrite !digits_no_char by done.
        apply Ascii.eqb_neq in Hedash. by rewrite Hedash.
  - intros n Hn Hne.
    rewrite (label_controller_eq ST _ [braces ST n]).
    + unfold define_skipping_properties, define_skipping_loop,
        define_skipping_step.
      rewrite decode_repeat_symbol_single by done.
      unfold braces. rewrite !marker_not_symbol.
      cbn [Py.mem_char]. rewrite Ascii.eqb_refl. reflexivity.
    + apply app_not_empty.
    + apply parse_metacharacters_braces; [done| |].
      * symbols_differ Hok.
      * by apply digits_no_char.
Qed.

Lemma quantifier_descriptors_witness :
  label_controller default_symbols "c+" = Ok (quantified 1 (-1) false)
  /\ label_controller default_symbols "c*" = Ok (quantified 0 (-1) true)
  /\ label_controller default_symbols "c?" = Ok (quantified 0 1 true)
  /\ label_controller default_symbols "c{2-5}" = Ok (quantified 2 5 false)
  /\ label_controller default_symbols "c{-5}" = Ok (quantified 0 5 true)
  /\ label_controller default_symbols "c{2-}" = Ok (quantified 2 (-1) false)
  /\ label_controller default_symbols "c{3}" = Ok (quantified 3 3 false).
Proof.
  destruct (quantifier_descriptors default_symbols "c" eq_refl eq_refl)
    as (H1 & H2 & H3 & H4 & H5).
  split; [exact H1|]. split; [exact H2|]. split; [exact H3|].
  split; [exact (H4 "2" "5" eq_refl eq_refl)|].
  split; [exact (H4 "" "5" eq_refl eq_refl)|].
  split; [exact (H4 "2" "" eq_refl eq_refl)|].
  refine (H5 "3" eq_refl _). discriminate.
Defined.

(** ** A search whose pattern does not compile *)

Lemma find_match_compile_error ST SET pyeval T (self : loc) maxhits strat
    (h h2 h3 : heap) (clone : loc) (e : exn) :
  deepcopy self h = (h2, clone) ->
  set_controllers ST SET (ptraverse h2 clone) false h2 = (Exc e, h3) ->
  find_match ST SET pyeval T self maxhits strat h
  = ({| yielded := []; ending := Exc e |}, h3).
Proof. intros Hd Hs. unfold find_match. by rewrite Hd, Hs. Qed.

(** ** Exceptions of the constraint evaluator *)

Lemma get_obj_Some (h : heap) (l : loc) (o : pobj) :
  h !! l = Some o -> get_obj l h = (Ret o, h).
Proof. intros H. unfold get_obj. by rewrite H. Qed.

Lemma get_controller_Some (h : heap) (l : loc) (o : pobj) (c : controller) :
  h !! l = Some o -> p_controller o = Some c ->
  get_controller l h = (Ret c, h).
Proof.
  intros Ho Hc. unfold get_controller, bind.
  by rewrite (get_obj_Some h l o), Hc.
Qed.

Lemma get_children_Some (h : heap) (l : loc) (o : pobj) :
  h !! l = Some o -> get_children l h = (Ret (p_children o), h).
Proof. intros Ho. unfold get_children, bind. by rewrite (get_obj_Some h l o). Qed.

Lemma is_leaf_Some (h : heap) (l : loc) (o : pobj) :
  h !! l = Some o ->
  is_leaf l h = (Ret (match p_children o with [] => true | _ => false end), h).
Proof. intros Ho. unfold is_leaf, bind. by rewrite (get_children_Some h l o). Qed.

Lemma is_local_match_raises pyeval T (self : loc) (x : tnode) (h : heap)
    (o : pobj) (c : controller) (e : exn) :
  h !! self = Some o ->
  p_controller o = Some c ->
  eval_constraints pyeval T (p_syntax o) (local_constraints (p_name o) c) x true
  = Raise e ->
  e = ValueError \/ e = AttributeError \/ e = IndexError ->
  is_local_match pyeval T self x h = (Exc ValueError, h).
Proof.
  intros Ho Hc He Hk. unfold is_local_match, bind.
  rewrite (get_obj_Some h self o), (get_controller_Some h self o c) by done.
  rewrite He. by destruct Hk as [->|[->| ->]].
Qed.

Lemma match_fuel_local_raises pyeval T (fuel : nat) (self : loc) (x : tnode)
    (h h' : heap) (o : pobj) (c : controller) (e : exn) :
  h !! self = Some o ->
  p_controller o = Some c ->
  is_local_match pyeval T (tested_node o c self) x h = (Exc e, h') ->
  match_fuel pyeval T (S fuel) self x h = (Exc e, h').
Proof.
  intros Ho Hc He. cbn [match_fuel]. unfold match_body, match_node, bind.
  rewrite (get_controller_Some h self o c), (is_leaf_Some h self o) by done.
  unfold tested_node in He.
  destruct (c_direct_connection_first c), (p_children o) as [|k ks] eqn:Ek;
    cbn [andb negb]; unfold ret; cbv beta iota.
  - by rewrite He.
  - unfold bind. rewrite (get_children_Some h self o), Ek by done.
    cbn [index lookup list_lookup]. unfold ret. by rewrite He.
  - by rewrite He.
  - by rewrite He.
Qed.

Lemma search_loop_raises pyeval T (pattern : loc) (maxhits : option Z)
    (x : tnode) (rest : list tnode) (n : Z) (h h' : heap) (e : exn) :
  match_ pyeval T pattern x h = (Exc e, h') ->
  search_loop pyeval T pattern maxhits (x :: rest) n h
  = ({| yielded := []; ending := Exc e |}, h').
Proof. intros H. cbn [search_loop]. by rewrite H. Qed.

(** ** Failing constraints: no handler between the evaluator and the caller *)

Lemma or_raises_refl {A : Type} (m : M A) : or_raises m m.
Proof. intros h. by left. Qed.

Lemma or_raises_bind {A B : Type} (m m' : M A) (k k' : A -> M B) :
  or_raises m m' ->
  (forall a, or_raises (k a) (k' a)) ->
  or_raises (bind m k) (bind m' k').
Proof.
  intros Hm Hk h. unfold bind. destruct (Hm h) as [->|(e & h' & ->)].
  - destruct (m h) as [[a|e|] h']; [apply Hk|by left..].
  - right. by eexists _, _.
Qed.

(** One step through a method that both runs share. *)
Ltac or_raises_step :=
  match goal with
  | |- or_raises ?m ?m => apply or_raises_refl
  | |- or_raises (bind _ _) (bind _ _) => apply or_raises_bind; [|intros ?]
  | |- or_raises (if ?b then _ else _) (if ?b then _ else _) => destruct b
  | |- or_raises (match ?x with _ => _ end) (match ?x with _ => _ end) =>
      destruct x
  | |- or_raises _ _ => progress cbv zeta
  end.

Section AddedFailures.

Variables pyeval pyeval'
  : tree -> syntax -> string -> list (string * path) -> res bool.
Variable T : tree.
Hypothesis Hadd : adds_failures pyeval pyeval'.

Lemma eval_constraint_added (syn : syntax) (constraint : string) (x : tnode)
    (best : option tnode) :
  eval_constraint pyeval' T syn constraint x best
  = eval_constraint pyeval T syn constraint x best
  \/ exists e,
       eval_constraint pyeval' T syn constraint x best = Raise e
       /\ (e = NameError ->
           forall syn', exists e',
             eval_constraint pyeval' T syn' constraint x best = Raise e').
Proof.
  unfold eval_constraint.
  destruct (String.eqb constraint "__target_node.is_root()"); [by left|].
  destruct (String.eqb constraint "__target_node.is_leaf()"); [by left|].
  destruct (name_test constraint); [by left|].
  apply Hadd.
Qed.

Lemma eval_constraints_added (syn : syntax) (constraints : list string)
    (x : tnode) :
  forall st,
    eval_constraints pyeval' T syn constraints x st
    = eval_constraints pyeval T syn constraints x st
    \/ exists e,
         eval_constraints pyeval' T syn constraints x st = Raise e
         /\ (e = NameError ->
             forall syn' st', exists e',
               eval_constraints pyeval' T syn' constraints x st' = Raise e').
Proof.
  induction constraints as [|c cs IH]; intros st; [by left|].
  destruct c as [|a c].
  { destruct (IH st) as [E|(e & E & Hn)]; [by left|].
    right. exists e. split; [done|]. intros He syn' st'.
    apply (Hn He syn' st'). }
  cbn [eval_constraints].
  assert (Hrest : forall e v,
             eval_constraints pyeval' T syn cs x (st && v) = Raise e ->
             (e = NameError ->
              forall syn' st', exists e',
                eval_constraints pyeval' T syn' cs x st' = Raise e') ->
             e = NameError ->
             forall syn' st', exists e',
               res_bind (eval_constraint pyeval' T syn' (String a c) x None)
                 (fun v => eval_constraints pyeval' T syn' cs x (st' && v))
               = Raise e').
  { intros e v _ Hn He syn' st'.
    destruct (eval_constraint pyeval' T syn' (String a c) x None) as [v'|e'];
      cbn [res_bind]; [|by eexists].
    apply (Hn He). }
  destruct (eval_constraint_added syn (String a c) x None)
    as [E|(e & E & Hn)].
  - rewrite E.
    destruct (eval_constraint pyeval T syn (String a c) x None) as [v|e] eqn:Ev;
      cbn [res_bind]; [|by left].
    destruct (IH (st && v)) as [E'|(e & E' & Hn)]; [by left|].
    right. exists e. split; [done|]. by apply (Hrest e v).
  - rewrite E. cbn [res_bind]. right. exists e. split; [done|].
    intros He syn' st'. destruct (Hn He syn') as [e' ->]. by exists e'.
Qed.

Lemma or_raises_is_local_match (self : loc) (x : tnode) :
  or_raises (is_local_match pyeval T self x) (is_local_match pyeval' T self x).
Proof.
  unfold is_local_match.
  apply or_raises_bind; [apply or_raises_refl|]. intros o.
  apply or_raises_bind; [apply or_raises_refl|]. intros c. cbv zeta.
  intros h.
  destruct (eval_constraints_added (p_syntax o)
              (local_constraints (p_name o) c) x true) as [E|(e & E & Hn)].
  - rewrite E.
    destruct (eval_constraints pyeval T (p_syntax o)
                (local_constraints (p_name o) c) x true) as [st|e];
      [by left|].
    destruct e; try by left.
    destruct (h !! get_tree_root h self) as [root|]; [|by left].
    destruct (eval_constraints_added (p_syntax root)
                (local_constraints (p_name o) c) x true) as [E'|(e & E' & _)].
    + rewrite E'. by left.
    + rewrite E'. right. by eexists _, _.
  - rewrite E. right.
    destruct e; try (by eexists _, _).
    destruct (h !! get_tree_root h self) as [root|]; [|by eexists _, _].
    destruct (Hn eq_refl (p_syntax root) true) as [e' ->]. by eexists _, _.
Qed.

Lemma or_raises_match_node (self : loc) (node : tnode) :
  or_raises (match_node pyeval T self node) (match_node pyeval' T self node).
Proof.
  unfold match_node.
  repeat first [apply or_raises_is_local_match | or_raises_step].
Qed.

Section Loops.

Variables rec rec' : loc -> tnode -> M bool.
Hypothesis Hrec : forall l y, or_raises (rec l y) (rec' l y).

Lemma or_raises_while_loop (fuel : nat) :
  forall self candidate i j v,
    or_raises (while_loop rec fuel self candidate i j v)
      (while_loop rec' fuel self candidate i j v).
Proof.
  induction fuel as [|fuel IH]; intros self candidate i j v;
    cbn [while_loop]; [apply or_raises_refl|].
  repeat first [apply IH | apply Hrec | or_raises_step].
Qed.

Lemma or_raises_candidates_loop (self : loc) (candidates : list (list tnode)) :
  forall v,
    or_raises (candidates_loop rec self candidates v)
      (candidates_loop rec' self candidates v).
Proof.
  induction candidates as [|candidate rest IH]; intros v;
    cbn [candidates_loop]; [apply or_raises_refl|].
  repeat first [apply IH | apply or_raises_while_loop | or_raises_step].
Qed.

Lemma or_raises_nodes_loop (self : loc) (nodes : list tnode) :
  forall st,
    or_raises (nodes_loop rec self nodes st) (nodes_loop rec' self nodes st).
Proof.
  induction nodes as [|node rest IH]; intros st;
    cbn [nodes_loop]; [apply or_raises_refl|].
  repeat first [apply IH | apply or_raises_candidates_loop | or_raises_step].
Qed.

Lemma or_raises_match_children (self : loc) (node : tnode) (st : bool) :
  or_raises (match_children T rec self node st)
    (match_children T rec' self node st).
Proof.
  unfold match_children.
  repeat first [apply or_raises_nodes_loop | or_raises_step].
Qed.

Lemma or_raises_match_body (self : loc) (node : tnode) :
  or_raises (match_body pyeval T rec self node)
    (match_body pyeval' T rec' self node).
Proof.
  unfold match_body.
  apply or_raises_bind; [apply or_raises_match_node|]. intros [st l].
  apply or_raises_match_children.
Qed.

End Loops.

Lemma or_raises_match_fuel (fuel : nat) :
  forall l y,
    or_raises (match_fuel pyeval T fuel l y) (match_fuel pyeval' T fuel l y).
Proof.
  induction fuel as [|fuel IH]; intros l y; cbn [match_fuel];
    [apply or_raises_refl|].
  by apply or_raises_match_body.
Qed.

Lemma or_raises_match (l : loc) (y : tnode) :
  or_raises (match_ pyeval T l y) (match_ pyeval' T l y).
Proof. apply or_raises_match_fuel. Qed.

Lemma or_raises_collect_loop (pattern : loc) (nodes : list tnode) :
  forall matched_nodes,
    or_raises (collect_loop pyeval T pattern nodes matched_nodes)
      (collect_loop pyeval' T pattern nodes matched_nodes).
Proof.
  induction nodes as [|node rest IH]; intros matched_nodes;
    cbn [collect_loop]; [apply or_raises_refl|].
  apply or_raises_bind; [apply or_raises_match|]. intros b. apply IH.
Qed.

Lemma or_raises_extreme_loop SET (self pattern : loc)
    (match_list : list tnode) :
  forall correct_node,
    or_raises (extreme_loop SET pyeval T self pattern match_list correct_node)
      (extreme_loop SET pyeval' T self pattern match_list correct_node).
Proof.
  induction match_list as [|node rest IH]; intros correct_node;
    cbn [extreme_loop]; [apply or_raises_refl|].
  apply or_raises_bind; [apply or_raises_refl|]. intros c.
  apply or_raises_bind; [apply or_raises_refl|]. intros constraint.
  apply or_raises_bind; [apply or_raises_refl|]. intros o. cbv zeta.
  set (text := Py.replace (set_all_nodes SET) "__correct_node"
                 (Py.replace "@" "__target_node" constraint)).
  intros h.
  destruct (eval_constraint_added (p_syntax o) text node (Some correct_node))
    as [E|(e & E & Hn)].
  - rewrite E.
    destruct (eval_constraint pyeval T (p_syntax o) text node
                (Some correct_node)) as [st|e]; [apply IH|].
    destruct e; try by left.
    destruct (h !! get_tree_root h self) as [root|]; [|by left].
    destruct (eval_constraint_added (p_syntax root) text node
                (Some correct_node)) as [E'|(e & E' & _)].
    + rewrite E'.
      destruct (eval_constraint pyeval T (p_syntax root) text node
                  (Some correct_node)) as [st|e]; [apply IH|by left].
    + rewrite E'. right. by eexists _, _.
  - rewrite E. right.
    destruct e; try (by eexists _, _).
    destruct (h !! get_tree_root h self) as [root|]; [|by eexists _, _].
    destruct (Hn eq_refl (p_syntax root)) as [e' ->]. by eexists _, _.
Qed.

Lemma or_raises_find_extreme_case SET (self : loc) (match_list : list tnode) :
  or_raises (find_extreme_case SET pyeval T self match_list)
    (find_extreme_case SET pyeval' T self match_list).
Proof.
  unfold find_extreme_case.
  repeat first [apply or_raises_extreme_loop | or_raises_step].
Qed.

(** The loop of an ordinary pattern: with the failures added it runs as
    before, or it ends with an exception after it has yielded some of the
    nodes it yielded before, in the same order. *)
Lemma search_loop_added (pattern : loc) (maxhits : option Z)
    (nodes : list tnode) :
  forall (n : Z) (h : heap),
    search_loop pyeval' T pattern maxhits nodes n h
    = search_loop pyeval T pattern maxhits nodes n h
    \/ exists e,
         ending (fst (search_loop pyeval' T pattern maxhits nodes n h)) = Exc e
         /\ yielded (fst (search_loop pyeval' T pattern maxhits nodes n h))
              `prefix_of`
            yielded (fst (search_loop pyeval T pattern maxhits nodes n h)).
Proof.
  induction nodes as [|node rest IH]; intros n h; [by left|].
  cbn [search_loop].
  destruct (or_raises_match pattern node h) as [->|(e & h' & ->)].
  2:{ right. exists e. split; [done|]. apply prefix_nil. }
  destruct (match_ pyeval T pattern node h) as [[b|e|] h']; [|by left..].
  set (n' := if b then n + 1 else n).
  destruct (match maxhits with Some k => k <=? n' | None => false end);
    [by left|].
  destruct (IH n' h') as [->|(e & He & Hp)]; [by left|].
  right. exists e.
  destruct (search_loop pyeval' T pattern maxhits rest n' h') as [s1 h1].
  destruct (search_loop pyeval T pattern maxhits rest n' h') as [s2 h2].
  cbn [fst yielded ending] in *. split; [done|].
  destruct b; [by apply prefix_cons|done].
Qed.

Lemma find_match_added ST SET (self : loc) (maxhits : option Z)
    (strat : strategy) (h : heap) :
  find_match ST SET pyeval' T self maxhits strat h
  = find_match ST SET pyeval T self maxhits strat h
  \/ exists e,
       ending (fst (find_match ST SET pyeval' T self maxhits strat h)) = Exc e
       /\ yielded (fst (find_match ST SET pyeval' T self maxhits strat h))
            `prefix_of`
          yielded (fst (find_match ST SET pyeval T self maxhits strat h)).
Proof.
  unfold find_match. destruct (deepcopy self h) as [h1 p].
  destruct (set_controllers ST SET (ptraverse h1 p) false h1)
    as [[single|e|] h2]; [|by left..].
  destruct single; [|apply search_loop_added].
  assert (Hs : or_raises
                 (matched_nodes <-
                    collect_loop pyeval T p (traverse strat ([], T)) [] ;;
                  find_extreme_case SET pyeval T p matched_nodes)
                 (matched_nodes <-
                    collect_loop pyeval' T p (traverse strat ([], T)) [] ;;
                  find_extreme_case SET pyeval' T p matched_nodes)).
  { apply or_raises_bind; [apply or_raises_collect_loop|].
    intros ms. apply or_raises_find_extreme_case. }
  destruct (Hs h2) as [->|(e & h' & ->)]; [by left|].
  right. exists e. split; [done|]. apply prefix_nil.
Qed.

End AddedFailures.

(** C5, as the code has it: a constraint whose evaluation fails is never
    turned into a failed match.  [is_local_match] raises: a [ValueError] for
    a [ValueError], an [AttributeError] or an [IndexError] of the evaluation,
    and after a [NameError] whatever the second evaluation, in the scope of
    the syntax of the root, raises.  Neither [match] nor [find_match] has a
    handler, at any depth of the pattern: when evaluations fail that gave a
    value before, [match] and the search run exactly as before (the failing
    evaluations are not reached) or they end with an exception, and the
    search has then yielded only nodes it yielded before, in the same order,
    and visits no further node of the target. *)
Theorem failing_predicate_ends_search pyeval pyeval' T :
  adds_failures pyeval pyeval' ->
  (forall (self : loc) (x : tnode) (h : heap) (o : pobj) (c : controller)
          (e : exn),
      h !! self = Some o ->
      p_controller o = Some c ->
      eval_constraints pyeval' T (p_syntax o)
        (local_constraints (p_name o) c) x true = Raise e ->
      (e = ValueError \/ e = AttributeError \/ e = IndexError ->
       is_local_match pyeval' T self x h = (Exc ValueError, h))
      /\ (forall (root : pobj) (e' : exn),
            e = NameError ->
            h !! get_tree_root h self = Some root ->
            eval_constraints pyeval' T (p_syntax root)
              (local_constraints (p_name o) c) x true = Raise e' ->
            is_local_match pyeval' T self x h = (Exc e', h)))
  /\ (forall (self : loc) (x : tnode) (h : heap),
        match_ pyeval' T self x h = match_ pyeval T self x h
        \/ exists e h', match_ pyeval' T self x h = (Exc e, h'))
  /\ (forall ST SET (self : loc) (maxhits : option Z) (strat : strategy)
             (h : heap),
        let s := fst (find_match ST SET pyeval T self maxhits strat h) in
        let s' := fst (find_match ST SET pyeval' T self maxhits strat h) in
        s' = s
        \/ exists e, ending s' = Exc e /\ yielded s' `prefix_of` yielded s).
Proof.
  intros Hadd. split; [|split].
  - intros self x h o c e Ho Hc He. split.
    + by apply (is_local_match_raises pyeval' T self x h o c e).
    + intros root e' -> Hroot He'. unfold is_local_match, bind.
      rewrite (get_obj_Some h self o), (get_controller_Some h self o c) by done.
      by rewrite He, Hroot, He'.
  - intros self x h. by apply or_raises_match.
  - intros ST SET self maxhits strat h. cbv zeta.
    destruct (find_match_added pyeval pyeval' T Hadd ST SET self maxhits
                strat h) as [->|H]; [by left|by right].
Qed.

Lemma failing_predicate_ends_search_witness :
  adds_failures quiet_oracle raising_oracle
  /\ is_local_match raising_oracle two_a_target 0%nat
       ([0%nat; 0%nat], Node "u" []) [compiled "@.x" default_controller]
     = (Exc ValueError, [compiled "@.x" default_controller])
  /\ (let '(h, p) := TreePattern_init DefaultSyntax attribute_pattern [] in
      let s := fst (find_match default_symbols sample_sets quiet_oracle
                      two_a_target p None preorder h) in
      let s' := fst (find_match default_symbols sample_sets raising_oracle
                       two_a_target p None preorder h) in
      s' = s
      \/ exists e, ending s' = Exc e /\ yielded s' `prefix_of` yielded s).
Proof.
  assert (Hadd : adds_failures quiet_oracle raising_oracle).
  { intros T syn constraint env. unfold quiet_oracle, raising_oracle.
    destruct env as [|[n p] env]; [by left|].
    destruct p as [|[|a] [|[|b] [|d p]]]; try (by left).
    right. exists AttributeError. split; [reflexivity|discriminate]. }
  split; [exact Hadd|].
  destruct (failing_predicate_ends_search quiet_oracle raising_oracle
              two_a_target Hadd) as (H1 & _ & H3).
  split.
  - apply (proj1 (H1 0%nat ([0%nat; 0%nat], Node "u" [])
                     [compiled "@.x" default_controller]
                     (compiled "@.x" default_controller) default_controller
                     AttributeError eq_refl eq_refl eq_refl)).
    tauto.
  - exact (H3 default_symbols sample_sets 0%nat None preorder
             (fst (TreePattern_init DefaultSyntax attribute_pattern []))).
Defined.

(** C5, as the claim has it, fails.  The constraint of the child of the
    pattern raises on the child of the first node named [a]: the search ends
    there with a [ValueError] and yields nothing, although the second node
    named [a] matches, as the search with the attribute false instead of
    missing shows. *)
Lemma predicate_failure_counterexample :
  let '(h, p) := TreePattern_init DefaultSyntax attribute_pattern [] in
  fst (find_match default_symbols sample_sets raising_oracle two_a_target p
         None preorder h)
  = {| yielded := []; ending := Exc ValueError |}
  /\ fst (find_match default_symbols sample_sets quiet_oracle two_a_target p
            None preorder h)
     = {| yielded := [([1%nat], Node "a" [Node "v" []])]; ending := Ret tt |}.
Proof. vm_compute. done. Qed.

(** ** The bound on the number of hits *)

Lemma search_loop_prefix pyeval T (pattern : loc) (k : Z) (nodes : list tnode) :
  forall (n : Z) (h : heap),
    n < k ->
    yielded (fst (search_loop pyeval T pattern (Some k) nodes n h))
    = take (Z.to_nat (k - n))
        (yielded (fst (search_loop pyeval T pattern None nodes n h))).
Proof.
  induction nodes as [|node rest IH]; intros n h Hn.
  - cbn. by rewrite take_nil.
  - cbn [search_loop].
    destruct (match_ pyeval T pattern node h) as [[b|e|] h'];
      [|cbn; by rewrite take_nil..].
    destruct b.
    + destruct (search_loop pyeval T pattern None rest (n + 1) h')
        as [s1 h1] eqn:E1.
      destruct (Z.leb_spec k (n + 1)) as [Hk|Hk]; cbn [fst yielded].
      * replace (Z.to_nat (k - n)) with 1%nat by lia. done.
      * specialize (IH (n + 1) h' Hk). rewrite E1 in IH. cbn [fst] in IH.
        destruct (search_loop pyeval T pattern (Some k) rest (n + 1) h')
          as [s2 h2].
        cbn [fst yielded] in *. rewrite IH.
        replace (Z.to_nat (k - n)) with (S (Z.to_nat (k - (n + 1)))) by lia.
        done.
    + destruct (search_loop pyeval T pattern None rest n h') as [s1 h1] eqn:E1.
      destruct (Z.leb_spec k n) as [Hk|Hk]; [lia|].
      specialize (IH n h' Hn). rewrite E1 in IH. cbn [fst] in IH.
      destruct (search_loop pyeval T pattern (Some k) rest n h') as [s2 h2].
      cbn [fst yielded] in *. done.
Qed.

(** ** The bound on the number of hits: where the search stops *)

(** With a bound of at least 1 the loop is the unbounded loop over the start
    of the traversal that ends with the hit that reaches the bound, or over
    the whole traversal when the bound is not reached. *)
Lemma search_loop_stops pyeval T (pattern : loc) (k : Z) (nodes : list tnode) :
  forall (n : Z) (h : heap),
    n < k ->
    exists pre,
      pre `prefix_of` nodes
      /\ search_loop pyeval T pattern (Some k) nodes n h
         = search_loop pyeval T pattern None pre n h
      /\ (pre = nodes
          \/ (Z.of_nat
                (length (yielded (fst (search_loop pyeval T pattern None pre n h))))
              = k - n
              /\ exists x,
                   last pre = Some x
                   /\ last (yielded
                              (fst (search_loop pyeval T pattern None pre n h)))
                      = Some x)).
Proof.
  induction nodes as [|node rest IH]; intros n h Hn.
  { exists []. split; [done|]. split; [done|]. by left. }
  cbn [search_loop].
  destruct (match_ pyeval T pattern node h) as [[b|e|] h'] eqn:Em.
  2,3: exists (node :: rest); split; [done|];
       (split; [cbn [search_loop]; by rewrite Em|by left]).
  set (n' := if b then n + 1 else n).
  destruct (Z.leb_spec k n') as [Hk|Hk].
  - assert (b = true /\ k = n + 1) as [-> ->] by (destruct b; subst n'; lia).
    exists [node]. split; [by apply prefix_cons, prefix_nil|].
    cbn [search_loop]. rewrite Em. cbn [fst yielded length last].
    split; [done|]. right. split; [lia|]. by exists node.
  - destruct (IH n' h' Hk) as (pre & Hpre & E & Hlast).
    exists (node :: pre). split; [by apply prefix_cons|].
    cbn [search_loop]. rewrite Em, E. fold n'.
    split; [done|].
    destruct Hlast as [->|(Hlen & x & Hx & Hy)]; [by left|]. right.
    destruct (search_loop pyeval T pattern None pre n' h') as [s h''].
    cbn [fst yielded] in *.
    split.
    + destruct b; subst n'; cbn [length]; lia.
    + exists x. split.
      * destruct pre; [done|exact Hx].
      * destruct b; [|done]. destruct (yielded s); [done|exact Hy].
Qed.

(** C8: the bound on the hits is tested after the node is yielded.  For a
    pattern that is no single match pattern: with a bound of at least 1 the
    search is the unbounded search over the start of the traversal that ends
    with the hit that reaches the bound, so it yields the first [k] nodes of
    the unbounded search and matches no node after the last of them; with a
    bound that is not positive the search still matches the first node of the
    traversal, and yields it when it matches, before it stops. *)
Theorem maxhits_is_tested_after_the_yield ST SET pyeval T (self : loc)
    (strat : strategy) (h h1 h2 : heap) (p : loc) (k : Z) :
  deepcopy self h = (h1, p) ->
  set_controllers ST SET (ptraverse h1 p) false h1 = (Ret false, h2) ->
  let nodes := traverse strat ([], T) in
  (k <= 0 ->
   forall (x : tnode) (rest : list tnode) (b : bool) (h3 : heap),
     nodes = x :: rest ->
     match_ pyeval T p x h2 = (Ret b, h3) ->
     find_match ST SET pyeval T self (Some k) strat h
     = ({| yielded := if b then [x] else []; ending := Ret tt |}, h3))
  /\ (1 <= k ->
      yielded (fst (find_match ST SET pyeval T self (Some k) strat h))
      = take (Z.to_nat k)
          (yielded (fst (find_match ST SET pyeval T self None strat h)))
      /\ exists pre,
           pre `prefix_of` nodes
           /\ find_match ST SET pyeval T self (Some k) strat h
              = search_loop pyeval T p None pre 0 h2
           /\ (pre = nodes
               \/ (length (yielded (fst (search_loop pyeval T p None pre 0 h2)))
                   = Z.to_nat k
                   /\ exists x,
                        last pre = Some x
                        /\ last (yielded
                                   (fst (search_loop pyeval T p None pre 0 h2)))
                           = Some x))).
Proof.
  intros Hd Hs nodes. split.
  - intros Hk x rest b h3 Hnodes Hm. unfold find_match.
    rewrite Hd, Hs. fold nodes. rewrite Hnodes. cbn [search_loop]. rewrite Hm.
    assert (E : (k <=? (if b then 0 + 1 else 0)) = true)
      by (apply Z.leb_le; destruct b; lia).
    rewrite E. by destruct b.
  - intros Hk. split.
    + unfold find_match. rewrite Hd, Hs.
      rewrite search_loop_prefix by lia. by rewrite Z.sub_0_r.
    + destruct (search_loop_stops pyeval T p k nodes 0 h2)
        as (pre & Hpre & E & Hlast); [lia|].
      exists pre. split; [done|]. split.
      * unfold find_match. by rewrite Hd, Hs.
      * destruct Hlast as [->|(Hlen & Hx)]; [by left|]. right.
        split; [lia|done].
Qed.

Lemma maxhits_is_tested_after_the_yield_witness :
  let T := Node "a" [Node "a" []] in
  let '(h, p) := TreePattern_init DefaultSyntax single_node_pattern [] in
  fst (find_match default_symbols sample_sets no_oracle T p (Some 0) preorder h)
  = {| yielded := [([], T)]; ending := Ret tt |}
  /\ yielded (fst (find_match default_symbols sample_sets no_oracle T p (Some 1)
                     preorder h))
     = take 1
         (yielded (fst (find_match default_symbols sample_sets no_oracle T p
                          None preorder h))).
Proof.
  cbv zeta.
  change (TreePattern_init DefaultSyntax single_node_pattern [])
    with ([fresh_obj "a" [] None DefaultSyntax], 0%nat).
  cbv beta iota.
  pose (h2 := [ fresh_obj "a" [] None DefaultSyntax;
                compiled ("@.name == " ++ Py.quoted "a") default_controller ]).
  split.
  - refine (f_equal fst
              (proj1 (maxhits_is_tested_after_the_yield default_symbols
                        sample_sets no_oracle (Node "a" [Node "a" []]) 0%nat
                        preorder [fresh_obj "a" [] None DefaultSyntax]
                        [ fresh_obj "a" [] None DefaultSyntax;
                          fresh_obj "a" [] None DefaultSyntax ]
                        h2 1%nat 0 eq_refl eq_refl)
                 (Z.le_refl 0) ([], Node "a" [Node "a" []])
                 [([0%nat], Node "a" [])] true h2 eq_refl eq_refl)).
  - exact (proj1
             (proj2 (maxhits_is_tested_after_the_yield default_symbols
                       sample_sets no_oracle (Node "a" [Node "a" []]) 0%nat
                       preorder [fresh_obj "a" [] None DefaultSyntax]
                       [ fresh_obj "a" [] None DefaultSyntax;
                         fresh_obj "a" [] None DefaultSyntax ]
                       h2 1%nat 1 eq_refl eq_refl)
                (Z.le_refl 1))).
Defined.

(** C8, on a target with two nodes that match: without a bound both are
    yielded, with the bounds 1 and 2 the first one and both, and with the
    bounds 0 and -1 the first one again, where no match was asked for. *)
Lemma maxhits_zero_yields_a_hit :
  let T := Node "a" [Node "a" []] in
  let '(h, p) := TreePattern_init DefaultSyntax single_node_pattern [] in
  let found maxhits :=
    yielded (fst (find_match default_symbols sample_sets no_oracle T p maxhits
                    preorder h)) in
  found None = [([], T); ([0%nat], Node "a" [])]
  /\ found (Some 2) = [([], T); ([0%nat], Node "a" [])]
  /\ found (Some 1) = [([], T)]
  /\ found (Some 0) = [([], T)]
  /\ found (Some (-1)) = [([], T)].
Proof. vm_compute. done. Qed.

(** ** Single match patterns *)

(** A single match pattern yields at most one node. *)
Lemma single_match_at_most_one ST SET pyeval T (self : loc)
    (maxhits : option Z) (strat : strategy) (h h1 h2 : heap) (p : loc) :
  deepcopy self h = (h1, p) ->
  set_controllers ST SET (ptraverse h1 p) false h1 = (Ret true, h2) ->
  (length (yielded (fst (find_match ST SET pyeval T self maxhits strat h)))
   <= 1)%nat.
Proof.
  intros Hd Hs. unfold find_match. rewrite Hd, Hs.
  destruct (bind _ _ h2) as [[node|e|] h3]; cbn; lia.
Qed.

(** Without a candidate, [find_extreme_case] fails on [match_list[0]]. *)
Lemma find_extreme_case_nil SET pyeval T (self : loc) (h h' : heap)
    (pattern : option loc) :
  single_match_node (ptraverse h self) None h = (Ret pattern, h') ->
  find_extreme_case SET pyeval T self [] h = (Exc IndexError, h').
Proof. intros H. unfold find_extreme_case, bind. by rewrite H. Qed.

(** What [extreme_loop] returns is the initial best node or a candidate. *)
Lemma extreme_loop_returns SET pyeval T (self pattern : loc)
    (match_list : list tnode) :
  forall (correct_node node : tnode) (h h' : heap),
    extreme_loop SET pyeval T self pattern match_list correct_node h
    = (Ret node, h') ->
    node = correct_node \/ node ∈ match_list.
Proof.
  induction match_list as [|x rest IH]; intros best node h h' H.
  - cbn in H. left. by injection H.
  - cbn [extreme_loop] in H. unfold bind in H.
    destruct (get_controller pattern h) as [[c|e|] h1]; [|done..].
    destruct (c_single_match_contstraint c) as [s|]; [|done].
    cbn [ret] in H. unfold ret in H.
    destruct (get_obj self h1) as [[o|e|] h2]; [|done..].
    destruct (eval_constraint pyeval T (p_syntax o) _ x (Some best))
      as [st|[]] eqn:E; try done.
    + apply IH in H as [->|Hin]; [destruct st|];
        rewrite elem_of_cons; auto.
    + destruct (h2 !! get_tree_root h2 self) as [root|]; [|done].
      destruct (eval_constraint pyeval T (p_syntax root) _ x (Some best))
        as [st|e]; [|done].
      apply IH in H as [->|Hin]; [destruct st|];
        rewrite elem_of_cons; auto.
Qed.

(** When [find_extreme_case] returns, it returns one of the candidates. *)
Lemma find_extreme_case_returns SET pyeval T (self : loc)
    (match_list : list tnode) (node : tnode) (h h' : heap) :
  find_extreme_case SET pyeval T self match_list h = (Ret node, h') ->
  node ∈ match_list.
Proof.
  unfold find_extreme_case, bind. intros H.
  destruct (single_match_node _ None h) as [[pattern|e|] h1]; [|done..].
  destruct match_list as [|x rest]; [done|].
  cbn [index lookup list_lookup] in H. unfold ret in H.
  destruct pattern as [pattern|]; [|done].
  apply extreme_loop_returns in H as [->|Hin]; [by left|done].
Qed.

(** C3: the search with a single match pattern on a target without a
    structurally valid candidate.  The pattern asks for a child named [zzz],
    which no node of the target [(c,g)a] has: the list of matched nodes is
    empty, and [find_extreme_case] raises [IndexError] on its first element
    instead of returning no result. *)
Theorem extreme_selector_without_candidate_raises pyeval
    (maxhits : option Z) (strat : strategy) :
  let '(h, p) := TreePattern_init DefaultSyntax extreme_pattern [] in
  fst (find_match default_symbols sample_sets pyeval cg_target p maxhits
         strat h)
  = {| yielded := []; ending := Exc IndexError |}.
Proof. destruct strat; vm_compute; reflexivity. Qed.

(** ** The caches *)

(** The fallback never lists the node among its descendants. *)
Lemma fake_descendants_exclude_node (V : Type) (getattr : path -> string -> V)
    (x : tnode) (l : list path) :
  cache_get_descendants (FakeCache_methods V getattr) fake_cache x = Ok l ->
  fst x ∉ l.
Proof.
  cbn. intros [= <-]. unfold get_descendants.
  rewrite list_elem_of_fmap. intros (y & Hy & Hin).
  apply list_elem_of_filter in Hin as [Hne _]. by apply Hne.
Qed.

(** C4: the two caches on the root of the target [(c,g)a].  The dictionary
    of [TreePatternCache] holds the node itself among its descendants; the
    fallback, which asks ETE's [get_descendants], does not: the accessor
    [get_descendants] of the emulator differs from the one of the cache on
    every node. *)
Theorem cache_and_fallback_descendants_differ
    (V : Type) (getattr : path -> string -> V) :
  cache_get_descendants (TreePatternCache_methods V getattr)
    (TreePatternCache_init cg_target) ([], cg_target)
  = Ok (elements ({[ []; [0%nat]; [1%nat] ]} : gset path))
  /\ ([] ∈ elements ({[ []; [0%nat]; [1%nat] ]} : gset path))
  /\ cache_get_descendants (FakeCache_methods V getattr) fake_cache
       ([], cg_target)
     = Ok [[0%nat]; [1%nat]]
  /\ ([] ∉ [[0%nat]; [1%nat]])
  /\ cache_get_leaves (TreePatternCache_methods V getattr)
       (TreePatternCache_init cg_target) ([], cg_target)
     = Ok (elements ({[ [0%nat]; [1%nat] ]} : gset path))
  /\ cache_get_leaves (FakeCache_methods V getattr) fake_cache ([], cg_target)
     = Ok [[0%nat]; [1%nat]].
Proof.
  split; [vm_compute; reflexivity|].
  split; [apply elem_of_elements; set_solver|].
  split; [vm_compute; reflexivity|].
  split; [|split; vm_compute; reflexivity].
  rewrite !elem_of_cons, elem_of_nil. intros [H|[H|[]]]; discriminate H.
Qed.

(** ** The frame of a search *)

Section Frame.

Context {N : nat}.

Lemma frame_ret {A : Type} (a : A) (Q : A -> Prop) : Q a -> frame N (ret a) Q.
Proof. intros Ha h Hh. cbn. split; [done|]. split; [done|]. by intros ? [= <-]. Qed.

Lemma frame_raise {A : Type} (e : exn) (Q : A -> Prop) : frame N (raise e) Q.
Proof. intros h Hh. cbn. split; [done|]. split; done. Qed.

Lemma frame_out_of_fuel {A : Type} (Q : A -> Prop) : frame N out_of_fuel Q.
Proof. intros h Hh. cbn. split; [done|]. split; done. Qed.

Lemma frame_bind {A B : Type} (m : M A) (k : A -> M B)
    (Q : A -> Prop) (R : B -> Prop) :
  frame N m Q -> (forall a, Q a -> frame N (k a) R) -> frame N (bind m k) R.
Proof.
  intros Hm Hk h Hh. unfold bind.
  destruct (Hm h Hh) as (H1 & H2 & H3).
  destruct (m h) as [[a|e|] h1]; cbn [fst snd] in *; [|done..].
  destruct (Hk a (H3 a eq_refl) h1 H1) as (K1 & K2 & K3).
  rewrite K2, H2. done.
Qed.

Lemma frame_weaken {A : Type} (m : M A) (Q Q' : A -> Prop) :
  frame N m Q -> (forall a, Q a -> Q' a) -> frame N m Q'.
Proof.
  intros Hm HQ h Hh. destruct (Hm h Hh) as (H1 & H2 & H3).
  split; [done|]. split; [done|]. intros a Ha. by apply HQ, H3.
Qed.

Lemma frame_lift {A : Type} (r : res A) : frame N (lift r) (fun _ => True).
Proof. destruct r; [by apply frame_ret|apply frame_raise]. Qed.

(** A computation that does not write. *)
Lemma frame_read_only {A : Type} (m : M A) :
  (forall h, snd (m h) = h) -> frame N m (fun _ => True).
Proof. intros Hm h Hh. rewrite Hm. done. Qed.

Lemma frame_get_obj (l : loc) :
  (N <= l)%nat -> frame N (get_obj l) (refers_above N).
Proof.
  intros Hl h Hh. unfold get_obj.
  destruct (h !! l) as [o|] eqn:E; cbn; (split; [done|]); (split; [done|]);
    [|done].
  intros a [= <-]. by apply (Hh l).
Qed.

Lemma frame_get_controller (l : loc) :
  (N <= l)%nat -> frame N (get_controller l) (fun _ => True).
Proof.
  intros Hl. eapply frame_bind; [by apply frame_get_obj|].
  intros o _. destruct (p_controller o); [by apply frame_ret|apply frame_raise].
Qed.

Lemma frame_get_children (l : loc) :
  (N <= l)%nat -> frame N (get_children l) (Forall (le N)).
Proof.
  intros Hl. eapply frame_bind; [by apply frame_get_obj|].
  intros o [Ho _]. by apply frame_ret.
Qed.

Lemma frame_is_leaf (l : loc) :
  (N <= l)%nat -> frame N (is_leaf l) (fun _ => True).
Proof.
  intros Hl. eapply frame_bind; [by apply frame_get_children|].
  intros ks _. by apply frame_ret.
Qed.

Lemma closed_above_alter (f : pobj -> pobj) (l : loc) (h : heap) :
  (forall o, p_children (f o) = p_children o /\ p_up (f o) = p_up o) ->
  closed_above N h -> closed_above N (alter f l h).
Proof.
  intros Hf Hh l' o' Hl' Ho'. rewrite list_lookup_alter in Ho'.
  case_decide as Hd; [subst l'|by apply (Hh l')].
  apply fmap_Some in Ho' as (o & E & ->).
  destruct (Hf o) as [-> ->]. by apply (Hh l).
Qed.

Lemma frame_set_name (l : loc) (n : string) :
  (N <= l)%nat -> frame N (set_name l n) (fun _ => True).
Proof.
  intros Hl h Hh. unfold set_name. cbn [fst snd].
  split; [by apply closed_above_alter|]. split; [by apply take_alter_ge|done].
Qed.

Lemma frame_put_controller (l : loc) (c : controller) :
  (N <= l)%nat -> frame N (put_controller l c) (fun _ => True).
Proof.
  intros Hl h Hh. unfold put_controller. cbn [fst snd].
  split; [by apply closed_above_alter|]. split; [by apply take_alter_ge|done].
Qed.

Lemma frame_add_skipped (l : loc) (d : Z) :
  (N <= l)%nat -> frame N (add_skipped l d) (fun _ => True).
Proof.
  intros Hl. eapply frame_bind; [by apply frame_get_controller|].
  intros c _. by apply frame_put_controller.
Qed.

Lemma frame_index_loc (ls : list loc) (i : nat) :
  Forall (le N) ls -> frame N (index ls i) (le N).
Proof.
  intros Hls. unfold index. destruct (ls !! i) as [l|] eqn:E;
    [|apply frame_raise].
  apply frame_ret. rewrite Forall_forall in Hls. apply Hls.
  by eapply list_elem_of_lookup_2.
Qed.

Lemma frame_index {A : Type} (l : list A) (i : nat) :
  frame N (index l i) (fun _ => True).
Proof.
  unfold index. destruct (l !! i); [by apply frame_ret|apply frame_raise].
Qed.

End Frame.
Section FrameMatch.

Context {N : nat}.
Variable pyeval : tree -> syntax -> string -> list (string * path) -> res bool.
Variable T : tree.

Ltac frame_read :=
  lazymatch goal with
  | |- frame _ (bind (get_controller _) _) _ =>
      eapply frame_bind; [apply frame_get_controller; try done | intros ? _]
  | |- frame _ (bind (get_children _) _) _ =>
      eapply frame_bind; [apply frame_get_children; try done | intros ? ?]
  | |- frame _ (bind (is_leaf _) _) _ =>
      eapply frame_bind; [apply frame_is_leaf; try done | intros ? _]
  | |- frame _ (bind (get_obj _) _) _ =>
      eapply frame_bind; [apply frame_get_obj; try done | intros ? [? ?]]
  | |- frame _ (bind (index _ _) _) _ =>
      eapply frame_bind;
      [first [apply frame_index_loc; done | apply frame_index] | intros ? ?]
  | |- frame _ (bind (add_skipped _ _) _) _ =>
      eapply frame_bind; [apply frame_add_skipped; try done | intros _ _]
  | |- frame _ (bind (set_name _ _) _) _ =>
      eapply frame_bind; [apply frame_set_name; try done | intros _ _]
  | |- frame _ (bind (put_controller _ _) _) _ =>
      eapply frame_bind; [apply frame_put_controller; try done | intros _ _]
  | |- frame _ (bind (lift _) _) _ =>
      eapply frame_bind; [apply frame_lift | intros ? _]
  | |- frame _ (ret _) _ => apply frame_ret; cbn [fst snd]; try done
  | |- frame _ (raise _) _ => apply frame_raise
  | |- frame _ out_of_fuel _ => apply frame_out_of_fuel
  end.

Lemma is_local_match_read_only (self : loc) (x : tnode) (h : heap) :
  snd (is_local_match pyeval T self x h) = h.
Proof.
  unfold is_local_match, bind, get_controller, bind, get_obj, ret, raise.
  destruct (h !! self) as [o|] eqn:E; cbv beta iota zeta; [|done].
  rewrite E. cbv beta iota zeta.
  destruct (p_controller o) as [c|]; [|done].
  destruct (eval_constraints pyeval T (p_syntax o) _ x true) as [st|[]];
    try done.
  destruct (h !! get_tree_root h self) as [root|]; [|done].
  by destruct (eval_constraints pyeval T (p_syntax root) _ x true).
Qed.

Lemma frame_is_local_match (self : loc) (x : tnode) :
  frame N (is_local_match pyeval T self x) (fun _ => True).
Proof. apply frame_read_only, is_local_match_read_only. Qed.

Section Body.

Variable rec : loc -> tnode -> M bool.
Hypothesis frame_rec :
  forall (l : loc) (x : tnode), (N <= l)%nat -> frame N (rec l x) (fun _ => True).

Lemma frame_while_loop (fuel : nat) (self : loc) (candidate : list tnode) :
  (N <= self)%nat ->
  forall (i j : nat) (v : locals),
    frame N (while_loop rec fuel self candidate i j v) (fun _ => True).
Proof.
  intros Hself. induction fuel as [|fuel IH]; intros i j v; cbn [while_loop].
  - apply frame_out_of_fuel.
  - frame_read. destruct (i <? length a)%nat; [|by frame_read].
    frame_read. frame_read.
    eapply frame_bind; [by apply frame_rec|]. intros st _.
    frame_read.
    eapply (frame_bind _ _ (fun _ => True)).
    { destruct a2; [by apply frame_get_controller|by frame_read]. }
    intros cc _.
    destruct (a2 && (c_allow_indirect_connection cc || c_not cc) && sub_status v).
    + destruct (S j <? length candidate)%nat; apply IH.
    + frame_read.
      eapply (frame_bind _ _ (fun _ => True)).
      { destruct (negb _ && _); [|by frame_read].
        frame_read. by frame_read. }
      intros skip _. apply IH.
Qed.

Lemma frame_candidates_loop (self : loc) (candidates : list (list tnode)) :
  (N <= self)%nat ->
  forall v : locals,
    frame N (candidates_loop rec self candidates v) (fun _ => True).
Proof.
  intros Hself. induction candidates as [|candidate rest IH]; intros v;
    cbn [candidates_loop].
  - by frame_read.
  - frame_read.
    eapply frame_bind; [by apply frame_while_loop|]. intros v' _.
    destruct (test_children_properties v'); [apply IH|].
    destruct (sub_status v' && _); [by frame_read|apply IH].
Qed.

Lemma frame_fold_continious_matched (self : loc) (v : locals) :
  (N <= self)%nat ->
  frame N (fold_continious_matched self v) (fun _ => True).
Proof.
  intros Hself. unfold fold_continious_matched.
  frame_read. frame_read. frame_read. by frame_read.
Qed.

Lemma frame_nodes_loop (self : loc) (nodes : list tnode) :
  (N <= self)%nat ->
  forall st : bool, frame N (nodes_loop rec self nodes st) (fun _ => True).
Proof.
  intros Hself. induction nodes as [|node rest IH]; intros st;
    cbn [nodes_loop].
  - by frame_read.
  - frame_read.
    eapply (frame_bind _ _ (fun _ => True)).
    { destruct (length a <=? length (kids node))%nat; [|by frame_read].
      eapply frame_bind; [by apply frame_candidates_loop|]. intros v _.
      destruct (test_children_properties v); [|by frame_read].
      by apply frame_fold_continious_matched. }
    intros v _. destruct (status v && _); [by frame_read|apply IH].
Qed.

Lemma frame_match_node (self : loc) (node : tnode) :
  (N <= self)%nat ->
  frame N (match_node pyeval T self node) (fun r => (N <= snd r)%nat).
Proof.
  intros Hself. unfold match_node.
  frame_read. frame_read.
  eapply (frame_bind _ _ (le N)).
  { destruct (c_direct_connection_first a && negb a0); [|by frame_read].
    frame_read. by apply frame_index_loc. }
  intros self1 Hself1.
  eapply frame_bind; [apply frame_is_local_match|]. intros st _.
  cbv zeta. cbn [negb].
  eapply (frame_bind _ _ (fun _ => True)); [by apply frame_ret|].
  intros a1 _. frame_read.
  destruct (negb a1).
  - frame_read. destruct (c_allow_indirect_connection a2 && a3);
      [by frame_read|].
    frame_read. destruct (p_up a4) as [up|] eqn:Eup; [|by frame_read].
    assert (N <= up)%nat by auto.
    frame_read.
    destruct (c_allow_indirect_connection a5 && _); [|by frame_read].
    frame_read. by frame_read.
  - destruct (c_allow_indirect_connection a2 && _); [|by frame_read].
    frame_read. by frame_read.
Qed.

Lemma frame_match_children (self : loc) (node : tnode) (st : bool) :
  (N <= self)%nat ->
  frame N (match_children T rec self node st) (fun _ => True).
Proof.
  intros Hself. unfold match_children.
  frame_read.
  eapply (frame_bind _ _ (fun _ => True)).
  { destruct (st && _); [|by frame_read].
    eapply (frame_bind _ _ (fun _ => True)).
    { destruct (length (kids node) <? length a)%nat;
        [by apply frame_get_controller|by frame_read]. }
    intros c _. destruct (skip_to_nodes T c (length a) node st) as [nodes st3].
    by apply frame_nodes_loop. }
  intros st4 _.
  eapply (frame_bind _ _ (fun _ => True)).
  { destruct (negb st4); [by apply frame_get_controller|by frame_read]. }
  intros c _.
  eapply (frame_bind _ _ (fun _ => True)).
  { destruct (negb st4 && _); [by apply frame_add_skipped|by frame_read]. }
  intros _ _. by frame_read.
Qed.

Lemma frame_match_body (self : loc) (node : tnode) :
  (N <= self)%nat ->
  frame N (match_body pyeval T rec self node) (fun _ => True).
Proof.
  intros Hself. unfold match_body.
  eapply frame_bind; [by apply frame_match_node|].
  intros [st self'] Hself'. by apply frame_match_children.
Qed.

End Body.

Lemma frame_match_fuel (fuel : nat) :
  forall (self : loc) (node : tnode),
    (N <= self)%nat ->
    frame N (match_fuel pyeval T fuel self node) (fun _ => True).
Proof.
  induction fuel as [|fuel IH]; intros self node Hself; cbn [match_fuel].
  - apply frame_out_of_fuel.
  - by apply frame_match_body.
Qed.

End FrameMatch.
Section FrameSearch.

Context {N : nat}.
Variable ST : symbols.
Variable SET : sets.
Variable pyeval : tree -> syntax -> string -> list (string * path) -> res bool.
Variable T : tree.

Ltac frame_read :=
  lazymatch goal with
  | |- frame _ (bind (get_controller _) _) _ =>
      eapply frame_bind; [apply frame_get_controller; try done | intros ? _]
  | |- frame _ (bind (get_obj _) _) _ =>
      eapply frame_bind; [apply frame_get_obj; try done | intros ? [? ?]]
  | |- frame _ (bind (index _ _) _) _ =>
      eapply frame_bind; [apply frame_index | intros ? _]
  | |- frame _ (bind (set_name _ _) _) _ =>
      eapply frame_bind; [apply frame_set_name; try done | intros _ _]
  | |- frame _ (bind (put_controller _ _) _) _ =>
      eapply frame_bind; [apply frame_put_controller; try done | intros _ _]
  | |- frame _ (bind (lift _) _) _ =>
      eapply frame_bind; [apply frame_lift | intros ? _]
  | |- frame _ (ret _) _ => apply frame_ret; cbn [fst snd]; try done
  | |- frame _ (raise _) _ => apply frame_raise
  end.

Lemma frame_set_controller (self : loc) :
  (N <= self)%nat -> frame N (set_controller ST SET self) (fun _ => True).
Proof.
  intros Hself. unfold set_controller.
  frame_read.
  eapply (frame_bind _ _ (fun _ => True)).
  { destruct (p_name a); [by frame_read|].
    destruct (parse_metacharacters ST _) as [name' ms].
    frame_read. by frame_read. }
  intros ms _. frame_read. frame_read. frame_read. frame_read.
  eapply (frame_bind _ _ (fun _ => True)).
  { destruct (Py.contains _ _); [|by frame_read].
    frame_read. frame_read. by apply frame_set_name. }
  intros _ _. frame_read.
  eapply (frame_bind _ _ (fun _ => True)).
  { destruct (Py.contains _ _); [|by frame_read].
    frame_read. frame_read. by apply frame_set_name. }
  intros _ _. frame_read.
  eapply (frame_bind _ _ (fun _ => True)).
  { destruct (Py.contains _ _); [|by frame_read].
    frame_read. by frame_read. }
  intros c _. frame_read. by frame_read.
Qed.

Lemma frame_set_controllers (nodes : list loc) :
  Forall (le N) nodes ->
  forall b : bool, frame N (set_controllers ST SET nodes b) (fun _ => True).
Proof.
  induction 1 as [|node rest Hnode Hrest IH]; intros b; cbn [set_controllers].
  - by frame_read.
  - eapply frame_bind; [by apply frame_set_controller|]. intros b' _. apply IH.
Qed.

Lemma frame_single_match_node (nodes : list loc) :
  Forall (le N) nodes ->
  forall p : option loc,
    (forall l, p = Some l -> (N <= l)%nat) ->
    frame N (single_match_node nodes p)
      (fun p => forall l, p = Some l -> (N <= l)%nat).
Proof.
  induction 1 as [|node rest Hnode Hrest IH]; intros p Hp;
    cbn [single_match_node].
  - by frame_read.
  - frame_read. apply IH. destruct (c_single_match a); [|done].
    by intros l [= <-].
Qed.

Lemma extreme_loop_read_only (self pattern : loc) (match_list : list tnode) :
  forall (correct_node : tnode) (h : heap),
    snd (extreme_loop SET pyeval T self pattern match_list correct_node h) = h.
Proof.
  induction match_list as [|x rest IH]; intros best h; [done|].
  cbn [extreme_loop].
  unfold bind, get_controller, bind, get_obj, ret, raise.
  destruct (h !! pattern) as [po|] eqn:Ep; cbv beta iota zeta; [|done].
  destruct (p_controller po) as [c|]; [|done].
  destruct (c_single_match_contstraint c) as [s|]; [|done].
  destruct (h !! self) as [o|] eqn:Es; cbv beta iota zeta; [|done].
  destruct (eval_constraint pyeval T (p_syntax o) _ x (Some best))
    as [st|[]]; try done.
  destruct (h !! get_tree_root h self) as [root|]; [|done].
  by destruct (eval_constraint pyeval T (p_syntax root) _ x (Some best)).
Qed.

Lemma closed_above_ptraverse (h : heap) (fuel : nat) :
  closed_above N h ->
  forall queue : list loc,
    Forall (le N) queue -> Forall (le N) (ptraverse_queue fuel h queue).
Proof.
  intros Hh. induction fuel as [|fuel IH]; intros queue Hq; [constructor|].
  cbn [ptraverse_queue]. destruct Hq as [|l rest Hl Hrest]; [constructor|].
  constructor; [done|]. apply IH. apply Forall_app. split; [done|].
  unfold children_at. destruct (h !! l) as [o|] eqn:E; [|constructor].
  by apply (Hh l).
Qed.

Lemma frame_find_extreme_case (self : loc) (match_list : list tnode) :
  (N <= self)%nat ->
  frame N (find_extreme_case SET pyeval T self match_list) (fun _ => True).
Proof.
  intros Hself. unfold find_extreme_case.
  eapply (frame_bind _ _ (Forall (le N))).
  { intros h Hh. cbn [fst snd]. split; [done|]. split; [done|].
    intros nodes [= <-]. apply closed_above_ptraverse; [done|].
    by constructor. }
  intros nodes Hnodes.
  eapply frame_bind; [by apply frame_single_match_node|]. intros p Hp.
  frame_read. destruct p as [p|]; [|by frame_read].
  apply frame_read_only, extreme_loop_read_only.
Qed.

Lemma frame_collect_loop (pattern : loc) (nodes : list tnode) :
  (N <= pattern)%nat ->
  forall matched : list tnode,
    frame N (collect_loop pyeval T pattern nodes matched) (fun _ => True).
Proof.
  intros Hp. induction nodes as [|node rest IH]; intros matched;
    cbn [collect_loop].
  - by frame_read.
  - eapply frame_bind; [by apply frame_match_fuel|]. intros b _. apply IH.
Qed.

Lemma frame_search_loop (pattern : loc) (maxhits : option Z)
    (nodes : list tnode) :
  (N <= pattern)%nat ->
  forall (n : Z) (h : heap),
    closed_above N h ->
    closed_above N (snd (search_loop pyeval T pattern maxhits nodes n h))
    /\ take N (snd (search_loop pyeval T pattern maxhits nodes n h)) = take N h.
Proof.
  intros Hp. induction nodes as [|node rest IH]; intros n h Hh; [done|].
  cbn [search_loop].
  destruct (frame_match_fuel pyeval T (S (tree_height (snd node))) pattern node
              Hp h Hh) as (H1 & H2 & _).
  unfold match_ in *.
  destruct (match_fuel pyeval T _ pattern node h) as [[b|e|] h1];
    cbn [fst snd] in *; [|done..].
  destruct (match maxhits with Some k => _ | None => false end);
    cbn [snd]; [done|].
  destruct (IH (if b then n + 1 else n) h1 H1) as [K1 K2].
  destruct (search_loop pyeval T pattern maxhits rest _ h1) as [s h2].
  cbn [snd] in *. split; [done|]. by rewrite K2.
Qed.

Lemma closed_above_deepcopy (h : heap) :
  closed_above (length h) (h ++ map (shift_obj (length h)) h).
Proof.
  intros l o Hl Ho. rewrite lookup_app_r, list_lookup_fmap in Ho by done.
  apply fmap_Some in Ho as (o0 & _ & ->). cbn. split.
  - apply Forall_fmap, Forall_true. intros x. cbn. lia.
  - intros u Hu. apply fmap_Some in Hu as (u0 & _ & ->). lia.
Qed.

End FrameSearch.

(** C9: [find_match] works on a copy of the pattern.  Whatever the pattern,
    the target, the bound and the traversal order, and however the search
    ends, every object that was in the store before the call, so every node
    of the original pattern with its name, its controller and its counter of
    skipped nodes, is in the store after the call as it was: the search
    writes only to the objects it has made itself. *)
Theorem find_match_leaves_pattern_unchanged ST SET pyeval T (self : loc)
    (maxhits : option Z) (strat : strategy) (h : heap) :
  take (length h) (snd (find_match ST SET pyeval T self maxhits strat h)) = h
  /\ forall l : loc,
       (l < length h)%nat ->
       snd (find_match ST SET pyeval T self maxhits strat h) !! l = h !! l.
Proof.
  assert (E : take (length h)
                (snd (find_match ST SET pyeval T self maxhits strat h)) = h).
  { unfold find_match, deepcopy.
    set (h1 := (h ++ map (shift_obj (length h)) h)%list).
    set (p := (length h + self)%nat).
    assert (Hp : (length h <= p)%nat) by (unfold p; lia).
    assert (Hh1 : closed_above (length h) h1) by apply closed_above_deepcopy.
    assert (Ht : take (length h) h1 = h) by apply take_app_length.
    assert (Hnodes : Forall (le (length h)) (ptraverse h1 p)).
    { apply closed_above_ptraverse; [done|]. by constructor. }
    destruct (frame_set_controllers ST SET _ Hnodes false h1 Hh1)
      as (H1 & H2 & _).
    destruct (set_controllers ST SET (ptraverse h1 p) false h1)
      as [[single|e|] h2]; cbn [fst snd ended] in *; [|by rewrite H2, Ht..].
    destruct single.
    - assert (F : frame (length h)
                    (bind (collect_loop pyeval T p (traverse strat ([], T)) [])
                          (fun m => find_extreme_case SET pyeval T p m))
                    (fun _ => True)).
      { eapply frame_bind; [by apply frame_collect_loop|].
        intros m _. by apply frame_find_extreme_case. }
      destruct (F h2 H1) as (K1 & K2 & _).
      destruct (bind _ _ h2) as [[node|e|] h3]; cbn [fst snd ended] in *;
        by rewrite K2, H2, Ht.
    - destruct (frame_search_loop pyeval T p maxhits (traverse strat ([], T))
                  Hp 0 h2 H1) as [K1 K2].
      by rewrite K2, H2, Ht. }
  split; [exact E|].
  intros l Hl. rewrite <- E at 2. by rewrite lookup_take_lt.
Qed.

(** ** Compiling a node whose label holds no set marker *)

Lemma lookup_alter_same (f : pobj -> pobj) (l : loc) (h : heap) (o : pobj) :
  h !! l = Some o -> alter f l h !! l = Some (f o).
Proof. intros H. rewrite list_lookup_alter. case_decide; [|done]. by rewrite H. Qed.

Lemma bind_run {A B : Type} (m : M A) (k : A -> M B) (h h' : heap) (a : A) :
  m h = (Ret a, h') -> bind m k h = k a h'.
Proof. intros H. unfold bind. by rewrite H. Qed.

Lemma set_controller_run ST SET (self : loc) (h : heap) (o : pobj)
    (name' : string) (ms : list string) (props : properties) :
  h !! self = Some o ->
  p_name o <> EmptyString ->
  parse_metacharacters ST (p_name o) = (name', ms) ->
  define_skipping_properties ST ms = Ok props ->
  markers_absent SET [parse_node_name name'] = true ->
  set_controller ST SET self h
  = (Ret false,
     alter (with_controller (controller_update default_controller props)) self
       (alter (with_name (parse_node_name name')) self
          (alter (with_name name') self h))).
Proof.
  intros Ho Hne Hp Hd Hm.
  cbn [markers_absent forallb] in Hm. rewrite andb_true_r in Hm.
  apply andb_prop in Hm as [Hm H3]. apply andb_prop in Hm as [H1 H2].
  apply negb_true_iff in H1, H2, H3.
  set (h1 := alter (with_name name') self h).
  set (h2 := alter (with_name (parse_node_name name')) self h1).
  assert (Ho1 : h1 !! self = Some (with_name name' o))
    by by apply lookup_alter_same.
  assert (Ho2 : h2 !! self
                = Some (with_name (parse_node_name name') (with_name name' o)))
    by by apply lookup_alter_same.
  unfold set_controller.
  rewrite (bind_run _ _ h h o) by by apply get_obj_Some.
  destruct (p_name o) as [|a s] eqn:En; [done|]. rewrite Hp.
  rewrite (bind_run _ _ h h1 ms) by done.
  rewrite Hd. rewrite (bind_run _ _ h1 h1 props) by done.
  rewrite (bind_run _ _ h1 h1 _ (get_obj_Some _ _ _ Ho1)).
  cbn [p_name with_name].
  rewrite (bind_run _ _ h1 h2 tt) by done.
  rewrite (bind_run _ _ h2 h2 _ (get_obj_Some _ _ _ Ho2)).
  cbn [p_name with_name]. rewrite H1.
  rewrite (bind_run _ _ h2 h2 tt) by done.
  rewrite (bind_run _ _ h2 h2 _ (get_obj_Some _ _ _ Ho2)).
  cbn [p_name with_name]. rewrite H2.
  rewrite (bind_run _ _ h2 h2 tt) by done.
  rewrite (bind_run _ _ h2 h2 _ (get_obj_Some _ _ _ Ho2)).
  cbn [p_name with_name]. rewrite H3.
  rewrite (bind_run _ _ h2 h2 (controller_update default_controller props))
    by done.
  unfold bind, put_controller, ret. reflexivity.
Qed.

(** The store with the pattern [((c)q)a] and its copy, not compiled. *)
Lemma deepcopy_connection (q : string) :
  let '(h, r) := TreePattern_init DefaultSyntax (connection_pattern q) [] in
  deepcopy r h
  = ([ fresh_obj "a" [1%nat] None DefaultSyntax;
       fresh_obj q [2%nat] (Some 0%nat) DefaultSyntax;
       fresh_obj "c" [] (Some 1%nat) DefaultSyntax;
       fresh_obj "a" [4%nat] None DefaultSyntax;
       fresh_obj q [5%nat] (Some 3%nat) DefaultSyntax;
       fresh_obj "c" [] (Some 4%nat) DefaultSyntax ], 3%nat).
Proof. reflexivity. Qed.

Lemma markers_absent_names SET :
  markers_absent SET connection_names = true ->
  markers_absent SET [parse_node_name "a"] = true
  /\ markers_absent SET [parse_node_name "@"] = true
  /\ markers_absent SET [parse_node_name "c"] = true.
Proof.
  intros Hm. cbn [markers_absent connection_names forallb] in Hm.
  apply andb_prop in Hm as [Ha Hm]. apply andb_prop in Hm as [Hat Hm].
  apply andb_prop in Hm as [Hc _].
  cbn [markers_absent forallb]. rewrite !andb_true_r.
  split; [exact Ha|]. split; [exact Hat|exact Hc].
Qed.

Ltac compile_connection Hm :=
  destruct (markers_absent_names _ Hm) as (Ha & Hat & Hc);
  cbn [set_controllers];
  erewrite bind_run;
    [|eapply (set_controller_run default_symbols _ 3%nat _ _ "a" []);
      [reflexivity|discriminate|reflexivity|reflexivity|exact Ha]];
  cbn [alter list_alter];
  erewrite bind_run;
    [|eapply (set_controller_run default_symbols _ 4%nat _ _ "@");
      [reflexivity|discriminate|reflexivity|reflexivity|exact Hat]];
  cbn [alter list_alter];
  erewrite bind_run;
    [|eapply (set_controller_run default_symbols _ 5%nat _ _ "c" []);
      [reflexivity|discriminate|reflexivity|reflexivity|exact Hc]];
  reflexivity.

(** The copy of the pattern [((c)+)a], compiled. *)
Lemma compile_one_or_more SET :
  markers_absent SET connection_names = true ->
  set_controllers default_symbols SET [3%nat; 4%nat; 5%nat] false
    [ fresh_obj "a" [1%nat] None DefaultSyntax;
      fresh_obj "+" [2%nat] (Some 0%nat) DefaultSyntax;
      fresh_obj "c" [] (Some 1%nat) DefaultSyntax;
      fresh_obj "a" [4%nat] None DefaultSyntax;
      fresh_obj "+" [5%nat] (Some 3%nat) DefaultSyntax;
      fresh_obj "c" [] (Some 4%nat) DefaultSyntax ]
  = (Ret false, connection_heap "+" 1 false 0).
Proof. intros Hm. compile_connection Hm. Qed.

(** The copy of the pattern with a star, compiled. *)
Lemma compile_zero_or_more SET :
  markers_absent SET connection_names = true ->
  set_controllers default_symbols SET [3%nat; 4%nat; 5%nat] false
    [ fresh_obj "a" [1%nat] None DefaultSyntax;
      fresh_obj "*" [2%nat] (Some 0%nat) DefaultSyntax;
      fresh_obj "c" [] (Some 1%nat) DefaultSyntax;
      fresh_obj "a" [4%nat] None DefaultSyntax;
      fresh_obj "*" [5%nat] (Some 3%nat) DefaultSyntax;
      fresh_obj "c" [] (Some 4%nat) DefaultSyntax ]
  = (Ret false, connection_heap "*" 0 true 0).
Proof. intros Hm. compile_connection Hm. Qed.
(** ** Permutations: the first elements *)

Lemma pick_fst {A : Type} (l : list A) : map fst (pick l) = l.
Proof.
  induction l as [|x l IH]; [done|]. cbn [pick map fst]. f_equal.
  rewrite map_map. rewrite <- IH at 2. apply map_ext. by intros [y r].
Qed.

Lemma pick_length {A : Type} (l : list A) :
  Forall (fun yr => S (length (snd yr)) = length l) (pick l).
Proof.
  induction l as [|x l IH]; [constructor|]. cbn [pick]. constructor; [done|].
  apply Forall_map. eapply Forall_impl; [exact IH|].
  intros [y r] E. cbn in *. by rewrite E.
Qed.

Lemma permutations_fuel_nonempty {A : Type} (n : nat) :
  forall l : list A, length l = n -> permutations_fuel n l <> [].
Proof.
  induction n as [|n IH]; intros l Hl; [done|].
  destruct l as [|x l]; [done|]. cbn [permutations_fuel pick flat_map].
  injection Hl as Hl. specialize (IH l Hl).
  destruct (permutations_fuel n l); [done|]. done.
Qed.

Lemma heads_app {A : Type} (l1 l2 : list (list A)) :
  heads (l1 ++ l2) = (heads l1 ++ heads l2)%list.
Proof. apply omap_app. Qed.

Lemma heads_cons {A : Type} (x : A) (l : list (list A)) :
  heads (map (cons x) l) = map (fun _ => x) l.
Proof. induction l as [|c l IH]; [done|]. cbn. by rewrite <- IH. Qed.

Lemma heads_picked {A : Type} (n : nat) (ps : list (A * list A)) :
  Forall (fun yr => length (snd yr) = n) ps ->
  forall z, z ∈ heads (flat_map (fun '(x, r) => map (cons x) (permutations_fuel n r)) ps)
            <-> z ∈ map fst ps.
Proof.
  induction 1 as [|[x r] ps Hr Hps IH]; intros z; [done|].
  cbn [flat_map map fst]. rewrite heads_app, elem_of_app, heads_cons, IH.
  rewrite elem_of_cons.
  assert (Hx : z ∈ map (fun _ : list A => x) (permutations_fuel n r) <-> z = x).
  { pose proof (permutations_fuel_nonempty n r Hr) as Hne.
    destruct (permutations_fuel n r) as [|c cs]; [done|].
    rewrite list_elem_of_fmap. split.
    - by intros (? & -> & _).
    - intros ->. exists c. split; [done|]. by left. }
  by rewrite Hx.
Qed.

(** The first elements of the permutations of a list are its elements. *)
Lemma heads_permutations {A : Type} (l : list A) (z : A) :
  l <> [] -> z ∈ heads (permutations l) <-> z ∈ l.
Proof.
  intros Hl. unfold permutations. destruct l as [|x l]; [done|].
  cbn [length]. rewrite <- (pick_fst (x :: l)) at 2.
  apply (heads_picked (length l)).
  eapply Forall_impl; [apply pick_length|]. intros [y r] E. cbn in *. lia.
Qed.

Lemma existsb_elem_of {A : Type} (P : A -> bool) (l1 l2 : list A) :
  (forall z, z ∈ l1 <-> z ∈ l2) -> existsb P l1 = existsb P l2.
Proof.
  intros E. apply eq_true_iff_eq. rewrite !existsb_exists.
  split; intros (z & Hz & HP); exists z; (split; [|done]);
    apply list_elem_of_In; apply E; by apply list_elem_of_In.
Qed.

Lemma existsb_heads_permutations {A : Type} (P : A -> bool) (l : list A) :
  l <> [] -> existsb P (heads (permutations l)) = existsb P l.
Proof.
  intros Hl. apply existsb_elem_of. intros z. by apply heads_permutations.
Qed.

(** Every permutation of a list that is not empty starts with one of its
    elements. *)
Lemma permutations_head {A : Type} (l : list A) :
  l <> [] ->
  Forall (fun c => exists y ys, c = y :: ys /\ y ∈ l) (permutations l).
Proof.
  intros Hl. unfold permutations. destruct l as [|x l]; [done|].
  cbn [length permutations_fuel]. apply Forall_flat_map.
  apply Forall_forall. intros [y r] Hy. apply Forall_map.
  apply Forall_forall. intros c _. exists y, c. split; [done|].
  rewrite <- (pick_fst (x :: l)). apply list_elem_of_fmap. by exists (y, r).
Qed.

(** The children of a target node. *)
Lemma imap_snd {A B : Type} (l : list B) :
  forall f : nat -> A, map snd (imap (fun i c => (f i, c)) l) = l.
Proof.
  induction l as [|c l IH]; intros f; [done|].
  cbn [imap map snd]. f_equal. apply (IH (f ∘ S)).
Qed.

Lemma kids_children (x : tnode) : map snd (kids x) = t_children (snd x).
Proof. unfold kids. apply (imap_snd _ (fun i => (fst x ++ [i])%list)). Qed.

Lemma existsb_kids (f : tree -> bool) (x : tnode) :
  existsb (fun y => f (snd y)) (kids x) = existsb f (t_children (snd x)).
Proof.
  rewrite <- kids_children. generalize (kids x). intros l.
  induction l as [|y l IH]; [done|]. cbn. by rewrite IH.
Qed.

Lemma kids_height (x y : tnode) :
  y ∈ kids x -> (S (tree_height (snd y)) <= tree_height (snd x))%nat.
Proof.
  intros Hy. assert (Hs : snd y ∈ t_children (snd x)).
  { rewrite <- kids_children. apply list_elem_of_fmap. by exists y. }
  destruct (snd x) as [n ts]. cbn [t_children tree_height] in *.
  apply le_n_S. induction Hs as [t ts|t t' ts Hs IH]; cbn [map foldr]; lia.
Qed.

Lemma kids_nil (x : tnode) : kids x = [] <-> t_children (snd x) = [].
Proof.
  rewrite <- kids_children. split; [by intros ->|].
  by destruct (kids x).
Qed.
(** ** The matcher on a compiled connection pattern *)

Section Connection.

Variable pyeval : tree -> syntax -> string -> list (string * path) -> res bool.
Variable T : tree.
Variable q : string.
Variable lo : Z.
Variable df : bool.

Local Abbreviation H := (connection_heap q lo df).

Lemma read_controller_3 k : get_controller 3 (H k) = (Ret default_controller, H k).
Proof. reflexivity. Qed.

Lemma read_controller_4 k :
  get_controller 4 (H k) = (Ret (set_skipped k (quantified lo (-1) df)), H k).
Proof. reflexivity. Qed.

Lemma read_controller_5 k : get_controller 5 (H k) = (Ret default_controller, H k).
Proof. reflexivity. Qed.

Lemma read_children_3 k : get_children 3 (H k) = (Ret [4%nat], H k).
Proof. reflexivity. Qed.

Lemma read_children_4 k : get_children 4 (H k) = (Ret [5%nat], H k).
Proof. reflexivity. Qed.

Lemma read_children_5 k : get_children 5 (H k) = (Ret [], H k).
Proof. reflexivity. Qed.

Lemma read_leaf_3 k : is_leaf 3 (H k) = (Ret false, H k).
Proof. reflexivity. Qed.

Lemma read_leaf_4 k : is_leaf 4 (H k) = (Ret false, H k).
Proof. reflexivity. Qed.

Lemma read_leaf_5 k : is_leaf 5 (H k) = (Ret true, H k).
Proof. reflexivity. Qed.

Lemma read_obj_3 k :
  get_obj 3 (H k)
  = (Ret {| p_name := "@.name == " ++ Py.quoted "a"; p_children := [4%nat];
            p_up := None; p_controller := Some default_controller;
            p_syntax := DefaultSyntax |}, H k).
Proof. reflexivity. Qed.

Lemma read_obj_5 k :
  get_obj 5 (H k)
  = (Ret {| p_name := "@.name == " ++ Py.quoted "c"; p_children := [];
            p_up := Some 4%nat; p_controller := Some default_controller;
            p_syntax := DefaultSyntax |}, H k).
Proof. reflexivity. Qed.

Lemma write_skipped_4 k d : add_skipped 4 d (H k) = (Ret tt, H (k + d)).
Proof. reflexivity. Qed.

Lemma local_match_named (l : loc) (n : string) (x : tnode) (h : heap)
    (ks : list loc) (up : option loc) :
  plain n = true ->
  local_constraints ("@.name == " ++ Py.quoted n) default_controller
  = ["__target_node.name == " ++ Py.quoted n] ->
  h !! l = Some {| p_name := "@.name == " ++ Py.quoted n; p_children := ks;
                   p_up := up; p_controller := Some default_controller;
                   p_syntax := DefaultSyntax |} ->
  is_local_match pyeval T l x h = (Ret (String.eqb (node_name x) n), h).
Proof.
  intros Hn E Hl. unfold is_local_match.
  rewrite (bind_run _ _ h h _ (get_obj_Some _ _ _ Hl)).
  rewrite (bind_run _ _ h h default_controller)
    by by apply (get_controller_Some _ _ _ _ Hl).
  cbn [p_name p_syntax]. rewrite E.
  assert (Hq : exists r, "__target_node.name == " ++ Py.quoted n = String "_" r)
    by (eexists; reflexivity).
  destruct Hq as [r Hq]. rewrite Hq. cbn [eval_constraints]. rewrite <- Hq.
  rewrite eval_constraint_name by done. reflexivity.
Qed.

Lemma local_match_3 k x :
  is_local_match pyeval T 3 x (H k) = (Ret (String.eqb (node_name x) "a"), H k).
Proof. by eapply local_match_named. Qed.

Lemma local_match_5 k x :
  is_local_match pyeval T 5 x (H k) = (Ret (String.eqb (node_name x) "c"), H k).
Proof. by eapply local_match_named. Qed.

Lemma local_match_4 k x : is_local_match pyeval T 4 x (H k) = (Ret true, H k).
Proof. reflexivity. Qed.

(** The first half of [match] on the three nodes. *)

Lemma match_node_3 k x :
  match_node pyeval T 3 x (H k)
  = (Ret (String.eqb (node_name x) "a", 3%nat), H k).
Proof.
  unfold match_node.
  rewrite (bind_run _ _ _ _ _ (read_controller_3 k)).
  rewrite (bind_run _ _ _ _ _ (read_leaf_3 k)).
  cbn [c_direct_connection_first default_controller andb].
  rewrite (bind_run _ _ (H k) (H k) 3%nat) by done.
  rewrite (bind_run _ _ _ _ _ (local_match_3 k x)).
  cbv zeta. cbn [negb].
  rewrite (bind_run _ _ (H k) (H k) (String.eqb (node_name x) "a")) by done.
  rewrite (bind_run _ _ _ _ _ (read_controller_3 k)).
  destruct (String.eqb (node_name x) "a"); cbn [negb]; [reflexivity|].
  rewrite (bind_run _ _ _ _ _ (read_leaf_3 k)).
  cbn [c_allow_indirect_connection default_controller andb].
  rewrite (bind_run _ _ _ _ _ (read_obj_3 k)). reflexivity.
Qed.

Lemma match_node_5 k x :
  match_node pyeval T 5 x (H k)
  = if String.eqb (node_name x) "c" then (Ret (true, 5%nat), H k)
    else (Ret (true, 4%nat), H (k + 1)).
Proof.
  unfold match_node.
  rewrite (bind_run _ _ _ _ _ (read_controller_5 k)).
  rewrite (bind_run _ _ _ _ _ (read_leaf_5 k)).
  cbn [c_direct_connection_first default_controller andb].
  rewrite (bind_run _ _ (H k) (H k) 5%nat) by done.
  rewrite (bind_run _ _ _ _ _ (local_match_5 k x)).
  cbv zeta. cbn [negb].
  rewrite (bind_run _ _ (H k) (H k) (String.eqb (node_name x) "c")) by done.
  rewrite (bind_run _ _ _ _ _ (read_controller_5 k)).
  destruct (String.eqb (node_name x) "c"); cbn [negb]; [reflexivity|].
  rewrite (bind_run _ _ _ _ _ (read_leaf_5 k)).
  cbn [c_allow_indirect_connection default_controller andb].
  rewrite (bind_run _ _ _ _ _ (read_obj_5 k)). cbn [p_up].
  rewrite (bind_run _ _ _ _ _ (read_controller_4 k)).
  cbn [c_allow_indirect_connection set_skipped quantified is_in_bounds c_high
         Z.leb andb].
  change (0 <=? -1) with false. cbv iota.
  rewrite (bind_run _ _ _ _ _ (write_skipped_4 k 1)). reflexivity.
Qed.


Lemma match_node_4_first (Hdf : df = false) k x :
  match_node pyeval T 4 x (H k)
  = (Ret (true, 4%nat), H (if k =? 0 then k + 1 else k)).
Proof.
  unfold match_node.
  rewrite (bind_run _ _ _ _ _ (read_controller_4 k)).
  rewrite (bind_run _ _ _ _ _ (read_leaf_4 k)).
  cbn [c_direct_connection_first set_skipped quantified negb].
  destruct (df && true) eqn:E; [by rewrite Hdf in E|]. clear E.
  rewrite (bind_run _ _ (H k) (H k) 4%nat) by done.
  rewrite (bind_run _ _ _ _ _ (local_match_4 k x)).
  cbv zeta. cbn [negb].
  rewrite (bind_run _ _ (H k) (H k) true) by done.
  rewrite (bind_run _ _ _ _ _ (read_controller_4 k)).
  cbn [negb c_allow_indirect_connection c_skipped set_skipped quantified andb].
  destruct (k =? 0); [|reflexivity].
  rewrite (bind_run _ _ _ _ _ (write_skipped_4 k 1)). reflexivity.
Qed.

Lemma match_node_4_direct (Hdf : df = true) k x :
  match_node pyeval T 4 x (H k)
  = if String.eqb (node_name x) "c" then (Ret (true, 5%nat), H k)
    else (Ret (true, 4%nat), H (k + 1)).
Proof.
  rewrite <- match_node_5. unfold match_node.
  rewrite (bind_run _ _ _ _ _ (read_controller_4 k)).
  rewrite (bind_run _ _ _ _ _ (read_leaf_4 k)).
  cbn [c_direct_connection_first set_skipped quantified negb].
  destruct (df && true) eqn:E; [clear E|by rewrite Hdf in E].
  rewrite (bind_run _ _ (H k) (H k) 5%nat).
  2:{ rewrite (bind_run _ _ _ _ _ (read_children_4 k)). reflexivity. }
  rewrite (bind_run _ _ _ _ _ (read_controller_5 k)).
  rewrite (bind_run _ _ _ _ _ (read_leaf_5 k)).
  cbn [c_direct_connection_first default_controller andb].
  rewrite (bind_run (ret 5%nat) _ (H k) (H k) 5%nat) by done.
  reflexivity.
Qed.

(** The second half of [match] on the node named [c], which has no
    children. *)
Lemma match_children_5 rec k x :
  match_children T rec 5 x true (H k) = (Ret true, H k).
Proof.
  unfold match_children.
  rewrite (bind_run _ _ _ _ _ (read_children_5 k)). reflexivity.
Qed.

Section Loop.

(** A pattern node [self] with the single child [child], in the stores
    [H k] for the [k] that satisfy [Inv]; the recursive call on [child]
    answers [P] on the target nodes that are [ok]. *)
Variable rec : loc -> tnode -> M bool.
Variables self child : loc.
Variable cs : Z -> controller.
Variable cl : bool.
Variable cc : controller.
Variable ai : bool.
Variable Inv : Z -> Prop.
Variable P : tnode -> bool.
Variable ok : tnode -> Prop.

Hypothesis Hch : forall k, get_children self (H k) = (Ret [child], H k).
Hypothesis Hcl : forall k, is_leaf child (H k) = (Ret cl, H k).
Hypothesis Hcc :
  forall k, (if cl then get_controller child else ret default_controller) (H k)
            = (Ret cc, H k).
Hypothesis Hcount :
  cl && (c_allow_indirect_connection cc || c_not cc) = false.
Hypothesis Hcs : forall k, get_controller self (H k) = (Ret (cs k), H k).
Hypothesis Hai : forall k, c_allow_indirect_connection (cs k) = ai.
Hypothesis Hin :
  forall k, Inv k -> is_in_bounds (cs k) low (c_skipped (cs k)) = true.
Hypothesis Hrec :
  forall y k, ok y -> Inv k ->
    exists k', Inv k' /\ rec child y (H k) = (Ret (P y), H k').

Lemma while_loop_single (fuel : nat) (y : tnode) (ys : list tnode) (k : Z)
    (v : locals) :
  ok y -> Inv k -> sub_status v = true ->
  exists k',
    Inv k'
    /\ while_loop rec (S (S fuel)) self (y :: ys) 0 0 v (H k)
       = (Ret (after_while (P y) (ai && negb (node_is_leaf y)) v), H k').
Proof.
  intros Hy Hk Hv. destruct (Hrec y k Hy Hk) as (k' & Hk' & Hr).
  exists k'. split; [done|].
  cbn [while_loop].
  rewrite (bind_run _ _ _ _ _ (Hch k)). cbn [length Nat.ltb Nat.leb].
  rewrite (bind_run _ _ (H k) (H k) child) by done.
  rewrite (bind_run _ _ (H k) (H k) y) by done.
  rewrite (bind_run _ _ _ _ _ Hr).
  rewrite (bind_run _ _ _ _ _ (Hcl k')).
  rewrite (bind_run _ _ _ _ _ (Hcc k')).
  rewrite Hcount. cbn [andb].
  rewrite (bind_run _ _ _ _ _ (Hcs k')).
  rewrite (Hin k' Hk'), Hai. cbn [negb]. rewrite andb_false_r.
  destruct (P y) eqn:EP; cbn [negb andb].
  - rewrite (bind_run _ _ (H k') (H k') false) by done.
    rewrite (bind_run _ _ _ _ _ (Hch k')). cbn [length Nat.ltb Nat.leb].
    unfold after_while. rewrite Hv. reflexivity.
  - destruct ai.
    + rewrite (bind_run _ _ (H k') (H k') (negb (node_is_leaf y))).
      2:{ rewrite (bind_run _ _ (H k') (H k') y) by done. reflexivity. }
      rewrite (bind_run _ _ _ _ _ (Hch k')). cbn [length Nat.ltb Nat.leb].
      unfold after_while. cbn [andb]. rewrite Hv.
      by destruct (negb (node_is_leaf y)).
    + rewrite (bind_run _ _ (H k') (H k') false) by done.
      rewrite (bind_run _ _ _ _ _ (Hch k')). cbn [length Nat.ltb Nat.leb].
      unfold after_while. cbn [andb]. by rewrite Hv.
Qed.

Lemma candidates_loop_single (candidates : list (list tnode)) :
  Forall (fun c => exists y ys, c = y :: ys /\ ok y) candidates ->
  forall (k : Z) (v : locals),
    Inv k ->
    test_children_properties v = false ->
    sub_status_count v = 0 ->
    exists k' v',
      Inv k'
      /\ candidates_loop rec self candidates v (H k) = (Ret v', H k')
      /\ test_children_properties v' = false
      /\ (if existsb P (heads candidates)
          then status v' = true /\ 0 < sub_status_count v'
          else sub_status_count v' = 0
               /\ status v' = match candidates with
                              | [] => status v
                              | _ => false
                              end).
Proof.
  induction 1 as [|c rest (y & ys & -> & Hy) Hrest IH]; intros k v Hk Ht Hc.
  - exists k, v. by cbn.
  - cbn [candidates_loop].
    rewrite (bind_run _ _ _ _ _ (Hch k)).
    set (v0 := {| status := status v; sub_status := true;
                  sub_status_count := sub_status_count v;
                  test_children_properties := test_children_properties v;
                  continious_matched := continious_matched v;
                  current_matched := 0 |}).
    destruct (while_loop_single (length (y :: ys)) y ys k v0 Hy Hk eq_refl)
      as (k1 & Hk1 & Hw).
    cbn [length Nat.add] in *.
    rewrite (bind_run _ _ _ _ _ Hw).
    change (heads ((y :: ys) :: rest)) with (y :: heads rest).
    cbn [existsb]. unfold after_while. subst v0.
    destruct (P y) eqn:EP;
      cbn [test_children_properties sub_status sub_status_count orb].
    + rewrite Ht, Hc. change (0 <? 0 + 1) with true. cbn [andb].
      eexists k1, _. split; [done|]. split; [reflexivity|].
      cbn [with_status test_children_properties status sub_status_count].
      done.
    + destruct (ai && negb (node_is_leaf y));
        cbn [test_children_properties sub_status sub_status_count];
        rewrite Ht, Hc; change (0 <? 0) with false;
        rewrite ?andb_false_r; cbn [andb];
        match goal with
        | |- context [candidates_loop rec self rest ?w (H k1)] =>
            destruct (IH k1 w Hk1) as (k2 & v2 & Hk2 & Hl & Ht2 & Hres);
              [by cbn|by cbn|]
        end;
        exists k2, v2; (split; [done|]); (split; [done|]); (split; [done|]);
        (destruct (existsb P (heads rest)); [done|]);
        destruct Hres as [Hc2 Hs2]; (split; [done|]);
        rewrite Hs2; by destruct rest.
Qed.

Lemma nodes_loop_single (x : tnode) (k : Z) :
  kids x <> [] ->
  (forall y, y ∈ kids x -> ok y) ->
  Inv k ->
  exists k',
    Inv k'
    /\ nodes_loop rec self [x] true (H k) = (Ret (existsb P (kids x)), H k').
Proof.
  intros Hne Hok Hk.
  assert (Hc : Forall (fun c => exists y ys, c = y :: ys /\ ok y)
                 (permutations (kids x))).
  { eapply Forall_impl; [by apply permutations_head|].
    intros c (y & ys & -> & Hy). exists y, ys. auto. }
  set (v0 := {| status := true; sub_status := true; sub_status_count := 0;
                test_children_properties := false; continious_matched := [];
                current_matched := 0 |}).
  destruct (candidates_loop_single _ Hc k v0 Hk eq_refl eq_refl)
    as (k' & v' & Hk' & Hl & Ht & Hres).
  exists k'. split; [done|].
  cbn [nodes_loop]. rewrite (bind_run _ _ _ _ _ (Hch k)).
  rewrite (bind_run _ _ (H k) (H k') v').
  2:{ cbv zeta. fold v0.
      assert (Hlen : (length [child] <=? length (kids x))%nat = true).
      { destruct (kids x); [done|reflexivity]. }
      rewrite Hlen, (bind_run _ _ _ _ _ Hl), Ht. reflexivity. }
  rewrite <- (existsb_heads_permutations P (kids x) Hne).
  destruct (existsb P (heads (permutations (kids x)))).
  - destruct Hres as [Hs Hn]. rewrite Hs.
    destruct (Z.ltb_spec 0 (sub_status_count v')); [reflexivity|lia].
  - destruct Hres as [Hn Hs]. rewrite Hn. rewrite andb_false_r.
    rewrite Hs. pose proof (permutations_fuel_nonempty (length (kids x)) (kids x) eq_refl) as Hp.
    unfold permutations. by destruct (permutations_fuel (length (kids x)) (kids x)).
Qed.

End Loop.

Lemma tree_height_pos (t : tree) : (1 <= tree_height t)%nat.
Proof. destruct t. cbn. lia. Qed.

(** The second half of [match] on the connection, entered with a status
    that holds and a counter of at least 1: the answer tells whether a node
    named [c] lies below the target node, and a failure gives back one
    skipped node. *)
Lemma match_children_4 (rec : loc -> tnode -> M bool) (f : nat) (x : tnode)
    (k0 : Z) :
  lo <= 1 -> 1 <= k0 ->
  (forall y k, (tree_height (snd y) <= f)%nat -> k0 <= k ->
     exists k', k <= k'
                /\ rec 5%nat y (H k) = (Ret (has_named "c" (snd y)), H k')) ->
  (tree_height (snd x) <= S f)%nat ->
  exists k',
    k0 - 1 <= k'
    /\ match_children T rec 4 x true (H k0)
       = (Ret (named_below "c" (snd x)), H k').
Proof.
  intros Hlo Hk0 Hrec Hx.
  destruct (kids x) as [|y0 ys0] eqn:Ek.
  - exists (k0 + -1). split; [lia|].
    apply kids_nil in Ek. destruct x as [p [n ts]]. cbn in Ek. subst ts.
    reflexivity.
  - destruct (nodes_loop_single rec 4%nat 5%nat
                (fun k => set_skipped k (quantified lo (-1) df))
                true default_controller true (fun k => k0 <= k)
                (fun y => has_named "c" (snd y))
                (fun y => (tree_height (snd y) <= f)%nat)
                read_children_4 read_leaf_5 read_controller_5 eq_refl
                read_controller_4 (fun _ => eq_refl)) with (x := x) (k := k0)
      as (k' & Hk' & Hl).
    + intros k Hk. cbn. apply Z.leb_le. lia.
    + intros y k Hy Hk. destruct (Hrec y k Hy Hk) as (k' & Hk' & Hr).
      exists k'. split; [lia|done].
    + by rewrite Ek.
    + intros y Hy. apply kids_height in Hy. lia.
    + lia.
    + rewrite existsb_kids in Hl. fold (named_below "c" (snd x)) in Hl.
      unfold match_children.
      rewrite (bind_run _ _ _ _ _ (read_children_4 k0)). cbn [andb negb].
      rewrite (bind_run _ _ (H k0) (H k') (named_below "c" (snd x))).
      2:{ rewrite Ek. cbn [length Nat.ltb Nat.leb].
          rewrite (bind_run _ _ (H k0) (H k0) default_controller) by done.
          unfold skip_to_nodes. rewrite Ek. cbn [length Nat.ltb Nat.leb].
          exact Hl. }
      destruct (named_below "c" (snd x)); cbn [negb andb].
      * exists k'. split; [lia|reflexivity].
      * exists (k' + -1). split; [lia|].
        rewrite (bind_run _ _ _ _ _ (read_controller_4 k')).
        cbn [c_allow_indirect_connection set_skipped quantified].
        unfold bind at 1. rewrite (write_skipped_4 k' (-1)). reflexivity.
Qed.

(** [match] on the node named [c]: some node of the target below or at the
    target node is named [c]; the counter does not go down. *)
Lemma match_5 (f : nat) :
  lo <= 1 ->
  forall (x : tnode) (k : Z),
    (tree_height (snd x) <= f)%nat -> 0 <= k ->
    exists k',
      k <= k'
      /\ match_fuel pyeval T f 5 x (H k)
         = (Ret (has_named "c" (snd x)), H k').
Proof.
  intros Hlo. induction f as [|f IH]; intros x k Hx Hk.
  { pose proof (tree_height_pos (snd x)). lia. }
  cbn [match_fuel]. unfold match_body.
  assert (Hn : has_named "c" (snd x)
               = String.eqb (node_name x) "c" || named_below "c" (snd x)).
  { unfold node_name, named_below. by destruct (snd x). }
  pose proof (match_node_5 k x) as Hm.
  destruct (String.eqb (node_name x) "c").
  - exists k. split; [lia|]. rewrite (bind_run _ _ _ _ _ Hm), Hn.
    apply match_children_5.
  - destruct (match_children_4 (match_fuel pyeval T f) f x (k + 1)) as (k' & Hk' & Hc);
      [lia|lia| |done|].
    + intros y k1 Hy Hk1. apply IH; [done|lia].
    + exists k'. split; [lia|]. by rewrite (bind_run _ _ _ _ _ Hm), Hn.
Qed.

(** [match] on a connection that wants one skipped node at least: a node
    named [c] lies below the target node. *)
Lemma match_4_first (f : nat) :
  df = false -> lo <= 1 ->
  forall (x : tnode) (k : Z),
    (tree_height (snd x) <= f)%nat -> 0 <= k ->
    exists k',
      0 <= k'
      /\ match_fuel pyeval T f 4 x (H k)
         = (Ret (named_below "c" (snd x)), H k').
Proof.
  intros Hdf Hlo x k Hx Hk. destruct f as [|f].
  { pose proof (tree_height_pos (snd x)). lia. }
  cbn [match_fuel]. unfold match_body.
  rewrite (bind_run _ _ _ _ _ (match_node_4_first Hdf k x)).
  destruct (match_children_4 (match_fuel pyeval T f) f x
              (if k =? 0 then k + 1 else k)) as (k' & Hk' & Hc);
    [lia|by destruct (Z.eqb_spec k 0); lia| |done|].
  - intros y k1 Hy Hk1. apply match_5; [done..|].
    destruct (Z.eqb_spec k 0); lia.
  - exists k'. split; [|done]. destruct (Z.eqb_spec k 0); lia.
Qed.

(** [match] on a connection that tries the direct connection first: the
    target node or a node below it is named [c]. *)
Lemma match_4_direct (f : nat) :
  df = true -> lo <= 1 ->
  forall (x : tnode) (k : Z),
    (tree_height (snd x) <= f)%nat -> 0 <= k ->
    exists k',
      0 <= k'
      /\ match_fuel pyeval T f 4 x (H k)
         = (Ret (has_named "c" (snd x)), H k').
Proof.
  intros Hdf Hlo x k Hx Hk.
  destruct (match_5 f Hlo x k Hx Hk) as (k' & Hk' & Hm).
  exists k'. split; [lia|]. rewrite <- Hm. destruct f as [|f]; [done|].
  cbn [match_fuel]. unfold match_body, bind.
  by rewrite match_node_4_direct, match_node_5.
Qed.

(** [match] on the root of the pattern, when [match] on the connection
    answers [P4]: the target node is named [a] and one of its children
    matches the connection. *)
Lemma match_3 (P4 : tree -> bool) (f : nat) (x : tnode) (k : Z) :
  (forall y k, (tree_height (snd y) <= f)%nat -> 0 <= k ->
     exists k', 0 <= k'
                /\ match_fuel pyeval T f 4 y (H k) = (Ret (P4 (snd y)), H k')) ->
  (tree_height (snd x) <= S f)%nat -> 0 <= k ->
  exists k',
    0 <= k'
    /\ match_fuel pyeval T (S f) 3 x (H k)
       = (Ret (String.eqb (node_name x) "a"
               && existsb P4 (t_children (snd x))), H k').
Proof.
  intros Hrec Hx Hk. cbn [match_fuel]. unfold match_body.
  rewrite (bind_run _ _ _ _ _ (match_node_3 k x)).
  destruct (String.eqb (node_name x) "a"); cbn [andb].
  { destruct (kids x) as [|y0 ys0] eqn:Ek.
    - exists k. split; [done|].
      apply kids_nil in Ek. destruct x as [p [n ts]]. cbn in Ek. subst ts.
      reflexivity.
    - destruct (nodes_loop_single (match_fuel pyeval T f) 3%nat 4%nat
                  (fun _ => default_controller)
                  false default_controller false (fun k => 0 <= k)
                  (fun y => P4 (snd y))
                  (fun y => (tree_height (snd y) <= f)%nat)
                  read_children_3 read_leaf_4 (fun _ => eq_refl) eq_refl
                  read_controller_3 (fun _ => eq_refl)) with (x := x) (k := k)
        as (k' & Hk' & Hl).
      + done.
      + exact Hrec.
      + by rewrite Ek.
      + intros y Hy. apply kids_height in Hy. lia.
      + done.
      + rewrite existsb_kids in Hl. exists k'. split; [done|].
        unfold match_children.
        rewrite (bind_run _ _ _ _ _ (read_children_3 k)). cbn [andb negb].
        rewrite (bind_run _ _ (H k) (H k') (existsb P4 (t_children (snd x)))).
        2:{ rewrite Ek. cbn [length Nat.ltb Nat.leb].
            rewrite (bind_run _ _ (H k) (H k) default_controller) by done.
            unfold skip_to_nodes. rewrite Ek. cbn [length Nat.ltb Nat.leb].
            exact Hl. }
        destruct (existsb P4 (t_children (snd x))); reflexivity. }
  exists k. split; [done|]. reflexivity.
Qed.

(** The loop of [find_match] over the nodes of the target, when [match] on
    the root of the pattern answers [R]: the loop ends normally, and yields
    the nodes that [R] accepts, all of them without a bound on the hits. *)
Lemma search_loop_connection (R : tree -> bool) (maxhits : option Z)
    (nodes : list tnode) :
  (forall x k, 0 <= k ->
     exists k', 0 <= k'
                /\ match_ pyeval T 3 x (H k) = (Ret (R (snd x)), H k')) ->
  forall (n k : Z), 0 <= k ->
    exists k' l,
      search_loop pyeval T 3 maxhits nodes n (H k)
      = ({| yielded := l; ending := Ret tt |}, H k')
      /\ l `prefix_of` List.filter (fun x => R (snd x)) nodes
      /\ (maxhits = None -> l = List.filter (fun x => R (snd x)) nodes).
Proof.
  intros Hm. induction nodes as [|x nodes IH]; intros n k Hk.
  - exists k, []. by cbn.
  - cbn [search_loop List.filter].
    destruct (Hm x k Hk) as (k1 & Hk1 & ->).
    set (n1 := if R (snd x) then n + 1 else n).
    destruct (IH n1 k1 Hk1) as (k2 & l & E & Hp & Hn).
    destruct (match maxhits with Some m => m <=? n1 | None => false end) eqn:Es.
    + exists k1, (if R (snd x) then [x] else []). split; [done|].
      split; [|by intros ->].
      destruct (R (snd x)); [|apply prefix_nil].
      by apply prefix_cons, prefix_nil.
    + rewrite E. cbn [yielded ending].
      exists k2, (if R (snd x) then x :: l else l). split; [done|].
      destruct (R (snd x)); (split; [|by intros ->%Hn]);
        [by apply prefix_cons|done].
Qed.

End Connection.

(** ** Searching with a connection pattern *)

(** The search with the pattern [((c)q)a], when its copy compiles to the
    store of a connection and [match] on the root of the copy answers [R]. *)
Lemma find_match_connection SET pyeval T (q : string) (lo : Z) (df : bool)
    (R : tree -> bool) (maxhits : option Z) (strat : strategy) :
  set_controllers default_symbols SET [3%nat; 4%nat; 5%nat] false
    [ fresh_obj "a" [1%nat] None DefaultSyntax;
      fresh_obj q [2%nat] (Some 0%nat) DefaultSyntax;
      fresh_obj "c" [] (Some 1%nat) DefaultSyntax;
      fresh_obj "a" [4%nat] None DefaultSyntax;
      fresh_obj q [5%nat] (Some 3%nat) DefaultSyntax;
      fresh_obj "c" [] (Some 4%nat) DefaultSyntax ]
  = (Ret false, connection_heap q lo df 0) ->
  (forall x k, 0 <= k ->
     exists k', 0 <= k'
                /\ match_ pyeval T 3 x (connection_heap q lo df k)
                   = (Ret (R (snd x)), connection_heap q lo df k')) ->
  let '(h, p) := TreePattern_init DefaultSyntax (connection_pattern q) [] in
  let s := fst (find_match default_symbols SET pyeval T p maxhits strat h) in
  let l := List.filter (fun x => R (snd x)) (traverse strat ([], T)) in
  ending s = Ret tt
  /\ yielded s `prefix_of` l
  /\ (maxhits = None -> yielded s = l)
  /\ (forall k, maxhits = Some k -> 1 <= k -> yielded s = take (Z.to_nat k) l).
Proof.
  intros Hc Hm.
  change (TreePattern_init DefaultSyntax (connection_pattern q) [])
    with ([ fresh_obj "a" [1%nat] None DefaultSyntax;
            fresh_obj q [2%nat] (Some 0%nat) DefaultSyntax;
            fresh_obj "c" [] (Some 1%nat) DefaultSyntax ], 0%nat).
  pose proof (deepcopy_connection q) as Hd.
  change (TreePattern_init DefaultSyntax (connection_pattern q) [])
    with ([ fresh_obj "a" [1%nat] None DefaultSyntax;
            fresh_obj q [2%nat] (Some 0%nat) DefaultSyntax;
            fresh_obj "c" [] (Some 1%nat) DefaultSyntax ], 0%nat) in Hd.
  cbv beta iota zeta in Hd |- *.
  assert (E : forall mh,
             find_match default_symbols SET pyeval T 0 mh strat
               [ fresh_obj "a" [1%nat] None DefaultSyntax;
                 fresh_obj q [2%nat] (Some 0%nat) DefaultSyntax;
                 fresh_obj "c" [] (Some 1%nat) DefaultSyntax ]
             = search_loop pyeval T 3 mh (traverse strat ([], T)) 0
                 (connection_heap q lo df 0)).
  { intros mh. unfold find_match. rewrite Hd.
    change (ptraverse _ 3) with [3%nat; 4%nat; 5%nat]. by rewrite Hc. }
  rewrite E.
  destruct (search_loop_connection pyeval T q lo df R maxhits
              (traverse strat ([], T)) Hm 0 0 (Z.le_refl 0))
    as (k1 & l1 & E1 & Hp & Hn).
  rewrite E1. cbn [fst yielded ending].
  split; [done|]. split; [done|]. split; [done|].
  intros k -> Hk.
  destruct (search_loop_connection pyeval T q lo df R None
              (traverse strat ([], T)) Hm 0 0 (Z.le_refl 0))
    as (k2 & l2 & E2 & _ & Hl).
  specialize (Hl eq_refl). subst l2.
  pose proof (search_loop_prefix pyeval T 3 k (traverse strat ([], T)) 0
                (connection_heap q lo df 0)) as Hpre.
  rewrite E1, E2, Z.sub_0_r in Hpre. apply Hpre. lia.
Qed.
(** [match] on the root of the compiled pattern [((c)+)a]. *)
Lemma match_one_or_more pyeval T (x : tnode) (k : Z) :
  0 <= k ->
  exists k',
    0 <= k'
    /\ match_ pyeval T 3 x (connection_heap "+" 1 false k)
       = (Ret (one_or_more_match (snd x)), connection_heap "+" 1 false k').
Proof.
  intros Hk. unfold match_.
  apply (match_3 pyeval T "+" 1 false (named_below "c")); [|lia|done].
  intros y k1 Hy Hk1. by apply match_4_first.
Qed.

(** [match] on the root of the compiled pattern with a star. *)
Lemma match_zero_or_more pyeval T (x : tnode) (k : Z) :
  0 <= k ->
  exists k',
    0 <= k'
    /\ match_ pyeval T 3 x (connection_heap "*" 0 true k)
       = (Ret (zero_or_more_match (snd x)), connection_heap "*" 0 true k').
Proof.
  intros Hk. unfold match_.
  apply (match_3 pyeval T "*" 0 true (has_named "c")); [|lia|done].
  intros y k1 Hy Hk1. by apply match_4_direct.
Qed.

(** The root of the target is a node of every traversal, and the first node
    in preorder. *)
Lemma traverse_root (strat : strategy) (T : tree) :
  In ([], T) (traverse strat ([], T)).
Proof.
  destruct strat; cbn [traverse fst snd].
  - destruct T. cbn [traverse_preorder]. by left.
  - unfold traverse_levelorder. cbn [snd]. destruct T. cbn. by left.
  - destruct T. cbn [traverse_postorder]. apply in_or_app. right. by left.
Qed.

Lemma traverse_preorder_root (T : tree) :
  exists rest, traverse preorder ([], T) = ([], T) :: rest.
Proof. destruct T. cbn. by eexists. Qed.

(** A chain that ends in a node named [n] has a node named [n]. *)
Lemma has_named_chain (n : string) (names : list string) (sub : list tree) :
  has_named n (chain names (Node n sub)) = true.
Proof.
  induction names as [|m names IH].
  - cbn. by rewrite String.eqb_refl.
  - cbn [chain has_named existsb]. rewrite IH. by rewrite orb_true_r.
Qed.

Lemma existsb_middle {A : Type} (f : A -> bool) (l1 l2 : list A) (a : A) :
  f a = true -> existsb f (l1 ++ a :: l2) = true.
Proof.
  intros Ha. rewrite existsb_app. cbn. rewrite Ha. by rewrite orb_true_r.
Qed.

(** What the search yields when the root of the target is accepted. *)
Lemma yielded_root (R : tree -> bool) (T : tree) :
  R T = true ->
  (forall strat,
     In ([], T) (List.filter (fun x => R (snd x)) (traverse strat ([], T))))
  /\ take 1 (List.filter (fun x => R (snd x)) (traverse preorder ([], T)))
     = [([], T)].
Proof.
  intros HR. split.
  - intros strat. apply filter_In. split; [apply traverse_root|done].
  - destruct (traverse_preorder_root T) as [rest ->].
    cbn [List.filter snd]. by rewrite HR.
Qed.

(** A node whose children are all leaves has no node named [c] below one
    of its children. *)
Lemma one_or_more_match_leaves (t : tree) :
  Forall (fun y => t_children y = []) (t_children t) ->
  one_or_more_match t = false.
Proof.
  intros Hl. unfold one_or_more_match.
  assert (E : existsb (named_below "c") (t_children t) = false);
    [|by rewrite E, andb_false_r].
  induction Hl as [|y ys Hy Hys IH]; [done|].
  cbn [existsb]. rewrite IH. unfold named_below. by rewrite Hy.
Qed.

(** The store that the constructor makes of a connection pattern, in a
    statement and in the hypothesis [F]. *)
Ltac open_connection F :=
  match goal with
  | |- context [TreePattern_init DefaultSyntax (connection_pattern ?q) []] =>
      change (TreePattern_init DefaultSyntax (connection_pattern q) [])
        with ([ fresh_obj "a" [1%nat] None DefaultSyntax;
                fresh_obj q [2%nat] (Some 0%nat) DefaultSyntax;
                fresh_obj "c" [] (Some 1%nat) DefaultSyntax ], 0%nat)
        in F |- *
  end;
  cbv beta iota zeta in F |- *.

(** C1: the search with the pattern [((c)+)a], compiled by [find_match].
    Whatever the target, the bound on the hits and the order of the
    traversal, the search ends normally and every node it yields is named [a]
    and has a node named [c] below one of its children, so a node whose
    children are all leaves, a direct child named [c] among them, is not
    yielded; without a bound the search yields all such nodes.  When a chain
    of one or more nodes with a single child each lies between the root [a]
    of the target and a node named [c], the root is yielded.  On the targets
    [((c,g)a)] and [(c,g)a] the search yields nothing. *)
Theorem one_or_more_connection SET pyeval :
  markers_absent SET connection_names = true ->
  let '(h, p) := TreePattern_init DefaultSyntax (connection_pattern "+") [] in
  (forall T maxhits strat,
     let s := fst (find_match default_symbols SET pyeval T p maxhits strat h) in
     ending s = Ret tt
     /\ (forall x, In x (yielded s) ->
           one_or_more_match (snd x) = true
           /\ ~ Forall (fun y => t_children y = []) (t_children (snd x)))
     /\ (maxhits = None ->
         yielded s
         = List.filter (fun x => one_or_more_match (snd x))
             (traverse strat ([], T))))
  /\ (forall (n1 : string) (names : list string) (sub l1 l2 : list tree) strat,
        let T := Node "a" (l1 ++ chain (n1 :: names) (Node "c" sub) :: l2) in
        In ([], T)
           (yielded (fst (find_match default_symbols SET pyeval T p None
                            strat h)))
        /\ yielded (fst (find_match default_symbols SET pyeval T p (Some 1)
                           preorder h))
           = [([], T)])
  /\ (forall maxhits strat,
        fst (find_match default_symbols SET pyeval (Node "" [cg_target]) p
               maxhits strat h)
        = {| yielded := []; ending := Ret tt |}
        /\ fst (find_match default_symbols SET pyeval cg_target p maxhits
                  strat h)
           = {| yielded := []; ending := Ret tt |}).
Proof.
  intros Hm.
  assert (F : forall T maxhits strat,
             let '(h, p) :=
               TreePattern_init DefaultSyntax (connection_pattern "+") [] in
             let s := fst (find_match default_symbols SET pyeval T p maxhits
                             strat h) in
             let l := List.filter (fun x => one_or_more_match (snd x))
                        (traverse strat ([], T)) in
             ending s = Ret tt
             /\ yielded s `prefix_of` l
             /\ (maxhits = None -> yielded s = l)
             /\ (forall k, maxhits = Some k -> 1 <= k ->
                   yielded s = take (Z.to_nat k) l)).
  { intros T maxhits strat.
    apply (find_match_connection SET pyeval T "+" 1 false one_or_more_match).
    - by apply compile_one_or_more.
    - apply match_one_or_more. }
  open_connection F.
  split; [|split].
  - intros T maxhits strat. destruct (F T maxhits strat) as (He & Hp & Hn & _).
    split; [done|]. split; [|done].
    intros x Hx.
    assert (Hr : one_or_more_match (snd x) = true).
    { destruct Hp as [l' Hp].
      assert (Hin : In x (List.filter (fun x => one_or_more_match (snd x))
                            (traverse strat ([], T)))).
      { rewrite Hp. apply in_or_app. by left. }
      by apply filter_In in Hin as [_ Hin]. }
    split; [done|]. intros Hl. apply one_or_more_match_leaves in Hl. congruence.
  - intros n1 names sub l1 l2 strat.
    set (T := Node "a" (l1 ++ chain (n1 :: names) (Node "c" sub) :: l2)).
    assert (HR : one_or_more_match T = true).
    { unfold one_or_more_match. cbn [t_name t_children andb String.eqb Ascii.eqb Bool.eqb].
      apply existsb_middle. unfold named_below. cbn [chain t_children existsb].
      by rewrite has_named_chain. }
    destruct (yielded_root one_or_more_match T HR) as [Hall Hfirst].
    split.
    + destruct (F T None strat) as (_ & _ & Hn & _).
      rewrite (Hn eq_refl). apply Hall.
    + destruct (F T (Some 1) preorder) as (_ & _ & _ & Hk).
      rewrite (Hk 1 eq_refl (Z.le_refl 1)). exact Hfirst.
  - intros maxhits strat.
    assert (E : forall T,
               List.filter (fun x => one_or_more_match (snd x))
                 (traverse strat ([], T)) = [] ->
               fst (find_match default_symbols SET pyeval T 0 maxhits strat
                      [ fresh_obj "a" [1%nat] None DefaultSyntax;
                        fresh_obj "+" [2%nat] (Some 0%nat) DefaultSyntax;
                        fresh_obj "c" [] (Some 1%nat) DefaultSyntax ])
               = {| yielded := []; ending := Ret tt |}).
    { intros T Hnil. destruct (F T maxhits strat) as (He & Hp & _).
      rewrite Hnil in Hp. apply prefix_nil_inv in Hp.
      destruct (fst _) as [ys e]. cbn in *. by subst. }
    split; apply E; by destruct strat.
Qed.

Lemma one_or_more_connection_witness :
  markers_absent sample_sets connection_names = true
  /\ (let '(h, p) :=
        TreePattern_init DefaultSyntax (connection_pattern "+") [] in
      fst (find_match default_symbols sample_sets no_oracle
             (Node "" [cg_target]) p (Some 1) preorder h)
      = {| yielded := []; ending := Ret tt |}
      /\ yielded (fst (find_match default_symbols sample_sets no_oracle
                         (Node "a" [chain ["b"] (Node "c" [])]) p (Some 1)
                         preorder h))
         = [([], Node "a" [chain ["b"] (Node "c" [])])]).
Proof.
  split; [reflexivity|].
  pose proof (one_or_more_connection sample_sets no_oracle eq_refl) as W.
  open_connection W.
  destruct W as (_ & W2 & W3). split.
  - exact (proj1 (W3 (Some 1) preorder)).
  - exact (proj2 (W2 "b" [] [] [] [] preorder)).
Defined.

(** C2: the search with the pattern with a star, compiled by [find_match].
    Whatever the target, the bound on the hits and the order of the
    traversal, the search ends normally and every node it yields is named [a]
    and has a node named [c] below it; without a bound the search yields all
    such nodes.  The root [a] of the target is yielded when a node named [c]
    is one of its children (no names in the chain) and when a chain of any
    number of nodes with a single child each lies between the two. *)
Theorem zero_or_more_connection SET pyeval :
  markers_absent SET connection_names = true ->
  let '(h, p) := TreePattern_init DefaultSyntax (connection_pattern "*") [] in
  (forall T maxhits strat,
     let s := fst (find_match default_symbols SET pyeval T p maxhits strat h) in
     ending s = Ret tt
     /\ (forall x, In x (yielded s) -> zero_or_more_match (snd x) = true)
     /\ (maxhits = None ->
         yielded s
         = List.filter (fun x => zero_or_more_match (snd x))
             (traverse strat ([], T))))
  /\ (forall (sub l1 l2 : list tree) strat,
        let T := Node "a" (l1 ++ Node "c" sub :: l2) in
        In ([], T)
           (yielded (fst (find_match default_symbols SET pyeval T p None
                            strat h)))
        /\ yielded (fst (find_match default_symbols SET pyeval T p (Some 1)
                           preorder h))
           = [([], T)])
  /\ (forall (names : list string) (sub l1 l2 : list tree) strat,
        let T := Node "a" (l1 ++ chain names (Node "c" sub) :: l2) in
        In ([], T)
           (yielded (fst (find_match default_symbols SET pyeval T p None
                            strat h)))
        /\ yielded (fst (find_match default_symbols SET pyeval T p (Some 1)
                           preorder h))
           = [([], T)]).
Proof.
  intros Hm.
  assert (F : forall T maxhits strat,
             let '(h, p) :=
               TreePattern_init DefaultSyntax (connection_pattern "*") [] in
             let s := fst (find_match default_symbols SET pyeval T p maxhits
                             strat h) in
             let l := List.filter (fun x => zero_or_more_match (snd x))
                        (traverse strat ([], T)) in
             ending s = Ret tt
             /\ yielded s `prefix_of` l
             /\ (maxhits = None -> yielded s = l)
             /\ (forall k, maxhits = Some k -> 1 <= k ->
                   yielded s = take (Z.to_nat k) l)).
  { intros T maxhits strat.
    apply (find_match_connection SET pyeval T "*" 0 true zero_or_more_match).
    - by apply compile_zero_or_more.
    - apply match_zero_or_more. }
  open_connection F.
  assert (G : forall (names : list string) (sub l1 l2 : list tree) strat,
             let T := Node "a" (l1 ++ chain names (Node "c" sub) :: l2) in
             In ([], T)
               (yielded (fst (find_match default_symbols SET pyeval T 0 None
                                strat
                                [ fresh_obj "a" [1%nat] None DefaultSyntax;
                                  fresh_obj "*" [2%nat] (Some 0%nat) DefaultSyntax;
                                  fresh_obj "c" [] (Some 1%nat) DefaultSyntax ])))
             /\ yielded (fst (find_match default_symbols SET pyeval T 0 (Some 1)
                                preorder
                                [ fresh_obj "a" [1%nat] None DefaultSyntax;
                                  fresh_obj "*" [2%nat] (Some 0%nat) DefaultSyntax;
                                  fresh_obj "c" [] (Some 1%nat) DefaultSyntax ]))
                = [([], T)]).
  { intros names sub l1 l2 strat T.
    assert (HR : zero_or_more_match T = true).
    { unfold zero_or_more_match, named_below.
      cbn [t_name t_children andb String.eqb Ascii.eqb Bool.eqb].
      apply existsb_middle, has_named_chain. }
    destruct (yielded_root zero_or_more_match T HR) as [Hall Hfirst].
    split.
    + destruct (F T None strat) as (_ & _ & Hn & _).
      rewrite (Hn eq_refl). apply Hall.
    + destruct (F T (Some 1) preorder) as (_ & _ & _ & Hk).
      rewrite (Hk 1 eq_refl (Z.le_refl 1)). exact Hfirst. }
  split; [|split].
  - intros T maxhits strat. destruct (F T maxhits strat) as (He & Hp & Hn & _).
    split; [done|]. split; [|done].
    intros x Hx. destruct Hp as [l' Hp].
    assert (Hin : In x (List.filter (fun x => zero_or_more_match (snd x))
                          (traverse strat ([], T)))).
    { rewrite Hp. apply in_or_app. by left. }
    by apply filter_In in Hin as [_ Hin].
  - intros sub l1 l2 strat. apply (G [] sub l1 l2 strat).
  - exact G.
Qed.

Lemma zero_or_more_connection_witness :
  markers_absent sample_sets connection_names = true
  /\ (let '(h, p) :=
        TreePattern_init DefaultSyntax (connection_pattern "*") [] in
      yielded (fst (find_match default_symbols sample_sets no_oracle
                      cg_target p (Some 1) preorder h))
      = [([], cg_target)]
      /\ yielded (fst (find_match default_symbols sample_sets no_oracle
                         (Node "a" [chain ["b"; "d"] (Node "c" [])]) p (Some 1)
                         preorder h))
         = [([], Node "a" [chain ["b"; "d"] (Node "c" [])])]).
Proof.
  split; [reflexivity|].
  pose proof (zero_or_more_connection sample_sets no_oracle eq_refl) as W.
  open_connection W.
  destruct W as (_ & W2 & W3). split.
  - exact (proj2 (W2 [] [] [Node "g" []] preorder)).
  - exact (proj2 (W3 ["b"; "d"] [] [] [] preorder)).
Defined.

(** ** What a search yields *)

Lemma search_loop_sublist pyeval T (pattern : loc) (maxhits : option Z)
    (nodes : list tnode) :
  forall (n : Z) (h : heap),
    yielded (fst (search_loop pyeval T pattern maxhits nodes n h))
      `sublist_of` nodes.
Proof.
  induction nodes as [|x nodes IH]; intros n h; [done|].
  cbn [search_loop].
  destruct (match_ pyeval T pattern x h) as [[b|e|] h1];
    [|apply sublist_nil_l..].
  set (n1 := if b then n + 1 else n).
  destruct (match maxhits with Some k => k <=? n1 | None => false end).
  - cbn [fst yielded]. destruct b; [|apply sublist_nil_l].
    apply sublist_skip, sublist_nil_l.
  - specialize (IH n1 h1).
    destruct (search_loop pyeval T pattern maxhits nodes n1 h1) as [s h2].
    cbn [fst yielded] in *. destruct b; [by apply sublist_skip|].
    by apply sublist_cons.
Qed.

Lemma collect_loop_sublist pyeval T (pattern : loc) (nodes : list tnode) :
  forall (matched l : list tnode) (h h' : heap),
    collect_loop pyeval T pattern nodes matched h = (Ret l, h') ->
    exists l', l = (matched ++ l')%list /\ l' `sublist_of` nodes.
Proof.
  induction nodes as [|x nodes IH]; intros matched l h h' H.
  - cbn in H. injection H as <- _. exists []. by rewrite app_nil_r.
  - cbn [collect_loop] in H. unfold bind in H.
    destruct (match_ pyeval T pattern x h) as [[b|e|] h1]; [|done..].
    apply IH in H as (l' & -> & Hl'). destruct b.
    + exists (x :: l'). rewrite <- app_assoc. split; [done|].
      by apply sublist_skip.
    + exists l'. split; [done|]. by apply sublist_cons.
Qed.

(** The nodes that [find_match] yields are nodes of the target, in the order
    of the traversal and each at most as often as the traversal visits it:
    whatever the pattern, the bound on the hits and the way the search
    ends, the yielded nodes are a sublist of the traversal of the target. *)
Theorem find_match_yields_traversed ST SET pyeval T (self : loc)
    (maxhits : option Z) (strat : strategy) (h : heap) :
  yielded (fst (find_match ST SET pyeval T self maxhits strat h))
    `sublist_of` traverse strat ([], T).
Proof.
  unfold find_match. destruct (deepcopy self h) as [h1 p].
  destruct (set_controllers ST SET (ptraverse h1 p) false h1)
    as [[single|e|] h2]; [|apply sublist_nil_l..].
  destruct single; [|apply search_loop_sublist].
  unfold bind.
  destruct (collect_loop pyeval T p (traverse strat ([], T)) [] h2)
    as [[matched|e|] h3] eqn:Ec; [|apply sublist_nil_l..].
  destruct (find_extreme_case SET pyeval T p matched h3)
    as [[node|e|] h4] eqn:Ee; [|apply sublist_nil_l..].
  cbn [fst yielded]. apply singleton_sublist_l.
  apply find_extreme_case_returns in Ee.
  apply collect_loop_sublist in Ec as (l' & -> & Hl').
  cbn [app] in Ee. by eapply elem_of_sublist.
Qed.

(** ** The compiler: the loop over the metacharacters *)

Lemma py_take_length (n : nat) (s : string) :
  (n <= String.length s)%nat -> String.length (Py.take n s) = n.
Proof.
  revert s. induction n as [|n IH]; intros [|c s] H; cbn in *; try lia.
  rewrite IH; lia.
Qed.

Lemma py_take_prefix (n : nat) (s : string) :
  String.prefix (Py.take n s) s = true.
Proof.
  revert s. induction n as [|n IH]; intros [|c s]; cbn; try done.
  destruct (ascii_dec c c); [apply IH|congruence].
Qed.

Lemma slice_from_start (a : nat) (s : string) :
  (a <= String.length s)%nat -> Py.slice 0 (Z.of_nat a) s = Py.take a s.
Proof.
  intros H. change 0 with (Z.of_nat 0). rewrite slice_of_nat by lia.
  cbn [Py.drop]. by rewrite Nat.sub_0_r.
Qed.

Lemma find_char_bound (c : ascii) (s : string) :
  Py.mem_char c s = true ->
  0 <= Py.find_char c s < Z.of_nat (String.length s).
Proof.
  induction s as [|d s IH]; [done|]. cbn [Py.mem_char Py.find_char String.length].
  destruct (Ascii.eqb c d); [lia|]. cbn [orb]. intros H. specialize (IH H).
  destruct (Z.ltb_spec (Py.find_char c s) 0); lia.
Qed.

Lemma last_char_None (s : string) : Py.last_char s = None -> s = EmptyString.
Proof.
  induction s as [|c s IH]; [done|]. cbn [Py.last_char].
  destruct s as [|d s]; [done|]. intros H. by apply IH in H.
Qed.

Lemma last_char_length (s : string) (c : ascii) :
  Py.last_char s = Some c -> (0 < String.length s)%nat.
Proof. destruct s; [done|]. cbn. lia. Qed.

Lemma string_prefix_trans (x y z : string) :
  String.prefix x y = true -> String.prefix y z = true ->
  String.prefix x z = true.
Proof.
  revert y z. induction x as [|c x IH]; intros [|d y] [|e z]; cbn; try done.
  destruct (ascii_dec c d) as [->|]; [|done].
  destruct (ascii_dec d e) as [->|]; [|done].
  destruct (ascii_dec e e); [apply IH|congruence].
Qed.

Lemma string_prefix_refl (x : string) : String.prefix x x = true.
Proof.
  induction x as [|c x IH]; [done|]. cbn.
  destruct (ascii_dec c c); [done|congruence].
Qed.

(** One iteration of the loop: the name it goes on with is a proper prefix
    of the name. *)
Lemma parse_step_shorter (ST : symbols) (name : string) (c : ascii) :
  Py.last_char name = Some c ->
  let o := sym_defined_number_set_start ST in
  let name' :=
    if Py.mem_char o name then Py.slice 0 (Py.find_char o name) name
    else Py.slice 0 (Z.of_nat (String.length name) - 1) name in
  (String.length name' < String.length name)%nat
  /\ String.prefix name' name = true.
Proof.
  intros Hl o name'. pose proof (last_char_length _ _ Hl) as Hlen.
  subst name'. destruct (Py.mem_char o name) eqn:Em.
  - pose proof (find_char_bound _ _ Em) as Hb.
    rewrite <- (Z2Nat.id (Py.find_char o name)) by lia.
    rewrite slice_from_start by lia.
    rewrite py_take_length by lia. split; [lia|apply py_take_prefix].
  - replace (Z.of_nat (String.length name) - 1)
      with (Z.of_nat (String.length name - 1)) by lia.
    rewrite slice_from_start by lia.
    rewrite py_take_length by lia. split; [lia|apply py_take_prefix].
Qed.

(** The loop stops before the fuel runs out when the fuel is the length of
    the name at least. *)
Lemma parse_loop_fuel (ST : symbols) (f1 : nat) :
  forall (f2 : nat) (name : string) (ms : list string),
    (String.length name <= f1)%nat -> (String.length name <= f2)%nat ->
    parse_metacharacters_loop ST f1 name ms
    = parse_metacharacters_loop ST f2 name ms.
Proof.
  induction f1 as [|f1 IH]; intros f2 name ms H1 H2.
  - destruct name; [|cbn in H1; lia]. by destruct f2.
  - destruct f2 as [|f2].
    { destruct name; [done|cbn in H2; lia]. }
    cbn [parse_metacharacters_loop].
    destruct (Py.last_char name) as [c|] eqn:El; [|done].
    destruct (in_values ST c); [|done].
    destruct (parse_step_shorter ST name c El) as [Hs _].
    destruct (Py.mem_char (sym_defined_number_set_start ST) name);
      apply IH; lia.
Qed.

(** What the loop returns: a prefix of the name that is empty or ends with
    a character that is no symbol. *)
Lemma parse_loop_result (ST : symbols) (fuel : nat) :
  forall (name : string) (ms : list string),
    (String.length name <= fuel)%nat ->
    let name' := fst (parse_metacharacters_loop ST fuel name ms) in
    String.prefix name' name = true
    /\ match Py.last_char name' with
       | Some c => in_values ST c = false
       | None => name' = EmptyString
       end.
Proof.
  induction fuel as [|fuel IH]; intros name ms Hf name'; subst name'.
  - destruct name; [done|cbn in Hf; lia].
  - cbn [parse_metacharacters_loop].
    destruct (Py.last_char name) as [c|] eqn:El.
    2:{ cbn [fst]. rewrite El. split; [apply string_prefix_refl|].
        by apply last_char_None. }
    destruct (in_values ST c) eqn:Ec.
    2:{ cbn [fst]. rewrite El. split; [apply string_prefix_refl|done]. }
    destruct (parse_step_shorter ST name c El) as [Hs Hp].
    destruct (Py.mem_char (sym_defined_number_set_start ST) name);
      match goal with
      | |- context [parse_metacharacters_loop ST fuel ?n ?m] =>
          destruct (IH n m) as [Hp' Hl']; [lia|]
      end;
      (split; [by eapply string_prefix_trans|done]).
Qed.

(** The name [parse_metacharacters] leaves on the node is never empty: it is
    a prefix of the label that ends with a character that is no symbol, or
    the node reference alone when the loop has consumed the whole label.
    The loop ends within [len(name)] iterations: more fuel gives the same
    result. *)
Theorem parse_metacharacters_residue (ST : symbols) (name : string) :
  let name' := fst (parse_metacharacters ST name) in
  name' <> EmptyString
  /\ (name' = String (sym_node_reference ST) EmptyString
      \/ String.prefix name' name = true
         /\ exists c, Py.last_char name' = Some c /\ in_values ST c = false)
  /\ (forall fuel : nat,
        (String.length name <= fuel)%nat ->
        parse_metacharacters_loop ST fuel name []
        = parse_metacharacters_loop ST (String.length name) name []).
Proof.
  intros name'. subst name'.
  assert (Hfuel : forall fuel : nat,
             (String.length name <= fuel)%nat ->
             parse_metacharacters_loop ST fuel name []
             = parse_metacharacters_loop ST (String.length name) name [])
    by (intros fuel Hf; by apply parse_loop_fuel).
  split; [|split; [|exact Hfuel]]; unfold parse_metacharacters;
    pose proof (parse_loop_result ST (String.length name) name [] (le_n _))
      as [Hp Hl];
    destruct (parse_metacharacters_loop ST (String.length name) name [])
      as [n ms]; cbn [fst] in *.
  - by destruct n.
  - destruct n as [|d n]; [by left|]. right. cbn [fst]. split; [done|].
    destruct (Py.last_char (String d n)) as [c|]; [by exists c|done].
Qed.

Lemma slice_middle (x y z : string) :
  Py.slice (Z.of_nat (String.length x))
           (Z.of_nat (String.length x + String.length y)) (x ++ y ++ z) = y.
Proof.
  rewrite slice_of_nat.
  - rewrite py_drop_app.
    replace (String.length x + String.length y - String.length x)%nat
      with (String.length y) by lia.
    apply py_take_app.
  - rewrite string_length_app. lia.
  - rewrite !string_length_app. lia.
Qed.

(** The first iteration of the loop on a label with a bounded marker. *)
Lemma parse_loop_braces (ST : symbols) (r body t : string) (c : ascii)
    (fuel : nat) (ms : list string) :
  sym_defined_number_set_start ST <> sym_defined_number_set_end ST ->
  Py.mem_char (sym_defined_number_set_start ST) r = false ->
  Py.mem_char (sym_defined_number_set_end ST) r = false ->
  Py.mem_char (sym_defined_number_set_end ST) body = false ->
  Py.last_char (String (sym_defined_number_set_end ST) t) = Some c ->
  in_values ST c = true ->
  parse_metacharacters_loop ST (S fuel)
    (r ++ String (sym_defined_number_set_start ST)
            (body ++ String (sym_defined_number_set_end ST) t)) ms
  = parse_metacharacters_loop ST fuel r (ms ++ [braces ST body])%list.
Proof.
  intros Hne Hor Her Hbody Hl Hc. unfold braces.
  remember (sym_defined_number_set_start ST) as o eqn:Eo.
  remember (sym_defined_number_set_end ST) as e eqn:Ee.
  set (name := r ++ String o (body ++ String e t)).
  assert (El : Py.last_char name = Some c).
  { subst name. rewrite last_char_app.
    change (String o (body ++ String e t)) with (String o body ++ String e t).
    by rewrite last_char_app. }
  assert (Em : Py.mem_char o name = true).
  { subst name. rewrite mem_char_app. cbn [Py.mem_char].
    by rewrite Ascii.eqb_refl, orb_true_r. }
  assert (Ea : Py.find_char o name = Z.of_nat (String.length r)).
  { subst name. by apply find_char_app. }
  assert (Eb : Py.find_char e name + 1
               = Z.of_nat (String.length r
                           + String.length (String o (body ++ String e "")))).
  { subst name.
    change (String o (body ++ String e t)) with (String o body ++ String e t).
    rewrite <- string_app_assoc, find_char_app.
    - rewrite !string_length_app. cbn [String.length].
      rewrite string_length_app. cbn [String.length]. lia.
    - rewrite mem_char_app, Her. cbn [Py.mem_char orb].
      rewrite Hbody, orb_false_r.
      destruct (Ascii.eqb_spec e o); [by subst|done]. }
  assert (En : name = r ++ String o (body ++ String e "") ++ t).
  { subst name. f_equal. rewrite string_app_cons. f_equal.
    by rewrite string_app_assoc. }
  cbn [parse_metacharacters_loop]. rewrite <- Eo, <- Ee.
  fold name. rewrite El, Hc, Em, Ea, Eb.
  f_equal.
  - subst name. apply slice_prefix.
  - f_equal. f_equal. rewrite En. apply slice_middle.
Qed.

(** What follows a bounded marker in a label is dropped: the first iteration
    of the loop cuts the name at the opening brace and keeps the text up to
    the closing brace as the only metacharacter of that iteration, so a
    quantifier or an anchor written after the marker has no effect. *)
Theorem text_after_bounded_marker_is_dropped (ST : symbols)
    (r body t : string) (c : ascii) :
  sym_defined_number_set_start ST <> sym_defined_number_set_end ST ->
  Py.mem_char (sym_defined_number_set_start ST) r = false ->
  Py.mem_char (sym_defined_number_set_end ST) r = false ->
  Py.mem_char (sym_defined_number_set_end ST) body = false ->
  Py.last_char t = Some c ->
  in_values ST c = true ->
  parse_metacharacters ST (r ++ braces ST body ++ t)
  = parse_metacharacters ST (r ++ braces ST body)
  /\ label_controller ST (r ++ braces ST body ++ t)
     = label_controller ST (r ++ braces ST body).
Proof.
  intros Hne Hor Her Hbody Ht Hc.
  assert (He : in_values ST (sym_defined_number_set_end ST) = true)
    by (apply in_values_In; cbn; tauto).
  assert (E1 : r ++ braces ST body ++ t
               = r ++ String (sym_defined_number_set_start ST)
                        (body ++ String (sym_defined_number_set_end ST) t)).
  { unfold braces. f_equal. rewrite string_app_cons. f_equal.
    by rewrite string_app_assoc. }
  assert (Hl : Py.last_char (String (sym_defined_number_set_end ST) t) = Some c).
  { destruct t as [|d t]; [done|]. exact Ht. }
  assert (E : parse_metacharacters ST (r ++ braces ST body ++ t)
              = parse_metacharacters ST (r ++ braces ST body)).
  { unfold parse_metacharacters. rewrite E1.
    set (n1 := r ++ String _ (body ++ String _ t)).
    rewrite <- (parse_loop_fuel ST (S (String.length n1)) (String.length n1)
                  n1 []) by lia.
    set (n2 := r ++ braces ST body).
    rewrite <- (parse_loop_fuel ST (S (String.length n2)) (String.length n2)
                  n2 []) by lia.
    subst n1 n2. rewrite (parse_loop_braces ST r body t c) by done.
    unfold braces at 2.
    rewrite (parse_loop_braces ST r body "" (sym_defined_number_set_end ST))
      by done.
    rewrite (parse_loop_fuel ST _ (String.length r)), 
      (parse_loop_fuel ST (String.length (r ++ braces ST body))
         (String.length r)); [done|..];
      rewrite ?string_length_app; lia. }
  split; [exact E|].
  unfold label_controller. rewrite E.
  assert (N1 : r ++ braces ST body ++ t <> "") by (unfold braces; by destruct r).
  assert (N2 : r ++ braces ST body <> "") by (unfold braces; by destruct r).
  destruct (r ++ braces ST body ++ t); [done|].
  destruct (r ++ braces ST body); [done|]. done.
Qed.

Lemma text_after_bounded_marker_is_dropped_witness :
  parse_metacharacters default_symbols "c{1-3}+$"
  = parse_metacharacters default_symbols "c{1-3}"
  /\ label_controller default_symbols "c{1-3}+$"
     = label_controller default_symbols "c{1-3}".
Proof.
  apply (text_after_bounded_marker_is_dropped default_symbols "c" "1-3" "+$"
           "$"%char); (reflexivity || discriminate).
Defined.

(** ** The compiler: symbols at the end of a label *)

Lemma string_snoc_ind (P : string -> Prop) :
  P EmptyString ->
  (forall (s : string) (c : ascii), P s -> P (s ++ String c EmptyString)) ->
  forall s, P s.
Proof.
  intros H0 Hs s.
  assert (G : forall (n : nat) (s : string), String.length s = n -> P s).
  { clear s. induction n as [|n IH]; intros s Hn.
    - by destruct s.
    - destruct s as [|c s]; [done|]. injection Hn as Hn.
      assert (E : exists (s' : string) (d : ascii),
                 String c s = s' ++ String d "" /\ String.length s' = n).
      { clear IH. revert c n Hn. induction s as [|e s IHs]; intros c n Hn.
        - exists "", c. by subst.
        - destruct n as [|n]; [done|]. injection Hn as Hn.
          destruct (IHs e n Hn) as (s' & d & E & Hl).
          exists (String c s'), d. rewrite string_app_cons, <- E.
          split; [done|]. cbn. by rewrite Hl. }
      destruct E as (s' & d & -> & Hl). apply Hs, IH, Hl. }
  by apply (G (String.length s)).
Qed.

Lemma list_ascii_snoc (s : string) (c : ascii) :
  list_ascii_of_string (s ++ String c EmptyString)
  = (list_ascii_of_string s ++ [c])%list.
Proof. induction s as [|d s IH]; [done|]. cbn. by rewrite <- IH. Qed.

Lemma string_app_nil_r (s : string) : s ++ EmptyString = s.
Proof. induction s as [|c s IH]; [done|]. by rewrite string_app_cons, IH. Qed.

(** The loop on a name that ends with symbols other than the opening brace:
    one iteration for each, the last character first. *)
Lemma parse_loop_symbols (ST : symbols) (r : string) (t : string) :
  no_symbols ST r = true ->
  forall (fuel : nat) (ms : list string),
    forallb (in_values ST) (list_ascii_of_string t) = true ->
    Py.mem_char (sym_defined_number_set_start ST) t = false ->
    (String.length t <= fuel)%nat ->
    parse_metacharacters_loop ST fuel (r ++ t) ms
    = (r, (ms ++ map (fun c => String c EmptyString)
                   (rev (list_ascii_of_string t)))%list).
Proof.
  intros Hr. induction t as [|t c IH] using string_snoc_ind;
    intros fuel ms Ht Ho Hf.
  - rewrite string_app_nil_r, parse_loop_stop by done. cbn.
    by rewrite app_nil_r.
  - rewrite list_ascii_snoc, forallb_app in Ht.
    apply andb_prop in Ht as [Ht Hc]. cbn [forallb] in Hc.
    rewrite andb_true_r in Hc.
    rewrite mem_char_app in Ho. apply orb_false_elim in Ho as [Ho Hoc].
    rewrite string_length_app in Hf. cbn [String.length] in Hf.
    destruct fuel as [|fuel]; [lia|].
    cbn [parse_metacharacters_loop].
    rewrite <- string_app_assoc, last_char_app. cbn [Py.last_char].
    rewrite Hc, mem_char_app, mem_char_app, Ho, Hoc.
    rewrite (no_symbols_mem ST r) by (done || apply in_values_In; cbn; tauto).
    cbn [orb].
    rewrite string_length_app. cbn [String.length].
    replace (Z.of_nat (String.length (r ++ t) + 1) - 1)
      with (Z.of_nat (String.length (r ++ t))) by lia.
    rewrite slice_prefix, IH by (done || lia).
    rewrite list_ascii_snoc, rev_app_distr. cbn [rev app map].
    by rewrite <- app_assoc.
Qed.

(** The symbols at the end of a label are read from right to left, one
    metacharacter each, and the name keeps what stands before them; when
    nothing stands before them, the name is the node reference. *)
Theorem trailing_symbols_read_right_to_left (ST : symbols) (r t : string) :
  no_symbols ST r = true ->
  forallb (in_values ST) (list_ascii_of_string t) = true ->
  Py.mem_char (sym_defined_number_set_start ST) t = false ->
  parse_metacharacters ST (r ++ t)
  = (match r with
     | EmptyString => String (sym_node_reference ST) EmptyString
     | _ => r
     end,
     map (fun c => String c EmptyString) (rev (list_ascii_of_string t))).
Proof.
  intros Hr Ht Ho. unfold parse_metacharacters.
  rewrite (parse_loop_symbols ST r t Hr) by
    (done || rewrite string_length_app; lia).
  by destruct r.
Qed.

Lemma trailing_symbols_read_right_to_left_witness :
  parse_metacharacters default_symbols "c$+" = ("c", ["+"; "$"])
  /\ parse_metacharacters default_symbols "^!" = ("@", ["!"; "^"]).
Proof.
  split.
  - apply (trailing_symbols_read_right_to_left default_symbols "c" "$+");
      reflexivity.
  - apply (trailing_symbols_read_right_to_left default_symbols "" "^!");
      reflexivity.
Defined.

(** The descriptor of a label that ends with an anchor: the mark of the
    root, of a leaf or of the negation sets its flag and leaves the bounds and
    the connection at their defaults; the node reference as the last
    character of a label sets nothing. *)
Theorem anchor_descriptors (ST : symbols) (r : string) :
  symbols_ok ST = true ->
  no_symbols ST r = true ->
  label_controller ST (r ++ String (sym_is_root ST) EmptyString)
  = Ok {| c_root := Some true; c_leaf := None; c_not := false;
          c_low := 0; c_high := -1; c_skipped := 0; c_single_match := false;
          c_allow_indirect_connection := false;
          c_direct_connection_first := false;
          c_single_match_contstraint := None |}
  /\ label_controller ST (r ++ String (sym_is_leaf ST) EmptyString)
     = Ok {| c_root := None; c_leaf := Some true; c_not := false;
             c_low := 0; c_high := -1; c_skipped := 0; c_single_match := false;
             c_allow_indirect_connection := false;
             c_direct_connection_first := false;
             c_single_match_contstraint := None |}
  /\ label_controller ST (r ++ String (sym_not ST) EmptyString)
     = Ok {| c_root := None; c_leaf := None; c_not := true;
             c_low := 0; c_high := -1; c_skipped := 0; c_single_match := false;
             c_allow_indirect_connection := false;
             c_direct_connection_first := false;
             c_single_match_contstraint := None |}
  /\ label_controller ST (r ++ String (sym_node_reference ST) EmptyString)
     = Ok default_controller.
Proof.
  intros Hok Hr.
  assert (Ho : forall q, In q (symbol_values ST) ->
                 q <> sym_defined_number_set_start ST ->
                 label_controller ST (r ++ String q "")
                 = res_bind (define_skipping_properties ST [String q ""])
                     (fun p => Ok (controller_update default_controller p))).
  { intros q Hq Hne. apply label_controller_eq; [apply app_not_empty|].
    apply parse_metacharacters_symbol; [done|by apply in_values_In|done]. }
  repeat split.
  - rewrite Ho; [|cbn; tauto|symbols_differ Hok].
    unfold define_skipping_properties, define_skipping_loop,
      define_skipping_step.
    rewrite_symbols Hok. cbn [Py.mem_char]. rewrite_symbols Hok. reflexivity.
  - rewrite Ho; [|cbn; tauto|symbols_differ Hok].
    unfold define_skipping_properties, define_skipping_loop,
      define_skipping_step.
    rewrite_symbols Hok. cbn [Py.mem_char]. rewrite_symbols Hok. reflexivity.
  - rewrite Ho; [|cbn; tauto|symbols_differ Hok].
    unfold define_skipping_properties, define_skipping_loop,
      define_skipping_step.
    rewrite_symbols Hok. cbn [Py.mem_char]. rewrite_symbols Hok. reflexivity.
  - rewrite Ho; [|cbn; tauto|symbols_differ Hok].
    unfold define_skipping_properties, define_skipping_loop,
      define_skipping_step.
    rewrite_symbols Hok. cbn [Py.mem_char]. rewrite_symbols Hok. reflexivity.
Qed.

Lemma anchor_descriptors_witness :
  label_controller default_symbols "a^"
  = Ok {| c_root := Some true; c_leaf := None; c_not := false;
          c_low := 0; c_high := -1; c_skipped := 0; c_single_match := false;
          c_allow_indirect_connection := false;
          c_direct_connection_first := false;
          c_single_match_contstraint := None |}
  /\ label_controller default_symbols "d!"
     = Ok {| c_root := None; c_leaf := None; c_not := true;
             c_low := 0; c_high := -1; c_skipped := 0; c_single_match := false;
             c_allow_indirect_connection := false;
             c_direct_connection_first := false;
             c_single_match_contstraint := None |}.
Proof.
  split.
  - apply (anchor_descriptors default_symbols "a"); reflexivity.
  - apply (anchor_descriptors default_symbols "d"); reflexivity.
Defined.

(** ** The compiler: the name of a node as an expression *)

Lemma split_pieces (c : ascii) (s : string) :
  Forall (fun p => Py.mem_char c p = false) (Py.split c s).
Proof.
  induction s as [|d s IH]; [by repeat constructor|]. cbn [Py.split].
  destruct (Ascii.eqb c d) eqn:E; [by constructor|].
  destruct (Py.split c s) as [|w ws].
  - repeat constructor. cbn [Py.mem_char]. by rewrite E.
  - apply Forall_cons in IH as [Hw Hws]. constructor; [|done].
    cbn [Py.mem_char]. by rewrite E, Hw.
Qed.

Lemma split_app_sep (c : ascii) (x y : string) :
  Py.mem_char c x = false ->
  Py.split c (x ++ String c y) = x :: Py.split c y.
Proof.
  intros Hx. induction x as [|d x IH].
  - rewrite string_app_nil_l. cbn [Py.split]. by rewrite Ascii.eqb_refl.
  - cbn [Py.mem_char] in Hx. apply orb_false_elim in Hx as [H1 H2].
    rewrite string_app_cons. cbn [Py.split]. by rewrite H1, IH.
Qed.

(** A string that white space neither starts nor ends. *)
Lemma rstrip_fixed (s : string) (d : ascii) :
  Py.last_char s = Some d -> Py.is_space d = false -> Py.rstrip s = s.
Proof.
  induction s as [|c s IH]; [done|]. intros Hl Hd. cbn [Py.rstrip].
  destruct s as [|e s].
  - cbn in Hl. injection Hl as ->. cbn. by rewrite Hd.
  - rewrite IH by done. done.
Qed.

Lemma strip_fixed (c d : ascii) (s : string) :
  Py.is_space c = false ->
  Py.last_char (String c s) = Some d -> Py.is_space d = false ->
  Py.strip (String c s) = String c s.
Proof.
  intros Hc Hl Hd. unfold Py.strip. cbn [Py.lstrip]. rewrite Hc.
  by eapply rstrip_fixed.
Qed.

Lemma rstrip_result (s : string) :
  match Py.rstrip s with
  | EmptyString => True
  | String c r =>
      (exists s', s = String c s')
      /\ exists d, Py.last_char (String c r) = Some d /\ Py.is_space d = false
  end.
Proof.
  induction s as [|c s IH]; [done|]. cbn [Py.rstrip].
  destruct (Py.rstrip s) as [|e r] eqn:Er.
  - destruct (Py.is_space c) eqn:Ec; [done|].
    split; [by eexists|]. by exists c.
  - split; [by eexists|]. destruct IH as [_ (d & Hd & Hs)].
    exists d. split; [|done]. exact Hd.
Qed.

Lemma lstrip_result (s : string) :
  match Py.lstrip s with
  | EmptyString => True
  | String c r => Py.is_space c = false
  end.
Proof.
  induction s as [|c s IH]; [done|]. cbn [Py.lstrip].
  by destruct (Py.is_space c) eqn:Ec.
Qed.

(** What [strip] returns: nothing, or a string that white space neither
    starts nor ends. *)
Lemma strip_result (s : string) :
  match Py.strip s with
  | EmptyString => True
  | String c r =>
      Py.is_space c = false
      /\ exists d, Py.last_char (String c r) = Some d /\ Py.is_space d = false
  end.
Proof.
  unfold Py.strip. pose proof (lstrip_result s) as Hl.
  pose proof (rstrip_result (Py.lstrip s)) as Hr.
  destruct (Py.rstrip (Py.lstrip s)) as [|c r]; [done|].
  destruct Hr as [[s' Es] Hd]. rewrite Es in Hl. done.
Qed.

Lemma mem_char_lstrip (c : ascii) (s : string) :
  Py.mem_char c s = false -> Py.mem_char c (Py.lstrip s) = false.
Proof.
  induction s as [|d s IH]; [done|]. intros H. cbn [Py.lstrip].
  destruct (Py.is_space d); [|done]. cbn [Py.mem_char] in H.
  apply orb_false_elim in H as [_ H]. by apply IH.
Qed.

Lemma mem_char_rstrip (c : ascii) (s : string) :
  Py.mem_char c s = false -> Py.mem_char c (Py.rstrip s) = false.
Proof.
  induction s as [|d s IH]; [done|]. intros H. cbn [Py.mem_char] in H.
  apply orb_false_elim in H as [H1 H2]. specialize (IH H2).
  cbn [Py.rstrip]. destruct (Py.rstrip s) as [|e r].
  - destruct (Py.is_space d); [done|]. cbn. by rewrite H1.
  - cbn [Py.mem_char] in *. by rewrite H1, IH.
Qed.

Lemma mem_char_strip (c : ascii) (s : string) :
  Py.mem_char c s = false -> Py.mem_char c (Py.strip s) = false.
Proof. intros H. by apply mem_char_rstrip, mem_char_lstrip. Qed.

Lemma alpha_facts (c : ascii) :
  Py.is_alpha c = true ->
  Py.is_space c = false /\ Ascii.eqb "," c = false /\ Ascii.eqb "@" c = false
  /\ plain_char c = true.
Proof.
  destruct c as [[] [] [] [] [] [] [] []]; vm_compute; intros H;
    (discriminate H || done).
Qed.

Lemma all_alpha_app (x y : string) :
  Py.all_alpha (x ++ y) = Py.all_alpha x && Py.all_alpha y.
Proof.
  induction x as [|c x IH]; [done|]. rewrite string_app_cons.
  cbn [Py.all_alpha]. by rewrite IH, andb_assoc.
Qed.

Lemma all_alpha_last (s : string) (d : ascii) :
  Py.all_alpha s = true -> Py.last_char s = Some d -> Py.is_alpha d = true.
Proof.
  induction s as [|c s IH]; [done|]. cbn [Py.all_alpha]. intros H Hl.
  apply andb_prop in H as [Hc Hs]. destruct s as [|e s].
  - cbn in Hl. by injection Hl as <-.
  - by apply IH.
Qed.

Lemma all_alpha_no_char (s : string) (c : ascii) :
  Py.all_alpha s = true -> Py.is_alpha c = false -> Py.mem_char c s = false.
Proof.
  intros Hs Hc. induction s as [|d s IH]; [done|].
  cbn [Py.all_alpha] in Hs. apply andb_prop in Hs as [Hd Hs].
  cbn [Py.mem_char]. rewrite IH by done.
  destruct (Ascii.eqb_spec c d) as [->|]; [congruence|done].
Qed.

Lemma all_alpha_strip (s : string) :
  Py.all_alpha s = true -> Py.strip s = s.
Proof.
  intros H. destruct s as [|c s]; [done|].
  destruct (Py.last_char (String c s)) as [d|] eqn:El.
  2:{ by apply last_char_None in El. }
  pose proof (all_alpha_last _ _ H El) as Hd.
  cbn [Py.all_alpha] in H. apply andb_prop in H as [Hc _].
  destruct (alpha_facts c Hc) as (Hsc & _).
  destruct (alpha_facts d Hd) as (Hsd & _).
  by eapply strip_fixed.
Qed.

Lemma all_alpha_plain (s : string) : Py.all_alpha s = true -> plain s = true.
Proof.
  induction s as [|c s IH]; [done|]. cbn [Py.all_alpha plain]. intros H.
  apply andb_prop in H as [Hc Hs].
  destruct (alpha_facts c Hc) as (_ & _ & _ & ->). by apply IH.
Qed.

(** The expression an alphabetic name becomes. *)
Lemma name_expression_facts (e : string) :
  Py.all_alpha e = true ->
  let p := "@.name == " ++ Py.quoted e in
  Py.mem_char "," p = false
  /\ Py.strip p = p
  /\ Py.all_alpha p = false.
Proof.
  intros He p. subst p. split; [|split].
  - unfold Py.quoted.
    change ("@.name == " ++ String Py.dquote (e ++ String Py.dquote ""))
      with (("@.name == " ++ String Py.dquote "") ++ e ++ String Py.dquote "").
    rewrite !mem_char_app, (all_alpha_no_char e) by done. reflexivity.
  - change ("@.name == " ++ Py.quoted e)
      with (String "@" (".name == " ++ Py.quoted e)).
    apply (strip_fixed _ Py.dquote); [done| |done].
    change (String "@" (".name == " ++ Py.quoted e))
      with (("@.name == " ++ String Py.dquote e) ++ String Py.dquote "").
    by rewrite last_char_app.
  - reflexivity.
Qed.

Lemma parse_node_name_kept (p : string) : kept p -> parse_node_name p = p.
Proof.
  intros (Hne & Hc & Hs & Ha). unfold parse_node_name.
  rewrite split_no_sep by done. cbn [map]. rewrite Hs, Ha.
  destruct p as [|c p]; [done|]. reflexivity.
Qed.

Lemma join_kept (ps : list string) :
  ps <> [] -> Forall kept ps -> kept (Py.join " and " ps).
Proof.
  intros Hne Hps. induction Hps as [|p ps Hp Hps IH]; [done|]. clear Hne.
  destruct ps as [|q ps]; [exact Hp|].
  specialize (IH ltac:(done)).
  change (Py.join " and " (p :: q :: ps))
    with (p ++ " and " ++ Py.join " and " (q :: ps)).
  set (j := Py.join " and " (q :: ps)) in *.
  destruct Hp as (Hne & Hc & Hs & Ha). destruct IH as (Hne' & Hc' & Hs' & Ha').
  split; [by destruct p|]. split; [|split].
  - by rewrite !mem_char_app, Hc, Hc'.
  - destruct p as [|c p]; [done|]. destruct j as [|d j]; [done|].
    pose proof (strip_result (String c p)) as Rp. rewrite Hs in Rp.
    pose proof (strip_result (String d j)) as Rj. rewrite Hs' in Rj.
    destruct Rp as [Hsc _]. destruct Rj as [_ (z & Hz & Hsz)].
    rewrite string_app_cons. apply (strip_fixed c z); [done| |done].
    rewrite <- string_app_cons.
    change (" and " ++ String d j) with (" and" ++ String " " (String d j)).
    rewrite <- string_app_assoc, last_char_app.
    exact Hz.
  - by rewrite all_alpha_app, Ha.
Qed.

(** The expressions [parse_node_name] joins. *)
Lemma parse_node_name_pieces (es : list string) :
  Forall (fun e => Py.mem_char "," e = false) es ->
  Forall kept
    (filter (fun e => negb (String.eqb e EmptyString))
       (map (fun e =>
               match e with
               | EmptyString => e
               | _ => if Py.all_alpha e then "@.name == " ++ Py.quoted e else e
               end) (map Py.strip es))).
Proof.
  induction 1 as [|e es He Hes IH]; [constructor|]. cbn [map].
  rewrite filter_cons.
  pose proof (strip_result e) as Hr.
  pose proof (mem_char_strip _ _ He) as Hm.
  assert (Hi : Py.strip (Py.strip e) = Py.strip e).
  { destruct (Py.strip e) as [|c r]; [done|].
    destruct Hr as [Hc (d & Hd & Hsd)]. by eapply strip_fixed. }
  destruct (Py.strip e) as [|c r] eqn:Es.
  - rewrite decide_False; [exact IH|]. cbn. tauto.
  - destruct (Py.all_alpha (String c r)) eqn:Ea.
    + rewrite decide_True; [|done]. constructor; [|exact IH].
      destruct (name_expression_facts (String c r) Ea) as (H1 & H2 & H3).
      split; [done|]. done.
    + rewrite decide_True; [|done]. constructor; [|exact IH]. done.
Qed.

(** [parse_node_name] changes nothing in a name it has made: compiling the
    name of a node a second time leaves the expression as it is. *)
Theorem parse_node_name_idempotent (name : string) :
  parse_node_name (parse_node_name name) = parse_node_name name.
Proof.
  unfold parse_node_name at 2 3.
  pose proof (parse_node_name_pieces (Py.split "," name) (split_pieces _ _))
    as Hk.
  destruct (filter _ _) as [|p ps] eqn:E; [reflexivity|].
  apply parse_node_name_kept, join_kept; done.
Qed.

Lemma split_join (c : ascii) (l : list string) :
  l <> [] ->
  Forall (fun e => Py.mem_char c e = false) l ->
  Py.split c (Py.join (String c EmptyString) l) = l.
Proof.
  intros Hne H. induction H as [|e es He Hes IH]; [done|]. clear Hne.
  destruct es as [|e' es]; [by apply split_no_sep|].
  change (Py.join (String c "") (e :: e' :: es))
    with (e ++ String c (Py.join (String c "") (e' :: es))).
  by rewrite split_app_sep, IH.
Qed.

(** Alphabetic names separated by commas become the conjunction of the
    comparisons of the name of the target node with each of them. *)
Theorem parse_node_name_alphabetic (n : string) (names : list string) :
  Forall (fun e => e <> EmptyString /\ Py.all_alpha e = true) (n :: names) ->
  parse_node_name (Py.join "," (n :: names))
  = Py.join " and "
      (map (fun e => "@.name == " ++ Py.quoted e) (n :: names)).
Proof.
  intros H. unfold parse_node_name. f_equal.
  rewrite split_join; [|done|].
  2:{ eapply Forall_impl; [exact H|]. intros e [_ He].
      by apply all_alpha_no_char. }
  induction H as [|e es [Hne He] Hes IH]; [done|]. cbn [map].
  rewrite all_alpha_strip, He by done. rewrite filter_cons, IH.
  destruct e as [|c e]; [done|]. by rewrite decide_True.
Qed.

Lemma parse_node_name_alphabetic_witness :
  parse_node_name "a,b"
  = "@.name == " ++ Py.quoted "a" ++ " and " ++ "@.name == " ++ Py.quoted "b".
Proof.
  apply (parse_node_name_alphabetic "a" ["b"]).
  repeat constructor; discriminate.
Defined.

(** ** A pattern of one node with an alphabetic name *)

Lemma replace_absent (fuel : nat) (a : ascii) (new : string) :
  forall s : string,
    Py.mem_char a s = false ->
    Py.replace_fuel fuel (String a EmptyString) new s = s.
Proof.
  induction fuel as [|fuel IH]; intros s H; [done|].
  destruct s as [|c s]; [done|]. cbn [Py.mem_char] in H.
  apply orb_false_elim in H as [H1 H2]. cbn [Py.replace_fuel String.prefix].
  destruct (ascii_dec a c) as [->|_]; [by rewrite Ascii.eqb_refl in H1|].
  by rewrite IH.
Qed.

Lemma replace_leading (a : ascii) (new rest : string) :
  Py.mem_char a rest = false ->
  Py.replace (String a EmptyString) new (String a rest) = new ++ rest.
Proof.
  intros H. unfold Py.replace. cbn [String.length Py.replace_fuel String.prefix].
  destruct (ascii_dec a a); [|congruence].
  destruct rest; cbn [Py.drop String.length]; by rewrite replace_absent.
Qed.

Lemma local_constraints_reference (n : string) (c : controller) :
  c_root c = None -> c_leaf c = None ->
  Py.all_alpha n = true ->
  local_constraints ("@.name == " ++ Py.quoted n) c
  = ["__target_node.name == " ++ Py.quoted n].
Proof.
  intros Hr Hl Hn. unfold local_constraints. rewrite Hr, Hl. cbn [app].
  change ("@.name == " ++ Py.quoted n)
    with (String "@" (".name == " ++ Py.quoted n)).
  cbn [Py.mem_char Ascii.eqb Bool.eqb orb String.length Nat.eqb].
  rewrite replace_leading; [done|].
  unfold Py.quoted.
  change (".name == " ++ String Py.dquote (n ++ String Py.dquote ""))
    with ((".name == " ++ String Py.dquote "") ++ n ++ String Py.dquote "").
  rewrite !mem_char_app, (all_alpha_no_char n) by done. reflexivity.
Qed.

(** [is_local_match] on a compiled node whose name compares the name of the
    target node with [n], and whose controller has no anchor. *)
Lemma local_match_reference pyeval T (l : loc) (n : string) (x : tnode)
    (h : heap) (o : pobj) (c : controller) :
  Py.all_alpha n = true ->
  h !! l = Some o ->
  p_name o = "@.name == " ++ Py.quoted n ->
  p_controller o = Some c ->
  c_root c = None -> c_leaf c = None ->
  is_local_match pyeval T l x h = (Ret (String.eqb (node_name x) n), h).
Proof.
  intros Hn Hl Ho Hc Hr Hlf. unfold is_local_match.
  rewrite (bind_run _ _ h h _ (get_obj_Some _ _ _ Hl)).
  rewrite (bind_run _ _ h h c) by by apply (get_controller_Some _ _ _ _ Hl).
  rewrite Ho, local_constraints_reference by done.
  assert (Hq : exists r, "__target_node.name == " ++ Py.quoted n = String "_" r)
    by (eexists; reflexivity).
  destruct Hq as [r Hq]. rewrite Hq. cbn [eval_constraints]. rewrite <- Hq.
  rewrite eval_constraint_name by by apply all_alpha_plain. reflexivity.
Qed.

Lemma alpha_no_symbols (n : string) :
  Py.all_alpha n = true -> no_symbols default_symbols n = true.
Proof.
  induction n as [|c n IH]; [done|]. cbn [Py.all_alpha no_symbols].
  intros H. apply andb_prop in H as [Hc Hn]. rewrite IH by done.
  rewrite andb_true_r. clear -Hc.
  destruct c as [[] [] [] [] [] [] [] []]; vm_compute; vm_compute in Hc;
    (discriminate Hc || done).
Qed.

(** [match] of a compiled node without children, without a parent and
    without metacharacters: the comparison of the names, and no change of
    the store. *)
Lemma match_named_leaf pyeval T (h : heap) (l : loc) (n : string) (x : tnode) :
  Py.all_alpha n = true ->
  h !! l = Some (compiled ("@.name == " ++ Py.quoted n) default_controller) ->
  match_ pyeval T l x h = (Ret (String.eqb (node_name x) n), h).
Proof.
  intros Hn Hl. unfold match_. cbn [match_fuel]. unfold match_body.
  assert (Hc : get_controller l h = (Ret default_controller, h))
    by by eapply get_controller_Some.
  assert (Hleaf : is_leaf l h = (Ret true, h))
    by exact (is_leaf_Some _ _ _ Hl).
  assert (Hk : get_children l h = (Ret [], h))
    by exact (get_children_Some _ _ _ Hl).
  assert (Hm : is_local_match pyeval T l x h
               = (Ret (String.eqb (node_name x) n), h))
    by by eapply local_match_reference.
  assert (E : match_node pyeval T l x h
              = (Ret (String.eqb (node_name x) n, l), h)).
  { unfold match_node.
    rewrite (bind_run _ _ _ _ _ Hc), (bind_run _ _ _ _ _ Hleaf).
    cbn [c_direct_connection_first default_controller andb].
    rewrite (bind_run _ _ h h l) by done.
    rewrite (bind_run _ _ _ _ _ Hm). cbv zeta. cbn [negb].
    rewrite (bind_run _ _ h h (String.eqb (node_name x) n)) by done.
    rewrite (bind_run _ _ _ _ _ Hc).
    destruct (String.eqb (node_name x) n); cbn [negb]; [reflexivity|].
    rewrite (bind_run _ _ _ _ _ Hleaf).
    cbn [c_allow_indirect_connection default_controller andb].
    rewrite (bind_run _ _ _ _ _ (get_obj_Some _ _ _ Hl)). reflexivity. }
  rewrite (bind_run _ _ _ _ _ E). unfold match_children.
  rewrite (bind_run _ _ _ _ _ Hk). rewrite andb_false_r.
  rewrite (bind_run _ _ h h (String.eqb (node_name x) n)) by done.
  destruct (String.eqb (node_name x) n); cbn [negb]; [reflexivity|].
  rewrite (bind_run _ _ _ _ _ Hc). reflexivity.
Qed.

(** The loop of [find_match] when [match] answers [R] and leaves the store
    as it is. *)
Lemma search_loop_pure pyeval T (pattern : loc) (R : tnode -> bool) (h : heap)
    (nodes : list tnode) :
  (forall x, match_ pyeval T pattern x h = (Ret (R x), h)) ->
  forall n : Z,
    search_loop pyeval T pattern None nodes n h
    = ({| yielded := List.filter R nodes; ending := Ret tt |}, h).
Proof.
  intros Hm. induction nodes as [|x nodes IH]; intros n; [done|].
  cbn [search_loop List.filter]. rewrite Hm, IH. by destruct (R x).
Qed.

(** A pattern of one node with an alphabetic name is a search by name: it
    yields the nodes of the target that bear the name, in the order of the
    traversal, all of them when the hits are not bounded and the first [k]
    of them under a bound [k] of at least 1, and it ends normally in both
    cases. *)
Theorem name_pattern_yields_named_nodes SET pyeval T (n : string)
    (strat : strategy) :
  n <> EmptyString ->
  Py.all_alpha n = true ->
  markers_absent SET ["@.name == " ++ Py.quoted n] = true ->
  let '(h, p) := TreePattern_init DefaultSyntax (PNode n []) [] in
  let named := List.filter (fun x => String.eqb (node_name x) n)
                 (traverse strat ([], T)) in
  fst (find_match default_symbols SET pyeval T p None strat h)
  = {| yielded := named; ending := Ret tt |}
  /\ (forall k : Z, 1 <= k ->
        fst (find_match default_symbols SET pyeval T p (Some k) strat h)
        = {| yielded := take (Z.to_nat k) named; ending := Ret tt |}).
Proof.
  intros Hne Hn Hm.
  change (TreePattern_init DefaultSyntax (PNode n []) [])
    with ([fresh_obj n [] None DefaultSyntax], 0%nat).
  cbv beta iota zeta.
  set (h2 := [ fresh_obj n [] None DefaultSyntax;
               compiled ("@.name == " ++ Py.quoted n) default_controller ]).
  assert (Ep : parse_node_name n = "@.name == " ++ Py.quoted n).
  { unfold parse_node_name.
    rewrite split_no_sep by by apply all_alpha_no_char.
    cbn [map]. rewrite all_alpha_strip, Hn by done.
    destruct n as [|c n]; [done|]. reflexivity. }
  assert (Ec : set_controller default_symbols SET 1
                 [ fresh_obj n [] None DefaultSyntax;
                   fresh_obj n [] None DefaultSyntax ]
               = (Ret false, h2)).
  { erewrite (set_controller_run default_symbols SET 1%nat _ _ n []);
      [| reflexivity | exact Hne | | reflexivity | by rewrite Ep ].
    - cbn [alter list_alter]. unfold h2, compiled. by rewrite Ep.
    - unfold parse_metacharacters. cbn [fresh_obj p_name].
      rewrite parse_loop_stop by by apply alpha_no_symbols.
      by destruct n. }
  assert (E : forall mh,
             find_match default_symbols SET pyeval T 0 mh strat
               [fresh_obj n [] None DefaultSyntax]
             = search_loop pyeval T 1 mh (traverse strat ([], T)) 0 h2).
  { intros mh. unfold find_match.
    change (deepcopy 0 [fresh_obj n [] None DefaultSyntax])
      with ([ fresh_obj n [] None DefaultSyntax;
              fresh_obj n [] None DefaultSyntax ], 1%nat).
    cbv beta iota.
    change (ptraverse _ 1) with [1%nat].
    cbn [set_controllers]. rewrite (bind_run _ _ _ _ _ Ec). reflexivity. }
  assert (En : forall nodes,
             search_loop pyeval T 1 None nodes 0 h2
             = ({| yielded := List.filter
                                (fun x => String.eqb (node_name x) n) nodes;
                   ending := Ret tt |}, h2)).
  { intros nodes. apply search_loop_pure. intros x. by apply match_named_leaf. }
  split.
  - by rewrite E, En.
  - intros k Hk. rewrite !E.
    pose proof (search_loop_prefix pyeval T 1 k (traverse strat ([], T)) 0 h2)
      as Hp.
    rewrite En, Z.sub_0_r in Hp. specialize (Hp ltac:(lia)).
    destruct (search_loop_stops pyeval T 1 k (traverse strat ([], T)) 0 h2)
      as (pre & _ & Eq & _); [lia|].
    rewrite Eq, En in Hp |- *. cbn [fst yielded] in Hp |- *. by rewrite Hp.
Qed.

Lemma name_pattern_yields_named_nodes_witness :
  let '(h, p) := TreePattern_init DefaultSyntax (PNode "a" []) [] in
  fst (find_match default_symbols sample_sets no_oracle two_a_target p None
         preorder h)
  = {| yielded := List.filter (fun x => String.eqb (node_name x) "a")
                    (traverse preorder ([], two_a_target));
       ending := Ret tt |}.
Proof.
  exact (proj1 (name_pattern_yields_named_nodes sample_sets no_oracle
                  two_a_target "a" preorder ltac:(discriminate) eq_refl
                  eq_refl)).
Defined.

(** ** A quantified leaf that is not the last child *)

Lemma bind_exc {A B : Type} (m : M A) (k : A -> M B) (h h' : heap) (e : exn) :
  m h = (Exc e, h') -> bind m k h = (Exc e, h').
Proof. intros H. unfold bind. by rewrite H. Qed.

Section PastTheCandidates.

(** A pattern node [self] whose first child [c0] is a leaf with a quantifier
    or a negation, and which has a second child [c1]; [Inv] holds of the
    stores that the recursive calls on [c0] leave. *)
Variable rec : loc -> tnode -> M bool.
Variables self c0 c1 : loc.
Variable others : list loc.
Variable Inv : heap -> Prop.

Hypothesis Hchildren :
  forall h, Inv h -> get_children self h = (Ret (c0 :: c1 :: others), h).
Hypothesis Hleaf : forall h, Inv h -> is_leaf c0 h = (Ret true, h).
Hypothesis Hcounts :
  forall h, Inv h ->
    exists cc, get_controller c0 h = (Ret cc, h)
               /\ c_allow_indirect_connection cc || c_not cc = true.
Hypothesis Hrec :
  forall y h, Inv h -> exists b h', rec c0 y h = (Ret b, h') /\ Inv h'.

(** The loop over the children of the pattern node: the first child takes
    every node of the candidate, and the index of the second child is past
    the end of the candidate. *)
Lemma while_loop_past_candidate (candidate : list tnode) (n : nat) :
  forall (fuel j : nat) (v : locals) (h : heap),
    Inv h -> sub_status v = true ->
    (j < length candidate)%nat -> (length candidate - j = S n)%nat ->
    (S n < fuel)%nat ->
    exists h',
      while_loop rec fuel self candidate 0 j v h = (Exc IndexError, h').
Proof.
  induction n as [|n IH]; intros fuel j v h Hh Hv Hj Hn Hf;
    (destruct fuel as [|fuel]; [lia|]);
    destruct (lookup_lt_is_Some_2 candidate j Hj) as [y Hy];
    destruct (Hrec y h Hh) as (b & h1 & Hr & Hh1);
    destruct (Hcounts h1 Hh1) as (cc & Hcc & Hq);
    cbn [while_loop];
    rewrite (bind_run _ _ _ _ _ (Hchildren h Hh));
    change (0 <? length (c0 :: c1 :: others))%nat with true; cbv iota;
    rewrite (bind_run _ _ h h c0) by done;
    rewrite (bind_run _ _ h h y) by (unfold index; by rewrite Hy);
    rewrite (bind_run _ _ _ _ _ Hr), (bind_run _ _ _ _ _ (Hleaf h1 Hh1));
    rewrite (bind_run _ _ _ _ _ Hcc), Hq, Hv; cbn [andb]; cbv zeta.
  - assert (E : (S j <? length candidate)%nat = false)
      by (apply Nat.ltb_ge; lia).
    rewrite E. exists h1. destruct fuel as [|fuel]; [lia|].
    cbn [while_loop]. rewrite (bind_run _ _ _ _ _ (Hchildren h1 Hh1)).
    change (1 <? length (c0 :: c1 :: others))%nat with true. cbv iota.
    rewrite (bind_run _ _ h1 h1 c1) by done.
    unfold bind, index. rewrite lookup_ge_None_2 by lia. reflexivity.
  - assert (E : (S j <? length candidate)%nat = true)
      by (apply Nat.ltb_lt; lia).
    rewrite E. apply IH; [done|done|lia|lia|lia].
Qed.

(** The loop over the permutations ends with the error of the first one. *)
Lemma candidates_loop_past_candidate (candidate : list tnode)
    (rest : list (list tnode)) (v : locals) (h : heap) :
  Inv h -> candidate <> [] ->
  exists h',
    candidates_loop rec self (candidate :: rest) v h = (Exc IndexError, h').
Proof.
  intros Hh Hne. cbn [candidates_loop].
  rewrite (bind_run _ _ _ _ _ (Hchildren h Hh)).
  destruct candidate as [|y ys]; [done|].
  edestruct (while_loop_past_candidate (y :: ys) (length ys)) as [h' E];
    [exact Hh| | | |
     |unfold bind at 1; rewrite E; by eexists];
    cbn [length sub_status]; (done || lia).
Qed.

End PastTheCandidates.

Section Siblings.

Variable pyeval : tree -> syntax -> string -> list (string * path) -> res bool.
Variable T : tree.
Variables a b c : string.
Hypothesis Ha : Py.all_alpha a = true.
Hypothesis Hb : Py.all_alpha b = true.

Local Abbreviation Hs := (sibling_heap a b c).

(** [match] on the quantified leaf: it returns, and leaves a store of the
    search. *)
Lemma match_quantified_leaf (fuel : nat) (y : tnode) (k : Z) :
  exists (st : bool) (k' : Z),
    match_fuel pyeval T (S fuel) 4 y (Hs k) = (Ret st, Hs k').
Proof.
  cbn [match_fuel]. unfold match_body.
  assert (Hc : get_controller 4 (Hs k)
               = (Ret (set_skipped k (quantified 1 (-1) false)), Hs k))
    by reflexivity.
  assert (Hm : is_local_match pyeval T 4 y (Hs k)
               = (Ret (String.eqb (node_name y) b), Hs k))
    by (eapply (local_match_reference pyeval T 4%nat b); done).
  assert (E : exists k1,
             match_node pyeval T 4 y (Hs k)
             = (Ret (String.eqb (node_name y) b, 4%nat), Hs k1)).
  { unfold match_node. rewrite (bind_run _ _ _ _ _ Hc).
    rewrite (bind_run _ _ (Hs k) (Hs k) true) by reflexivity.
    cbn [c_direct_connection_first set_skipped quantified andb].
    rewrite (bind_run _ _ (Hs k) (Hs k) 4%nat) by done.
    rewrite (bind_run _ _ _ _ _ Hm). cbv zeta. cbn [negb].
    rewrite (bind_run _ _ (Hs k) (Hs k) (String.eqb (node_name y) b)) by done.
    rewrite (bind_run _ _ _ _ _ Hc).
    destruct (String.eqb (node_name y) b); cbn [negb].
    - cbn [c_allow_indirect_connection c_skipped set_skipped quantified andb].
      destruct (k =? 0).
      + exists (k + 1). reflexivity.
      + by exists k.
    - exists k. reflexivity. }
  destruct E as [k1 E]. rewrite (bind_run _ _ _ _ _ E).
  unfold match_children.
  rewrite (bind_run _ _ (Hs k1) (Hs k1) []) by reflexivity.
  rewrite andb_false_r.
  rewrite (bind_run _ _ (Hs k1) (Hs k1) (String.eqb (node_name y) b)) by done.
  destruct (String.eqb (node_name y) b); cbn [negb].
  - exists true, k1. reflexivity.
  - exists false, (k1 + -1). reflexivity.
Qed.

(** [match] on the root of the pattern raises [IndexError] on every target
    node that bears its name and has two children at least. *)
Lemma match_siblings_raises (x : tnode) (k : Z) :
  node_name x = a ->
  (2 <= length (t_children (snd x)))%nat ->
  exists h', match_ pyeval T 3 x (Hs k) = (Exc IndexError, h').
Proof.
  intros Hx Hk. unfold match_.
  assert (Hh : (2 <= tree_height (snd x))%nat).
  { destruct (snd x) as [m [|t ts]]; [cbn in Hk; lia|].
    cbn [tree_height map foldr]. pose proof (tree_height_pos t). lia. }
  destruct (tree_height (snd x)) as [|[|f]] eqn:Eh; [lia..|].
  cbn [match_fuel]. unfold match_body.
  assert (Hkids : (2 <= length (kids x))%nat).
  { pose proof (f_equal length (kids_children x)) as El.
    rewrite length_map in El. rewrite <- El in Hk. exact Hk. }
  assert (Hm : is_local_match pyeval T 3 x (Hs k) = (Ret true, Hs k)).
  { erewrite (local_match_reference pyeval T 3%nat a); [|done..].
    by rewrite Hx, String.eqb_refl. }
  assert (E : match_node pyeval T 3 x (Hs k) = (Ret (true, 3%nat), Hs k)).
  { unfold match_node.
    rewrite (bind_run _ _ (Hs k) (Hs k) default_controller) by reflexivity.
    rewrite (bind_run _ _ (Hs k) (Hs k) false) by reflexivity.
    cbn [c_direct_connection_first default_controller andb].
    rewrite (bind_run _ _ (Hs k) (Hs k) 3%nat) by done.
    rewrite (bind_run _ _ _ _ _ Hm). cbv zeta. cbn [negb].
    rewrite (bind_run _ _ (Hs k) (Hs k) true) by done.
    rewrite (bind_run _ _ (Hs k) (Hs k) default_controller) by reflexivity.
    reflexivity. }
  rewrite (bind_run _ _ _ _ _ E). unfold match_children.
  rewrite (bind_run _ _ (Hs k) (Hs k) [4%nat; 5%nat]) by reflexivity.
  cbn [andb negb length].
  assert (El : (length (kids x) <? 2)%nat = false) by (apply Nat.ltb_ge; lia).
  destruct (permutations (kids x)) as [|cand cands] eqn:Ep.
  { exfalso. by apply (permutations_fuel_nonempty (length (kids x)) (kids x)). }
  assert (Hcand : cand <> []).
  { pose proof (permutations_head (kids x)) as Hp.
    rewrite Ep in Hp. 
    assert (Hne : kids x <> []) by (destruct (kids x); [cbn in Hkids; lia|done]).
    apply Hp in Hne. apply Forall_cons in Hne as [(y & ys & -> & _) _]. done. }
  set (v0 := {| status := true; sub_status := true; sub_status_count := 0;
                test_children_properties := false; continious_matched := [];
                current_matched := 0 |}).
  destruct (candidates_loop_past_candidate
              (match_fuel pyeval T (S (S f))) 3%nat 4%nat 5%nat []
              (fun h => exists k, h = Hs k)) with
    (candidate := cand) (rest := cands) (v := v0) (h := Hs k) as [h' Hl].
  - by intros h [k0 ->].
  - by intros h [k0 ->].
  - intros h [k0 ->]. eexists. split; [reflexivity|]. reflexivity.
  - intros y h [k0 ->].
    destruct (match_quantified_leaf (S f) y k0) as (st & k' & Hr).
    exists st, (Hs k'). split; [done|]. by exists k'.
  - by exists k.
  - done.
  - exists h'. apply bind_exc. rewrite El.
    rewrite (bind_run _ _ (Hs k) (Hs k) default_controller) by done.
    unfold skip_to_nodes. rewrite El. cbv iota. cbn [nodes_loop].
    rewrite (bind_run _ _ (Hs k) (Hs k) [4%nat; 5%nat]) by reflexivity.
    apply bind_exc. cbv zeta. fold v0.
    assert (E2 : (length [4%nat; 5%nat] <=? length (kids x))%nat = true)
      by (apply Nat.leb_le; cbn [length]; lia).
    rewrite E2. apply bind_exc. rewrite Ep. exact Hl.
Qed.

End Siblings.

(** A leaf with a quantifier that is followed by another child: in the
    pattern [(b+,c)a] the leaf [b+] takes every node of a candidate, and the
    loop then asks the candidate for a node past its end.  On every target
    whose root bears the name of the root of the pattern and has two
    children at least, the search in preorder ends with [IndexError] and
    yields nothing. *)
Theorem quantified_leaf_before_sibling_raises SET pyeval (a b c : string)
    (t1 t2 : tree) (ts : list tree) (maxhits : option Z) :
  Py.all_alpha a = true -> a <> EmptyString ->
  Py.all_alpha b = true -> b <> EmptyString ->
  Py.all_alpha c = true -> c <> EmptyString ->
  markers_absent SET [ "@.name == " ++ Py.quoted a;
                       "@.name == " ++ Py.quoted b;
                       "@.name == " ++ Py.quoted c ] = true ->
  let '(h, p) := TreePattern_init DefaultSyntax (sibling_pattern a b c) [] in
  fst (find_match default_symbols SET pyeval (Node a (t1 :: t2 :: ts)) p
         maxhits preorder h)
  = {| yielded := []; ending := Exc IndexError |}.
Proof.
  intros Ha Hane Hb Hbne Hc Hcne Hm.
  change (TreePattern_init DefaultSyntax (sibling_pattern a b c) [])
    with ([ fresh_obj a [1%nat; 2%nat] None DefaultSyntax;
            fresh_obj (b ++ "+") [] (Some 0%nat) DefaultSyntax;
            fresh_obj c [] (Some 0%nat) DefaultSyntax ], 0%nat).
  cbv beta iota zeta. unfold find_match.
  change (deepcopy 0 _)
    with ([ fresh_obj a [1%nat; 2%nat] None DefaultSyntax;
            fresh_obj (b ++ "+") [] (Some 0%nat) DefaultSyntax;
            fresh_obj c [] (Some 0%nat) DefaultSyntax;
            fresh_obj a [4%nat; 5%nat] None DefaultSyntax;
            fresh_obj (b ++ "+") [] (Some 3%nat) DefaultSyntax;
            fresh_obj c [] (Some 3%nat) DefaultSyntax ], 3%nat).
  cbv beta iota. change (ptraverse _ 3) with [3%nat; 4%nat; 5%nat].
  cbn [markers_absent forallb] in Hm. rewrite andb_true_r in Hm.
  apply andb_prop in Hm as [Hma Hm]. apply andb_prop in Hm as [Hmb Hmc].
  assert (Ep : forall n, Py.all_alpha n = true -> n <> "" ->
                 parse_node_name n = "@.name == " ++ Py.quoted n).
  { intros n Hn Hne. unfold parse_node_name.
    rewrite split_no_sep by by apply all_alpha_no_char.
    cbn [map]. rewrite all_alpha_strip, Hn by done.
    destruct n as [|d n]; [done|]. reflexivity. }
  assert (Epm : forall n, Py.all_alpha n = true -> n <> "" ->
                  parse_metacharacters default_symbols n = (n, [])).
  { intros n Hn Hne. unfold parse_metacharacters.
    rewrite parse_loop_stop by by apply alpha_no_symbols. by destruct n. }
  assert (Epq : parse_metacharacters default_symbols (b ++ "+") = (b, ["+"])).
  { unfold parse_metacharacters.
    rewrite (parse_loop_symbols default_symbols b "+");
      [by destruct b|by apply alpha_no_symbols|done|done|].
    rewrite string_length_app. cbn. lia. }
  assert (Ecomp :
            set_controllers default_symbols SET [3%nat; 4%nat; 5%nat] false
              [ fresh_obj a [1%nat; 2%nat] None DefaultSyntax;
                fresh_obj (b ++ "+") [] (Some 0%nat) DefaultSyntax;
                fresh_obj c [] (Some 0%nat) DefaultSyntax;
                fresh_obj a [4%nat; 5%nat] None DefaultSyntax;
                fresh_obj (b ++ "+") [] (Some 3%nat) DefaultSyntax;
                fresh_obj c [] (Some 3%nat) DefaultSyntax ]
            = (Ret false, sibling_heap a b c 0)).
  { cbn [set_controllers].
    erewrite bind_run;
      [|eapply (set_controller_run default_symbols SET 3%nat _ _ a []);
        [reflexivity|exact Hane|by apply Epm|reflexivity|]].
    2:{ cbn [markers_absent forallb]. by rewrite Ep, Hma. }
    cbn [alter list_alter].
    erewrite bind_run;
      [|eapply (set_controller_run default_symbols SET 4%nat _ _ b ["+"]);
        [reflexivity|by destruct b|exact Epq|reflexivity|]].
    2:{ cbn [markers_absent forallb]. by rewrite Ep, Hmb. }
    cbn [alter list_alter].
    erewrite bind_run;
      [|eapply (set_controller_run default_symbols SET 5%nat _ _ c []);
        [reflexivity|exact Hcne|by apply Epm|reflexivity|]].
    2:{ cbn [markers_absent forallb]. by rewrite Ep, Hmc. }
    cbn [alter list_alter]. rewrite !Ep by done. reflexivity. }
  rewrite Ecomp.
  destruct (match_siblings_raises pyeval (Node a (t1 :: t2 :: ts)) a b c Ha Hb
              ([], Node a (t1 :: t2 :: ts)) 0) as [h' E];
    [done|cbn [snd t_children length]; lia|].
  destruct (traverse_preorder_root (Node a (t1 :: t2 :: ts))) as [rest ->].
  cbn [search_loop]. by rewrite E.
Qed.

Lemma quantified_leaf_before_sibling_raises_witness :
  let '(h, p) :=
    TreePattern_init DefaultSyntax (sibling_pattern "a" "b" "c") [] in
  fst (find_match default_symbols sample_sets no_oracle
         (Node "a" [leaf "b"; leaf "c"]) p (Some 1) preorder h)
  = {| yielded := []; ending := Exc IndexError |}.
Proof.
  exact (quantified_leaf_before_sibling_raises sample_sets no_oracle
           "a" "b" "c" (leaf "b") (leaf "c") [] (Some 1)
           eq_refl ltac:(discriminate) eq_refl ltac:(discriminate)
           eq_refl ltac:(discriminate) eq_refl).
Defined.

(** ** Set markers in a label *)

(** A label with the marker of the children sets and no bracket: the
    rewriting of the name into a comprehension takes the text after the first
    bracket, [self.name.split("[")[1]], which does not exist.
    [set_controller] raises [IndexError], and so does every search with a
    pattern that has such a node: nothing is yielded. *)
Theorem set_marker_without_bracket_raises ST SET pyeval T (self : loc)
    (maxhits : option Z) (strat : strategy) (h h1 : heap) (p : loc)
    (nodes : list loc) (x : loc) (o : pobj) (name' : string)
    (ms : list string) (props : properties) :
  deepcopy self h = (h1, p) ->
  ptraverse h1 p = x :: nodes ->
  h1 !! x = Some o ->
  p_name o <> EmptyString ->
  parse_metacharacters ST (p_name o) = (name', ms) ->
  define_skipping_properties ST ms = Ok props ->
  Py.contains (set_any_child SET) (parse_node_name name')
  || Py.contains (set_children SET) (parse_node_name name') = true ->
  Py.mem_char "[" (parse_node_name name') = false ->
  fst (set_controller ST SET x h1) = Exc IndexError
  /\ fst (find_match ST SET pyeval T self maxhits strat h)
     = {| yielded := []; ending := Exc IndexError |}.
Proof.
  intros Hd Ht Ho Hne Hp Hdef Hm Hb.
  set (n := parse_node_name name') in *.
  set (h2 := alter (with_name name') x h1).
  set (h3 := alter (with_name n) x h2).
  assert (Ho2 : h2 !! x = Some (with_name name' o))
    by by apply lookup_alter_same.
  assert (Ho3 : h3 !! x = Some (with_name n (with_name name' o)))
    by by apply lookup_alter_same.
  assert (E : exists h', set_controller ST SET x h1 = (Exc IndexError, h')).
  { unfold set_controller.
    rewrite (bind_run _ _ h1 h1 o) by by apply get_obj_Some.
    destruct (p_name o) as [|a s] eqn:En; [done|]. rewrite Hp.
    rewrite (bind_run _ _ h1 h2 ms) by done.
    rewrite Hdef. rewrite (bind_run _ _ h2 h2 props) by done.
    rewrite (bind_run _ _ h2 h2 _ (get_obj_Some _ _ _ Ho2)).
    cbn [p_name with_name]. fold n.
    rewrite (bind_run _ _ h2 h3 tt) by done.
    rewrite (bind_run _ _ h3 h3 _ (get_obj_Some _ _ _ Ho3)).
    cbn [p_name with_name].
    destruct (Py.contains (set_any_child SET) n) eqn:Ea.
    - exists h3. apply bind_exc. rewrite split_no_sep by done.
      rewrite (bind_run _ _ h3 h3 n) by done. reflexivity.
    - rewrite (bind_run _ _ h3 h3 tt) by done.
      rewrite (bind_run _ _ h3 h3 _ (get_obj_Some _ _ _ Ho3)).
      cbn [p_name with_name]. cbn [orb] in Hm. rewrite Hm.
      exists h3. apply bind_exc. rewrite split_no_sep by done.
      rewrite (bind_run _ _ h3 h3 n) by done. reflexivity. }
  destruct E as [h' E]. split; [by rewrite E|].
  erewrite find_match_compile_error; [reflexivity|exact Hd|].
  rewrite Ht. cbn [set_controllers]. by apply bind_exc.
Qed.

Lemma set_marker_without_bracket_raises_witness :
  let '(h, p) :=
    TreePattern_init DefaultSyntax (PNode "@.dist > <children>.dist" []) [] in
  fst (find_match default_symbols sample_sets no_oracle cg_target p (Some 1)
         preorder h)
  = {| yielded := []; ending := Exc IndexError |}.
Proof.
  exact (proj2 (set_marker_without_bracket_raises default_symbols sample_sets
                  no_oracle cg_target 0%nat (Some 1) preorder
                  [fresh_obj "@.dist > <children>.dist" [] None DefaultSyntax]
                  _ 1%nat [] 1%nat _ _ [] no_properties
                  eq_refl eq_refl eq_refl ltac:(discriminate) eq_refl eq_refl
                  eq_refl eq_refl)).
Defined.

(** ** Bounds beyond the second *)

(** A bounded marker with more than two bounds is not rejected:
    [decode_repeat_symbol] reads the first two pieces of the split at the
    dashes and ignores what follows the second dash, whatever it is. *)
Theorem surplus_bounds_are_ignored (o e : ascii) (lo hi rest : string) :
  Py.mem_char "-" lo = false ->
  Py.mem_char "-" hi = false ->
  decode_repeat_symbol
    (String o ((lo ++ String "-" (hi ++ String "-" rest)) ++ String e EmptyString))
  = decode_repeat_symbol
      (String o ((lo ++ String "-" hi) ++ String e EmptyString)).
Proof.
  intros Hlo Hhi. unfold decode_repeat_symbol. rewrite !slice_inside.
  rewrite !mem_char_app. cbn [Py.mem_char Ascii.eqb Bool.eqb].
  rewrite !orb_true_r.
  rewrite !split_app_sep by done. rewrite (split_no_sep _ hi) by done.
  reflexivity.
Qed.

Lemma surplus_bounds_are_ignored_witness :
  decode_repeat_symbol "{1-2-x}" = Ok (1, 2).
Proof.
  exact (surplus_bounds_are_ignored "{" "}" "1" "2" "x" eq_refl eq_refl).
Defined.

(** ** The shortcuts that look for names *)

Section SyntaxFacts.

Context {V : Type} `{Countable V}.

Lemma count_found_from (names : gset V) (values : list V) (n : nat) :
  foldl (fun found v => if decide (v ∈ names) then S found else found)
        n values
  = (n + length (filter (fun v => v ∈ names) values))%nat.
Proof.
  revert n. induction values as [|v values IH]; intros n; [cbn; lia|].
  cbn [foldl]. rewrite IH, filter_cons.
  destruct (decide (v ∈ names)); cbn [length]; lia.
Qed.

Lemma count_found_filter (names : gset V) (values : list V) :
  count_found names values = length (filter (fun v => v ∈ names) values).
Proof. unfold count_found. by rewrite count_found_from. Qed.

(** Among values that differ from one another, the values found are as many
    as the names when every name is a value, and fewer otherwise. *)
Lemma count_found_NoDup (names : gset V) (values : list V) :
  NoDup values ->
  (count_found names values = size names <-> forall v, v ∈ names -> v ∈ values).
Proof.
  intros Hnd. rewrite count_found_filter.
  set (found := filter (fun v => v ∈ names) values).
  assert (Hf : NoDup found) by by apply NoDup_filter.
  assert (Hs : (list_to_set found : gset V) ⊆ names).
  { intros v Hv. apply elem_of_list_to_set in Hv.
    by apply list_elem_of_filter in Hv as [Hv _]. }
  assert (Hl : length found = size (list_to_set found : gset V))
    by by rewrite size_list_to_set.
  rewrite Hl. split.
  - intros E v Hv.
    assert (Heq : (list_to_set found : gset V) = names).
    { apply set_eq. apply set_subseteq_size_equiv; [done|lia]. }
    rewrite <- Heq in Hv. apply elem_of_list_to_set in Hv.
    by apply list_elem_of_filter in Hv as [_ Hv].
  - intros Hall. f_equal. apply set_eq. intros v.
    rewrite elem_of_list_to_set. unfold found.
    rewrite list_elem_of_filter. split; [by intros [Hv _]|].
    intros Hv. split; [done|by apply Hall].
Qed.

Lemma count_found_Permutation (names : gset V) (l1 l2 : list V) :
  l1 ≡ₚ l2 -> count_found names l1 = count_found names l2.
Proof. intros Hp. rewrite !count_found_filter. by rewrite Hp. Qed.

Lemma remove_dups_length (l : list V) :
  (length (remove_dups l) <= length l)%nat.
Proof.
  induction l as [|x l IH]; [done|]. cbn [remove_dups].
  destruct (decide_rel elem_of x l); cbn [length]; lia.
Qed.

Lemma remove_dups_shorter (l : list V) :
  ~ NoDup l -> (length (remove_dups l) < length l)%nat.
Proof.
  induction l as [|x l IH]; intros Hn.
  - exfalso. apply Hn. constructor.
  - cbn [remove_dups]. pose proof (remove_dups_length l) as Hle.
    destruct (decide_rel elem_of x l) as [Hx|Hx]; cbn [length]; [lia|].
    apply -> Nat.succ_lt_mono. apply IH. intros Hl. apply Hn.
    by constructor.
Qed.

(** When every name is a value and one of them is a value twice, the values
    found are more than the names. *)
Lemma count_found_repeated (names : gset V) (values : list V) (v : V)
    (l1 l2 l3 : list V) :
  (forall w, w ∈ names -> w ∈ values) ->
  v ∈ names ->
  values = (l1 ++ v :: l2 ++ v :: l3)%list ->
  (size names < count_found names values)%nat.
Proof.
  intros Hall Hv ->. rewrite count_found_filter.
  set (found := filter (fun w => w ∈ names) (l1 ++ v :: l2 ++ v :: l3)%list).
  assert (Hn : ~ NoDup found).
  { unfold found. rewrite filter_app, filter_cons, decide_True by done.
    rewrite filter_app, filter_cons, decide_True by done.
    intros Hnd. apply NoDup_app in Hnd as (_ & _ & Hnd).
    apply NoDup_cons in Hnd as [Hnd _]. apply Hnd.
    apply elem_of_app. right. by left. }
  assert (Hs : names = list_to_set (remove_dups found)).
  { apply set_eq. intros w.
    rewrite elem_of_list_to_set, elem_of_remove_dups. unfold found.
    rewrite list_elem_of_filter. split; [|by intros [Hw _]].
    intros Hw. split; [done|by apply Hall]. }
  rewrite Hs at 1. rewrite size_list_to_set by apply NoDup_remove_dups.
  by apply remove_dups_shorter.
Qed.

End SyntaxFacts.

(** [contains_leaves] compares the number of leaves whose name is one of the
    names asked for with the number of names.  When the names of the leaves
    differ from one another, the answer tells whether every name asked for
    is the name of a leaf; the order in which the cache lists the leaves
    does not matter.  With two leaves of the same name the count is no
    longer the presence: a name that occurs twice makes up for a name that
    does not occur, and a single name that occurs twice is not found. *)
Theorem contains_leaves_counts {V : Type} `{Countable V} {C : Type}
    (methods : Cache V C) (cache : C) (node : tnode) (values : list V) :
  get_cached_attr methods cache "name" node true = Ok values ->
  (forall names : names_arg,
     NoDup values ->
     contains_leaves methods cache node names
     = Ok (bool_decide (forall v, v ∈ names_set names -> v ∈ values)))
  /\ (forall (C' : Type) (methods' : Cache V C') (cache' : C')
        (values' : list V) (names : names_arg),
        get_cached_attr methods' cache' "name" node true = Ok values' ->
        values ≡ₚ values' ->
        contains_leaves methods cache node names
        = contains_leaves methods' cache' node names)
  /\ (forall a b : V,
        a <> b -> values = [a; a] ->
        contains_leaves methods cache node (ManyNames [a; b]) = Ok true
        /\ contains_leaves methods cache node (OneName a) = Ok false).
Proof.
  intros Hv. split; [|split].
  - intros names Hnd. unfold contains_leaves. rewrite Hv. cbn [res_bind].
    f_equal. apply eq_true_iff_eq.
    rewrite Nat.eqb_eq, bool_decide_eq_true. by apply count_found_NoDup.
  - intros C' methods' cache' values' names Hv' Hp.
    unfold contains_leaves. rewrite Hv, Hv'. cbn [res_bind].
    by rewrite (count_found_Permutation _ _ _ Hp).
  - intros a b Hab ->. unfold contains_leaves. rewrite Hv. cbn [res_bind].
    assert (Ha : a ∈ ({[a]} ∪ ({[b]} ∪ ∅) : gset V))
      by (apply elem_of_union; left; by apply elem_of_singleton).
    assert (Ha' : a ∈ ({[a]} : gset V)) by by apply elem_of_singleton.
    split; f_equal; apply Nat.eqb_eq || apply Nat.eqb_neq;
      rewrite count_found_filter; cbn [names_set list_to_set];
      rewrite !filter_cons, filter_nil.
    + rewrite !decide_True by done. cbn [length].
      rewrite union_empty_r_L, size_union, !size_singleton; [done|].
      by apply disjoint_singleton_l, not_elem_of_singleton.
    + rewrite !decide_True by done. cbn [length].
      rewrite size_singleton. done.
Qed.

(** [contains_species] asks for as many leaves of the species as there are
    species: for a single species it tells whether exactly one leaf is of
    that species, and it answers [False] when every species asked for is
    present and one of them is the species of two leaves. *)
Theorem contains_species_counts {V : Type} `{Countable V} {C : Type}
    (methods : Cache V C) (cache : C) (node : tnode) (values : list V) :
  get_cached_attr methods cache "species" node true = Ok values ->
  (forall a : V,
     contains_species methods cache node (OneName a)
     = Ok (bool_decide (length (filter (fun v => v = a) values) = 1%nat)))
  /\ (forall (names : names_arg) (v : V) (l1 l2 l3 : list V),
        (forall w, w ∈ names_set names -> w ∈ values) ->
        v ∈ names_set names ->
        values = (l1 ++ v :: l2 ++ v :: l3)%list ->
        contains_species methods cache node names = Ok false).
Proof.
  intros Hv. split.
  - intros a. unfold contains_species. rewrite Hv. cbn [res_bind names_set].
    f_equal. apply eq_true_iff_eq.
    rewrite Nat.eqb_eq, bool_decide_eq_true, count_found_filter, size_singleton.
    assert (E : filter (fun v => v ∈ ({[a]} : gset V)) values
                = filter (fun v => v = a) values).
    { apply list_filter_iff. intros v. apply elem_of_singleton. }
    by rewrite E.
  - intros names v l1 l2 l3 Hall Hin E. unfold contains_species.
    rewrite Hv. cbn [res_bind]. f_equal. apply Nat.eqb_neq.
    pose proof (count_found_repeated _ _ v l1 l2 l3 Hall Hin E). lia.
Qed.

Lemma contains_species_counts_witness :
  contains_species (FakeCache_methods (option string)
                      (fun p attr => if String.eqb attr "species"
                                     then Some "Homo sapiens" else None))
    fake_cache ([], cg_target) (OneName (Some "Homo sapiens"))
  = Ok false.
Proof.
  refine (proj2 (contains_species_counts
                   (FakeCache_methods (option string)
                      (fun p attr => if String.eqb attr "species"
                                     then Some "Homo sapiens" else None))
                   fake_cache ([], cg_target)
                   [Some "Homo sapiens"; Some "Homo sapiens"] eq_refl)
            (OneName (Some "Homo sapiens")) (Some "Homo sapiens") [] [] []
            _ _ eq_refl).
  - intros w Hw. cbn [names_set] in Hw. apply elem_of_singleton in Hw as ->.
    by left.
  - cbn [names_set]. by apply elem_of_singleton.
Defined.

Lemma contains_leaves_counts_witness :
  contains_leaves (FakeCache_methods (option string)
                     (fun p attr => if String.eqb attr "name"
                                    then Some "x" else None))
    fake_cache ([], cg_target) (OneName (Some "x"))
  = Ok false.
Proof.
  exact (proj2 (proj2 (proj2 (contains_leaves_counts
                  (FakeCache_methods (option string)
                     (fun p attr => if String.eqb attr "name"
                                    then Some "x" else None))
                  fake_cache ([], cg_target)
                  [Some "x"; Some "x"] eq_refl))
           (Some "x") None ltac:(discriminate) eq_refl)).
Defined.

(** ** Termination: the methods that do not recur *)

Lemma finishes_ret {A : Type} (a : A) : finishes (ret a).
Proof. by intros h. Qed.

Lemma finishes_raise {A : Type} (e : exn) : finishes (raise e : M A).
Proof. by intros h. Qed.

Lemma finishes_bind {A B : Type} (m : M A) (k : A -> M B) :
  finishes m -> (forall a, finishes (k a)) -> finishes (bind m k).
Proof.
  intros Hm Hk h. unfold bind. specialize (Hm h).
  destruct (m h) as [[a|e|] h1]; [apply Hk|done|done].
Qed.

Lemma finishes_lift {A : Type} (r : res A) : finishes (lift r).
Proof. destruct r; [apply finishes_ret|apply finishes_raise]. Qed.

Lemma finishes_get_obj (l : loc) : finishes (get_obj l).
Proof. intros h. unfold get_obj. by destruct (h !! l). Qed.

Lemma finishes_get_controller (l : loc) : finishes (get_controller l).
Proof.
  apply finishes_bind; [apply finishes_get_obj|]. intros o.
  destruct (p_controller o); [apply finishes_ret|apply finishes_raise].
Qed.

Lemma finishes_get_children (l : loc) : finishes (get_children l).
Proof.
  apply finishes_bind; [apply finishes_get_obj|]. intros o. apply finishes_ret.
Qed.

Lemma finishes_is_leaf (l : loc) : finishes (is_leaf l).
Proof.
  apply finishes_bind; [apply finishes_get_children|]. intros ks.
  apply finishes_ret.
Qed.

Lemma finishes_set_name (l : loc) (n : string) : finishes (set_name l n).
Proof. by intros h. Qed.

Lemma finishes_put_controller (l : loc) (c : controller) :
  finishes (put_controller l c).
Proof. by intros h. Qed.

Lemma finishes_add_skipped (l : loc) (d : Z) : finishes (add_skipped l d).
Proof.
  apply finishes_bind; [apply finishes_get_controller|]. intros c.
  apply finishes_put_controller.
Qed.

Lemma finishes_index {A : Type} (l : list A) (i : nat) : finishes (index l i).
Proof.
  unfold index. destruct (l !! i); [apply finishes_ret|apply finishes_raise].
Qed.

Lemma finishes_bind_ret {A B : Type} (a : A) (k : A -> M B) :
  finishes (k a) -> finishes (bind (ret a) k).
Proof. intros Hk h. apply Hk. Qed.

Lemma finishes_is_local_match pyeval T (self : loc) (x : tnode) :
  finishes (is_local_match pyeval T self x).
Proof.
  unfold is_local_match.
  apply finishes_bind; [apply finishes_get_obj|]. intros o.
  apply finishes_bind; [apply finishes_get_controller|]. intros c.
  destruct (eval_constraints _ _ _ _ _ _) as [st|[]];
    try apply finishes_ret; try apply finishes_raise.
  intros h. destruct (h !! get_tree_root h self); [|done].
  by destruct (eval_constraints _ _ _ _ _ _).
Qed.

Lemma finishes_match_node pyeval T (self : loc) (node : tnode) :
  finishes (match_node pyeval T self node).
Proof.
  unfold match_node.
  apply finishes_bind; [apply finishes_get_controller|]. intros c.
  apply finishes_bind; [apply finishes_is_leaf|]. intros leaf.
  apply finishes_bind.
  { destruct (_ && _); [|apply finishes_ret].
    apply finishes_bind; [apply finishes_get_children|]. intros ks.
    apply finishes_index. }
  intros self'.
  apply finishes_bind; [apply finishes_is_local_match|]. intros st.
  cbv zeta. cbn [negb].
  apply finishes_bind; [apply finishes_ret|]. intros st'.
  apply finishes_bind; [apply finishes_get_controller|]. intros c'.
  destruct (negb st').
  - apply finishes_bind; [apply finishes_is_leaf|]. intros leaf'.
    destruct (_ && _); [apply finishes_ret|].
    apply finishes_bind; [apply finishes_get_obj|]. intros o.
    destruct (p_up o) as [up|]; [|apply finishes_ret].
    apply finishes_bind; [apply finishes_get_controller|]. intros cu.
    destruct (_ && _); [|apply finishes_ret].
    apply finishes_bind; [apply finishes_add_skipped|]. intros _.
    apply finishes_ret.
  - destruct (_ && _); [|apply finishes_ret].
    apply finishes_bind; [apply finishes_add_skipped|]. intros _.
    apply finishes_ret.
Qed.

(** ** Termination: the loops over the children *)

Section LoopsFinish.

Variable rec : loc -> tnode -> M bool.

(** The target nodes on which the recursive call finishes. *)
Variable ok : tnode -> Prop.
Hypothesis Hrec : forall (l : loc) (y : tnode), ok y -> finishes (rec l y).

(** Every iteration of the loop advances [j], and indexing the candidate
    past its end raises: the iterations are at most one more than the nodes
    of the candidate from [j] on. *)
Lemma finishes_while_loop (self : loc) (candidate : list tnode) :
  Forall ok candidate ->
  forall (fuel i j : nat) (v : locals),
    (length candidate - j < fuel)%nat ->
    finishes (while_loop rec fuel self candidate i j v).
Proof.
  intros Hc. induction fuel as [|fuel IH]; intros i j v Hf; [lia|].
  cbn [while_loop].
  apply finishes_bind; [apply finishes_get_children|]. intros children.
  destruct (i <? length children)%nat; [|apply finishes_ret].
  apply finishes_bind; [apply finishes_index|]. intros child.
  unfold index at 1. destruct (candidate !! j) as [y|] eqn:Ey.
  2:{ intros h. done. }
  assert (Hy : ok y).
  { rewrite Forall_forall in Hc. apply Hc. by eapply list_elem_of_lookup_2. }
  apply lookup_lt_Some in Ey.
  apply finishes_bind_ret.
  apply finishes_bind; [by apply Hrec|]. intros st.
  apply finishes_bind; [apply finishes_is_leaf|]. intros child_leaf.
  apply finishes_bind.
  { destruct child_leaf; [apply finishes_get_controller|apply finishes_ret]. }
  intros cc. destruct (_ && _ && _).
  - cbv zeta. destruct (S j <? length candidate)%nat; apply IH; lia.
  - apply finishes_bind; [apply finishes_get_controller|]. intros c.
    apply finishes_bind.
    { destruct (_ && _); [|apply finishes_ret].
      apply finishes_bind; [apply finishes_index|]. intros cand_i.
      apply finishes_ret. }
    intros skip. cbv zeta. apply IH. lia.
Qed.

Lemma finishes_candidates_loop (self : loc) (candidates : list (list tnode)) :
  Forall (Forall ok) candidates ->
  forall v : locals, finishes (candidates_loop rec self candidates v).
Proof.
  induction 1 as [|candidate rest Hc Hrest IH]; intros v;
    [apply finishes_ret|].
  cbn [candidates_loop].
  apply finishes_bind; [apply finishes_get_children|]. intros children.
  cbv zeta.
  apply finishes_bind; [apply finishes_while_loop; [done|lia]|]. intros v'.
  destruct (test_children_properties v'); [apply IH|].
  destruct (_ && _); [apply finishes_ret|apply IH].
Qed.

Lemma finishes_fold_continious_matched (self : loc) (v : locals) :
  finishes (fold_continious_matched self v).
Proof.
  unfold fold_continious_matched.
  apply finishes_bind; [apply finishes_get_children|]. intros children.
  apply finishes_bind; [apply finishes_index|]. intros last_child.
  apply finishes_bind; [apply finishes_get_controller|]. intros lc.
  apply finishes_ret.
Qed.

(** The elements of a permutation are elements of the list. *)
Lemma pick_elements {A : Type} (l : list A) (y : A) (r : list A) :
  (y, r) ∈ pick l -> y ∈ l /\ (forall z, z ∈ r -> z ∈ l).
Proof.
  revert y r. induction l as [|x l IH]; intros y r Hp; [by inversion Hp|].
  cbn [pick] in Hp. apply elem_of_cons in Hp as [[= -> ->]|Hp].
  - split; [by left|]. intros z Hz. by right.
  - apply list_elem_of_fmap in Hp as ([y' r'] & [= -> ->] & Hp).
    apply IH in Hp as [Hy Hr]. split; [by right|].
    intros z [->|Hz]%elem_of_cons; [by left|]. right. by apply Hr.
Qed.

Lemma permutations_fuel_elements {A : Type} (n : nat) :
  forall (l c : list A) (y : A),
    c ∈ permutations_fuel n l -> y ∈ c -> y ∈ l.
Proof.
  induction n as [|n IH]; intros l c y Hc Hy.
  - cbn in Hc. apply list_elem_of_singleton in Hc as ->. by inversion Hy.
  - cbn [permutations_fuel] in Hc.
    apply list_elem_of_In, in_flat_map in Hc as ([x r] & Hp & Hc).
    apply list_elem_of_In in Hp, Hc.
    apply list_elem_of_fmap in Hc as (c' & -> & Hc').
    apply pick_elements in Hp as [Hx Hr].
    apply elem_of_cons in Hy as [->|Hy]; [done|].
    apply Hr. by eapply IH.
Qed.

Lemma finishes_nodes_loop (self : loc) (nodes : list tnode) :
  Forall (fun node => Forall ok (kids node)) nodes ->
  forall st : bool, finishes (nodes_loop rec self nodes st).
Proof.
  induction 1 as [|node rest Hn Hrest IH]; intros st; [apply finishes_ret|].
  cbn [nodes_loop].
  apply finishes_bind; [apply finishes_get_children|]. intros children.
  apply finishes_bind.
  { cbv zeta. destruct (_ <=? _)%nat; [|apply finishes_ret].
    apply finishes_bind.
    - apply finishes_candidates_loop. apply Forall_forall. intros c Hc.
      apply Forall_forall. intros y Hy. rewrite Forall_forall in Hn.
      apply Hn. by eapply permutations_fuel_elements.
    - intros v. destruct (test_children_properties v);
        [apply finishes_fold_continious_matched|apply finishes_ret]. }
  intros v. destruct (_ && _); [apply finishes_ret|apply IH].
Qed.

End LoopsFinish.

(** ** Termination: the nodes that [match] descends to *)

Lemma children_height (t c : tree) (i : nat) :
  t_children t !! i = Some c -> (S (tree_height c) <= tree_height t)%nat.
Proof.
  destruct t as [n ts]. cbn [t_children tree_height]. revert i.
  induction ts as [|d ts IH]; intros i Hi; [done|].
  cbn [map foldr]. destruct i as [|i].
  - injection Hi as ->. lia.
  - specialize (IH i Hi). lia.
Qed.

Lemma subtree_app (t : tree) (p q : path) :
  subtree t (p ++ q)%list
  = match subtree t p with Some t' => subtree t' q | None => None end.
Proof.
  revert t. induction p as [|i p IH]; intros t; [done|].
  cbn [app subtree]. destruct (t_children t !! i); [apply IH|done].
Qed.

Lemma subtree_height (t t' : tree) (q : path) :
  subtree t q = Some t' -> (tree_height t' <= tree_height t)%nat.
Proof.
  revert t. induction q as [|i q IH]; intros t H.
  - cbn in H. injection H as ->. lia.
  - cbn [subtree] in H. destruct (t_children t !! i) as [c|] eqn:Ec; [|done].
    apply IH in H. apply children_height in Ec. lia.
Qed.

Lemma below_refl (x : tnode) : below x x.
Proof. exists []. by rewrite app_nil_r. Qed.

Lemma below_trans (x y z : tnode) : below x y -> below y z -> below x z.
Proof.
  intros (q & Eq & Hq) (r & Er & Hr). exists (q ++ r)%list. split.
  - by rewrite Er, Eq, app_assoc.
  - by rewrite subtree_app, Hq.
Qed.

Lemma below_height (x y : tnode) :
  below x y -> (tree_height (snd y) <= tree_height (snd x))%nat.
Proof. intros (q & _ & Hq). by eapply subtree_height. Qed.

Lemma kids_lookup (x z : tnode) :
  z ∈ kids x ->
  exists i, fst z = (fst x ++ [i])%list
            /\ t_children (snd x) !! i = Some (snd z).
Proof.
  unfold kids. intros Hz. apply elem_of_lookup_imap in Hz as (i & c & -> & Hc).
  by exists i.
Qed.

Lemma below_kids (x z : tnode) : z ∈ kids x -> below x z.
Proof.
  intros (i & Ei & Hi)%kids_lookup. exists [i]. split; [done|].
  cbn [subtree]. by rewrite Hi.
Qed.

Lemma kids_length (x : tnode) :
  length (kids x) = length (t_children (snd x)).
Proof. unfold kids. apply length_imap. Qed.

(** The nodes of a traversal in level order lie below its first node. *)
Lemma traverse_queue_below (x : tnode) (fuel : nat) :
  forall queue : list tnode,
    Forall (below x) queue -> Forall (below x) (traverse_queue fuel queue).
Proof.
  induction fuel as [|fuel IH]; intros queue Hq; [constructor|].
  cbn [traverse_queue]. destruct Hq as [|y rest Hy Hrest]; [constructor|].
  constructor; [done|]. apply IH. apply Forall_app. split; [done|].
  apply Forall_forall. intros z Hz.
  eapply below_trans; [exact Hy|by apply below_kids].
Qed.

Lemma traverse_levelorder_below (x y : tnode) :
  y ∈ traverse_levelorder x -> below x y.
Proof.
  unfold traverse_levelorder. intros Hy.
  assert (H : Forall (below x) (traverse_queue (tree_size (snd x)) [x])).
  { apply traverse_queue_below. constructor; [apply below_refl|constructor]. }
  rewrite Forall_forall in H. by apply H.
Qed.

(** The sisters of a node are the children of a node of the target. *)
Lemma get_sisters_kids (T : tree) (y z : tnode) :
  z ∈ get_sisters T y ->
  exists (p : path) (i : nat) (t : tree),
    fst y = (p ++ [i])%list /\ subtree T p = Some t /\ z ∈ kids (p, t).
Proof.
  unfold get_sisters. destruct (reverse (fst y)) as [|i rp] eqn:Er;
    [by intros H; inversion H|].
  destruct (subtree T (reverse rp)) as [t|] eqn:Et;
    [|by intros H; inversion H].
  intros Hz. exists (reverse rp), i, t. split; [|split; [done|]].
  - rewrite <- (reverse_involutive (fst y)), Er. by rewrite reverse_cons.
  - apply list_elem_of_omap in Hz as ([j w] & Hjw & Hf).
    apply elem_of_lookup_imap in Hjw as (j' & w' & [= -> ->] & Hw).
    destruct (j' =? i)%nat; [done|]. injection Hf as <-.
    by eapply list_elem_of_lookup_2.
Qed.

(** The nodes whose children [match] compares with the children of the
    pattern node are nodes of the target, none of them higher than the target
    node. *)
Lemma skip_to_nodes_below (T : tree) (c : controller) (n : nat)
    (node : tnode) (st : bool) (z : tnode) :
  in_target T node ->
  z ∈ match fst (skip_to_nodes T c n node st) with
      | [] => [node]
      | nodes => nodes
      end ->
  in_target T z /\ (tree_height (snd z) <= tree_height (snd node))%nat.
Proof.
  intros Hn. unfold skip_to_nodes.
  assert (Hself : z ∈ [node] ->
            in_target T z
            /\ (tree_height (snd z) <= tree_height (snd node))%nat).
  { intros ->%list_elem_of_singleton. split; [done|lia]. }
  destruct (length (kids node) <? n)%nat eqn:El; [|exact Hself].
  destruct (c_allow_indirect_connection c); [|exact Hself].
  destruct (List.find _ _) as [y|] eqn:Ef; [|exact Hself].
  cbn [fst]. apply find_some in Ef as [Hy Hk].
  apply list_elem_of_In, traverse_levelorder_below in Hy.
  apply Nat.ltb_lt in El. apply Nat.leb_le in Hk.
  intros [->|Hz]%elem_of_cons.
  { split; [by eapply below_trans|by apply below_height]. }
  apply get_sisters_kids in Hz as (p & i & t & Ep & Et & Hz).
  destruct Hy as (q & Eq & Hq).
  destruct Hn as (q0 & Eq0 & Hq0). cbn [fst snd app] in Eq0, Hq0.
  assert (Hne : q <> []).
  { intros ->. cbn in Hq. injection Hq as Hq.
    rewrite !kids_length, Hq in *. lia. }
  destruct (exists_last Hne) as (q' & i' & ->).
  rewrite Eq, app_assoc in Ep. apply app_inj_tail in Ep as [Ep <-].
  assert (Ht : subtree (snd node) q' = Some t).
  { rewrite <- Et, <- Ep, Eq0, subtree_app, Hq0. done. }
  split.
  - eapply (below_trans _ (p, t)); [|by apply below_kids].
    exists p. by split.
  - apply below_kids, below_height in Hz. cbn [snd] in Hz.
    apply subtree_height in Ht. lia.
Qed.

Section MatchFinishes.

Variable pyeval : tree -> syntax -> string -> list (string * path) -> res bool.
Variable T : tree.

Lemma finishes_match_children (rec : loc -> tnode -> M bool) (f : nat)
    (self : loc) (node : tnode) (st : bool) :
  (forall (l : loc) (y : tnode),
     in_target T y /\ (tree_height (snd y) <= f)%nat -> finishes (rec l y)) ->
  in_target T node -> (tree_height (snd node) <= S f)%nat ->
  finishes (match_children T rec self node st).
Proof.
  intros Hrec Hn Hh. unfold match_children.
  apply finishes_bind; [apply finishes_get_children|]. intros children.
  apply finishes_bind.
  2:{ intros st'. apply finishes_bind.
      { destruct (negb st'); [apply finishes_get_controller|apply finishes_ret]. }
      intros c. apply finishes_bind; [|intros _; apply finishes_ret].
      destruct (_ && _); [apply finishes_add_skipped|apply finishes_ret]. }
  destruct (_ && _); [|apply finishes_ret].
  apply finishes_bind.
  { destruct (_ <? _)%nat; [apply finishes_get_controller|apply finishes_ret]. }
  intros c.
  pose proof (skip_to_nodes_below T c (length children) node st) as Hs.
  destruct (skip_to_nodes T c (length children) node st) as [nodes st'].
  cbn [fst] in Hs.
  apply (finishes_nodes_loop rec
           (fun y => in_target T y /\ (tree_height (snd y) <= f)%nat) Hrec).
  apply Forall_forall. intros z Hz. apply Forall_forall. intros y Hy.
  destruct (Hs z Hn) as [Hzt Hzh]; [by destruct nodes|]. split.
  - eapply below_trans; [exact Hzt|by apply below_kids].
  - apply kids_height in Hy. lia.
Qed.

(** [match] finishes on every node of the target when the fuel is the
    height of the node at least. *)
Lemma finishes_match_fuel (f : nat) :
  forall (l : loc) (x : tnode),
    in_target T x /\ (tree_height (snd x) <= f)%nat ->
    finishes (match_fuel pyeval T f l x).
Proof.
  induction f as [|f IH]; intros l x [Hx Hh].
  { pose proof (tree_height_pos (snd x)). lia. }
  cbn [match_fuel]. unfold match_body.
  apply finishes_bind; [apply finishes_match_node|]. intros [st self].
  by apply (finishes_match_children _ f).
Qed.

Lemma finishes_match (l : loc) (x : tnode) :
  in_target T x -> finishes (match_ pyeval T l x).
Proof. intros Hx. apply finishes_match_fuel. split; [done|lia]. Qed.

End MatchFinishes.

(** ** Termination: the traversals and the search *)

Lemma below_child (p : path) (t c : tree) (i : nat) (y : tnode) :
  t_children t !! i = Some c ->
  below ((p ++ [i])%list, c) y -> below (p, t) y.
Proof.
  intros Hc Hy. eapply below_trans; [|exact Hy].
  exists [i]. split; [done|]. cbn [snd subtree]. by rewrite Hc.
Qed.

Lemma traverse_preorder_below (n : nat) :
  forall (t : tree) (p : path) (y : tnode),
    (tree_height t <= n)%nat ->
    y ∈ traverse_preorder p t -> below (p, t) y.
Proof.
  induction n as [|n IH]; intros t p y Hh Hy.
  { pose proof (tree_height_pos t). lia. }
  destruct t as [m ts]. cbn [traverse_preorder] in Hy.
  apply elem_of_cons in Hy as [->|Hy]; [apply below_refl|].
  match type of Hy with
  | _ ∈ ?go 0%nat ts =>
      assert (G : forall (ts' : list tree) (i : nat),
                 (forall j c, ts' !! j = Some c ->
                              ts !! (i + j)%nat = Some c) ->
                 y ∈ go i ts' -> below (p, Node m ts) y)
  end.
  { induction ts' as [|c ts' IHts]; intros i Hi Hin; [by inversion Hin|].
    apply elem_of_app in Hin as [Hin|Hin].
    - assert (Hc : ts !! i = Some c)
        by (rewrite <- (Nat.add_0_r i); by apply Hi).
      apply (below_child p (Node m ts) c i); [done|].
      apply IH; [|done].
      pose proof (children_height (Node m ts) c i Hc). lia.
    - apply (IHts (S i)); [|done]. intros j d Hd.
      replace (S i + j)%nat with (i + S j)%nat by lia. by apply Hi. }
  by apply (G ts 0%nat).
Qed.

Lemma traverse_postorder_below (n : nat) :
  forall (t : tree) (p : path) (y : tnode),
    (tree_height t <= n)%nat ->
    y ∈ traverse_postorder p t -> below (p, t) y.
Proof.
  induction n as [|n IH]; intros t p y Hh Hy.
  { pose proof (tree_height_pos t). lia. }
  destruct t as [m ts]. cbn [traverse_postorder] in Hy.
  apply elem_of_app in Hy as [Hy|Hy].
  2:{ apply list_elem_of_singleton in Hy as ->. apply below_refl. }
  match type of Hy with
  | _ ∈ ?go 0%nat ts =>
      assert (G : forall (ts' : list tree) (i : nat),
                 (forall j c, ts' !! j = Some c ->
                              ts !! (i + j)%nat = Some c) ->
                 y ∈ go i ts' -> below (p, Node m ts) y)
  end.
  { induction ts' as [|c ts' IHts]; intros i Hi Hin; [by inversion Hin|].
    apply elem_of_app in Hin as [Hin|Hin].
    - assert (Hc : ts !! i = Some c)
        by (rewrite <- (Nat.add_0_r i); by apply Hi).
      apply (below_child p (Node m ts) c i); [done|].
      apply IH; [|done].
      pose proof (children_height (Node m ts) c i Hc). lia.
    - apply (IHts (S i)); [|done]. intros j d Hd.
      replace (S i + j)%nat with (i + S j)%nat by lia. by apply Hi. }
  by apply (G ts 0%nat).
Qed.

(** Every node of a traversal of the target is a node of the target. *)
Lemma traverse_in_target (strat : strategy) (T : tree) :
  Forall (in_target T) (traverse strat ([], T)).
Proof.
  apply Forall_forall. intros y Hy. unfold in_target.
  destruct strat; cbn [traverse fst snd] in Hy.
  - by eapply traverse_preorder_below.
  - by apply traverse_levelorder_below.
  - by eapply traverse_postorder_below.
Qed.

Lemma finishes_set_controller ST SET (self : loc) :
  finishes (set_controller ST SET self).
Proof.
  unfold set_controller.
  apply finishes_bind; [apply finishes_get_obj|]. intros o.
  apply finishes_bind.
  { destruct (p_name o); [apply finishes_ret|].
    destruct (parse_metacharacters ST _) as [name' ms].
    apply finishes_bind; [apply finishes_set_name|]. intros _.
    apply finishes_ret. }
  intros ms.
  apply finishes_bind; [apply finishes_lift|]. intros props.
  cbv zeta.
  apply finishes_bind; [apply finishes_get_obj|]. intros o1.
  apply finishes_bind; [apply finishes_set_name|]. intros _.
  apply finishes_bind; [apply finishes_get_obj|]. intros o2.
  apply finishes_bind.
  { destruct (Py.contains _ _); [|apply finishes_ret]. cbv zeta.
    apply finishes_bind; [apply finishes_index|]. intros part0.
    apply finishes_bind; [apply finishes_index|]. intros part1.
    apply finishes_set_name. }
  intros _.
  apply finishes_bind; [apply finishes_get_obj|]. intros o3.
  apply finishes_bind.
  { destruct (Py.contains _ _); [|apply finishes_ret]. cbv zeta.
    apply finishes_bind; [apply finishes_index|]. intros part0.
    apply finishes_bind; [apply finishes_index|]. intros part1.
    apply finishes_set_name. }
  intros _.
  apply finishes_bind; [apply finishes_get_obj|]. intros o4.
  apply finishes_bind.
  { destruct (Py.contains _ _); [|apply finishes_ret].
    apply finishes_bind; [apply finishes_set_name|]. intros _.
    apply finishes_ret. }
  intros c.
  apply finishes_bind; [apply finishes_put_controller|]. intros _.
  apply finishes_ret.
Qed.

Lemma finishes_set_controllers ST SET (nodes : list loc) :
  forall b : bool, finishes (set_controllers ST SET nodes b).
Proof.
  induction nodes as [|node rest IH]; intros b; [apply finishes_ret|].
  cbn [set_controllers].
  apply finishes_bind; [apply finishes_set_controller|]. intros b'. apply IH.
Qed.

Lemma finishes_single_match_node (nodes : list loc) :
  forall pattern : option loc, finishes (single_match_node nodes pattern).
Proof.
  induction nodes as [|node rest IH]; intros pattern; [apply finishes_ret|].
  cbn [single_match_node].
  apply finishes_bind; [apply finishes_get_controller|]. intros c. apply IH.
Qed.

Lemma finishes_extreme_loop SET pyeval T (self pattern : loc)
    (match_list : list tnode) :
  forall correct_node : tnode,
    finishes (extreme_loop SET pyeval T self pattern match_list correct_node).
Proof.
  induction match_list as [|node rest IH]; intros best; [apply finishes_ret|].
  cbn [extreme_loop].
  apply finishes_bind; [apply finishes_get_controller|]. intros c.
  apply finishes_bind.
  { destruct (c_single_match_contstraint c);
      [apply finishes_ret|apply finishes_raise]. }
  intros constraint.
  apply finishes_bind; [apply finishes_get_obj|]. intros o. cbv zeta.
  destruct (eval_constraint _ _ _ _ _ _) as [st|[]];
    try apply IH; try apply finishes_raise.
  intros h. destruct (h !! get_tree_root h self); [|done].
  destruct (eval_constraint _ _ _ _ _ _); [apply IH|done].
Qed.

Lemma finishes_find_extreme_case SET pyeval T (self : loc)
    (match_list : list tnode) :
  finishes (find_extreme_case SET pyeval T self match_list).
Proof.
  unfold find_extreme_case.
  apply finishes_bind; [by intros h|]. intros nodes.
  apply finishes_bind; [apply finishes_single_match_node|]. intros pattern.
  apply finishes_bind; [apply finishes_index|]. intros best.
  destruct pattern; [apply finishes_extreme_loop|apply finishes_raise].
Qed.

Lemma finishes_collect_loop pyeval T (pattern : loc) (nodes : list tnode) :
  Forall (in_target T) nodes ->
  forall matched : list tnode,
    finishes (collect_loop pyeval T pattern nodes matched).
Proof.
  induction 1 as [|node rest Hn Hrest IH]; intros matched;
    [apply finishes_ret|].
  cbn [collect_loop].
  apply finishes_bind; [by apply finishes_match|]. intros b. apply IH.
Qed.

Lemma search_loop_finishes pyeval T (pattern : loc) (maxhits : option Z)
    (nodes : list tnode) :
  Forall (in_target T) nodes ->
  forall (n : Z) (h : heap),
    ending (fst (search_loop pyeval T pattern maxhits nodes n h)) <> OutOfFuel.
Proof.
  induction 1 as [|node rest Hn Hrest IH]; intros n h; [done|].
  cbn [search_loop].
  pose proof (finishes_match pyeval T pattern node Hn h) as Hm.
  destruct (match_ pyeval T pattern node h) as [[b|e|] h1]; [|done..].
  destruct (match maxhits with Some k => _ | None => false end); [done|].
  specialize (IH (if b then n + 1 else n) h1).
  by destruct (search_loop pyeval T pattern maxhits rest _ h1).
Qed.

(** The search terminates.  [match] recurs on children of the target node,
    of a node below it or of the sisters of such a node, all of them lower
    in the target than the node itself, and each of its loops advances in a
    finite list: whatever the pattern, the target and the evaluator of the
    constraints, [find_match] ends normally or with an exception, and the
    fuel of the embedding never runs out. *)
Theorem find_match_terminates ST SET pyeval T (self : loc)
    (maxhits : option Z) (strat : strategy) (h : heap) :
  ending (fst (find_match ST SET pyeval T self maxhits strat h)) <> OutOfFuel.
Proof.
  pose proof (traverse_in_target strat T) as Ht.
  unfold find_match. destruct (deepcopy self h) as [h1 p].
  pose proof (finishes_set_controllers ST SET (ptraverse h1 p) false h1)
    as Hs.
  destruct (set_controllers ST SET (ptraverse h1 p) false h1)
    as [[single|e|] h2]; [|done..].
  destruct single; [|by apply search_loop_finishes].
  assert (Hc : finishes
                 (matched_nodes <-
                    collect_loop pyeval T p (traverse strat ([], T)) [] ;;
                  find_extreme_case SET pyeval T p matched_nodes)).
  { apply finishes_bind; [by apply finishes_collect_loop|].
    intros matched. apply finishes_find_extreme_case. }
  specialize (Hc h2).
  by destruct (bind _ _ h2) as [[node|e|] h3].
Qed.

(** ** The counter of skipped nodes within one search *)

Lemma copies_preorder (n : nat) :
  traverse preorder ([], copies n) = ([], copies n) :: copies_nodes 0 n.
Proof.
  unfold copies. cbn [traverse fst snd traverse_preorder]. f_equal.
  generalize 0%nat. induction n as [|n IH]; intros i; [done|].
  cbn [replicate copies_nodes]. rewrite IH. reflexivity.
Qed.

Lemma search_loop_miss pyeval T (pattern : loc) (x : tnode)
    (rest : list tnode) (n : Z) (h h' : heap) :
  match_ pyeval T pattern x h = (Ret false, h') ->
  search_loop pyeval T pattern None (x :: rest) n h
  = search_loop pyeval T pattern None rest n h'.
Proof.
  intros Hm. cbn [search_loop]. rewrite Hm.
  destruct (search_loop pyeval T pattern None rest n h') as [[ys e] h''].
  reflexivity.
Qed.

Section Optional.

Variable pyeval : tree -> syntax -> string -> list (string * path) -> res bool.
Variable T : tree.

Local Abbreviation Hq := (bounded_heap "?" 0 1 true).

(** The root of the target does not match, whatever its children. *)
Lemma optional_root (ts : list tree) (k : Z) :
  match_ pyeval T 3 ([], Node "r" ts) (Hq k) = (Ret false, Hq k).
Proof. unfold match_. cbn [snd tree_height match_fuel]. reflexivity. Qed.

(** The first copy matches and uses the one node the connection may skip;
    no later copy matches. *)
Lemma optional_first_copy (i : nat) (rest : list tnode) (s : search)
    (h : heap) (n : Z) :
  search_loop pyeval T 3 None rest (n + 1) (Hq 1) = (s, h) ->
  search_loop pyeval T 3 None
    (([i], one_between) :: ([i; 0%nat], Node "x" [Node "c" []])
     :: ([i; 0%nat; 0%nat], Node "c" []) :: rest) n (Hq 0)
  = ({| yielded := ([i], one_between) :: yielded s; ending := ending s |}, h).
Proof.
  intros Hr. cbn [search_loop].
  change (match_ pyeval T 3 ([i], one_between) (Hq 0)) with (Ret true, Hq 1).
  cbv beta iota zeta.
  change (match_ pyeval T 3 ([i; 0%nat], Node "x" [Node "c" []]) (Hq 1))
    with (Ret false, Hq 1).
  cbv beta iota zeta.
  change (match_ pyeval T 3 ([i; 0%nat; 0%nat], Node "c" []) (Hq 1))
    with (Ret false, Hq 1).
  cbv beta iota zeta. rewrite Hr. reflexivity.
Qed.

Lemma optional_later_copies (m : nat) :
  forall (i : nat) (n : Z),
    search_loop pyeval T 3 None (copies_nodes i m) n (Hq 1)
    = ({| yielded := []; ending := Ret tt |}, Hq 1).
Proof.
  induction m as [|m IH]; intros i n; [done|].
  cbn [copies_nodes search_loop].
  change (match_ pyeval T 3 ([i], one_between) (Hq 1)) with (Ret false, Hq 1).
  cbv beta iota zeta.
  change (match_ pyeval T 3 ([i; 0%nat], Node "x" [Node "c" []]) (Hq 1))
    with (Ret false, Hq 1).
  cbv beta iota zeta.
  change (match_ pyeval T 3 ([i; 0%nat; 0%nat], Node "c" []) (Hq 1))
    with (Ret false, Hq 1).
  cbv beta iota zeta. by rewrite IH.
Qed.

End Optional.

Lemma compile_zero_or_one SET :
  markers_absent SET connection_names = true ->
  set_controllers default_symbols SET [3%nat; 4%nat; 5%nat] false
    [ fresh_obj "a" [1%nat] None DefaultSyntax;
      fresh_obj "?" [2%nat] (Some 0%nat) DefaultSyntax;
      fresh_obj "c" [] (Some 1%nat) DefaultSyntax;
      fresh_obj "a" [4%nat] None DefaultSyntax;
      fresh_obj "?" [5%nat] (Some 3%nat) DefaultSyntax;
      fresh_obj "c" [] (Some 4%nat) DefaultSyntax ]
  = (Ret false, bounded_heap "?" 0 1 true 0).
Proof. intros Hm. compile_connection Hm. Qed.

(** The counter of skipped nodes is shared by all the target nodes of one
    search.  The connection of the pattern [((c)?)a] may skip one node; the
    first node named [a] with one node between it and a node named [c] uses
    that one, and the counter is not given back after a match: of [n + 1]
    identical such nodes under the root of the target, the search without a
    bound on the hits yields the first and none of the others. *)
Theorem skipped_counter_is_shared SET pyeval (n : nat) :
  markers_absent SET connection_names = true ->
  let '(h, p) := TreePattern_init DefaultSyntax (connection_pattern "?") [] in
  fst (find_match default_symbols SET pyeval (copies (S n)) p None
         preorder h)
  = {| yielded := [([0%nat], one_between)]; ending := Ret tt |}.
Proof.
  intros Hm.
  change (TreePattern_init DefaultSyntax (connection_pattern "?") [])
    with ([ fresh_obj "a" [1%nat] None DefaultSyntax;
            fresh_obj "?" [2%nat] (Some 0%nat) DefaultSyntax;
            fresh_obj "c" [] (Some 1%nat) DefaultSyntax ], 0%nat).
  cbv beta iota zeta. unfold find_match.
  change (deepcopy 0 _)
    with ([ fresh_obj "a" [1%nat] None DefaultSyntax;
            fresh_obj "?" [2%nat] (Some 0%nat) DefaultSyntax;
            fresh_obj "c" [] (Some 1%nat) DefaultSyntax;
            fresh_obj "a" [4%nat] None DefaultSyntax;
            fresh_obj "?" [5%nat] (Some 3%nat) DefaultSyntax;
            fresh_obj "c" [] (Some 4%nat) DefaultSyntax ], 3%nat).
  cbv beta iota. change (ptraverse _ 3) with [3%nat; 4%nat; 5%nat].
  rewrite (compile_zero_or_one SET Hm), copies_preorder.
  rewrite (search_loop_miss pyeval (copies (S n)) 3 ([], copies (S n)) _ 0
             _ _ (optional_root pyeval (copies (S n))
                    (replicate (S n) one_between) 0)).
  cbn [copies_nodes].
  erewrite optional_first_copy; [|apply optional_later_copies].
  reflexivity.
Qed.

Lemma skipped_counter_is_shared_witness :
  let '(h, p) := TreePattern_init DefaultSyntax (connection_pattern "?") [] in
  fst (find_match default_symbols sample_sets no_oracle (copies 3) p None
         preorder h)
  = {| yielded := [([0%nat], one_between)]; ending := Ret tt |}.
Proof.
  exact (skipped_counter_is_shared sample_sets no_oracle 2 eq_refl).
Defined.

(** ** Bounds that are no numbers *)

Lemma non_numeric_lstrip (s : string) :
  non_numeric s = true -> non_numeric (Py.lstrip s) = true.
Proof.
  induction s as [|c s IH]; [done|]. intros H. cbn [Py.lstrip].
  destruct (Py.is_space c) eqn:Ec; [|done]. apply IH.
  cbn [non_numeric] in H. unfold numeric_char in H. rewrite Ec in H.
  by rewrite orb_true_r in H.
Qed.

Lemma non_numeric_rstrip (s : string) :
  non_numeric s = true -> non_numeric (Py.rstrip s) = true.
Proof.
  induction s as [|c s IH]; [done|]. intros H. cbn [non_numeric] in H.
  cbn [Py.rstrip]. destruct (non_numeric s) eqn:Es.
  - specialize (IH eq_refl). destruct (Py.rstrip s) as [|d r]; [done|].
    cbn [non_numeric] in *. by rewrite IH, orb_true_r.
  - rewrite orb_false_r in H.
    destruct (Py.rstrip s) as [|d r].
    + destruct (Py.is_space c) eqn:Ec.
      * unfold numeric_char in H. by rewrite Ec, orb_true_r in H.
      * cbn [non_numeric]. by rewrite H.
    + cbn [non_numeric]. by rewrite H.
Qed.

Lemma digits_value_non_numeric (s : string) :
  non_numeric s = true -> forall acc, Py.digits_value acc s = None.
Proof.
  induction s as [|c s IH]; [done|]. intros H acc. cbn [non_numeric] in H.
  cbn [Py.digits_value]. destruct (Py.is_digit c) eqn:Ec; [|done].
  apply IH. unfold numeric_char in H. by rewrite Ec in H.
Qed.

(** [int] raises on a text that is no number. *)
Lemma int_non_numeric (s : string) : non_numeric s = true -> Py.int s = None.
Proof.
  intros H. unfold Py.int, Py.strip.
  apply non_numeric_lstrip, non_numeric_rstrip in H.
  destruct (Py.rstrip (Py.lstrip s)) as [|c rest]; [done|].
  cbn [non_numeric] in H.
  destruct (Ascii.eqb c "-") eqn:E1.
  { unfold numeric_char in H. rewrite E1, orb_true_r in H.
    destruct rest; [done|]. by rewrite digits_value_non_numeric. }
  destruct (Ascii.eqb c "+") eqn:E2.
  { unfold numeric_char in H. rewrite E2, orb_true_r in H.
    destruct rest; [done|]. by rewrite digits_value_non_numeric. }
  by apply digits_value_non_numeric.
Qed.

Lemma split_not_nil (c : ascii) (s : string) : Py.split c s <> [].
Proof.
  destruct s as [|d s]; [done|]. cbn [Py.split].
  destruct (Ascii.eqb c d); [done|]. by destruct (Py.split c s).
Qed.

Lemma split_with_sep (c : ascii) (s : string) :
  Py.mem_char c s = true ->
  exists s0 s1 rest, Py.split c s = s0 :: s1 :: rest.
Proof.
  induction s as [|d s IH]; [done|]. cbn [Py.mem_char Py.split]. intros H.
  destruct (Ascii.eqb c d).
  - pose proof (split_not_nil c s) as Hp.
    destruct (Py.split c s) as [|s1 rest]; [done|]. by eexists _, _, _.
  - destruct (IH H) as (s0 & s1 & rest & ->). by eexists _, _, _.
Qed.

(** [decode_repeat_symbol] raises the [ValueError] of [int] on a marker
    whose bounds are malformed. *)
Lemma decode_repeat_symbol_malformed (ST : symbols) (body : string) :
  malformed_bounds body = true ->
  decode_repeat_symbol (braces ST body) = Raise ValueError.
Proof.
  unfold malformed_bounds, decode_repeat_symbol, braces. intros H.
  rewrite slice_inside.
  destruct (Py.mem_char "-" body) eqn:Ed.
  - destruct (split_with_sep _ _ Ed) as (s0 & s1 & rest & E).
    rewrite E in *. cbn [take existsb] in H. rewrite orb_false_r in H.
    change (default "" ((s0 :: s1 :: rest) !! 0%nat)) with s0.
    change (default "" ((s0 :: s1 :: rest) !! 1%nat)) with s1.
    destruct (non_numeric s0) eqn:E0.
    + rewrite (int_non_numeric s0 E0). by destruct s0.
    + cbn [orb] in H. rewrite (int_non_numeric s1 H).
      destruct s1; [done|]. destruct s0; [done|].
      by destruct (Py.int (String _ s0)).
  - rewrite split_no_sep in H by done. cbn [take existsb] in H.
    rewrite orb_false_r in H. by rewrite (int_non_numeric body H).
Qed.

(** ** A malformed marker in a label *)

Lemma parse_loop_accumulates (ST : symbols) (fuel : nat) :
  forall (name : string) (ms : list string),
    exists ms', snd (parse_metacharacters_loop ST fuel name ms) = (ms ++ ms')%list.
Proof.
  induction fuel as [|fuel IH]; intros name ms.
  { exists []. cbn. by rewrite app_nil_r. }
  cbn [parse_metacharacters_loop].
  destruct (Py.last_char name) as [c|];
    [|exists []; cbn; by rewrite app_nil_r].
  destruct (in_values ST c); [|exists []; cbn; by rewrite app_nil_r].
  destruct (Py.mem_char (sym_defined_number_set_start ST) name);
    match goal with
    | |- context [parse_metacharacters_loop ST fuel ?n (ms ++ [?m])%list] =>
        destruct (IH n (ms ++ [m])%list) as [ms' ->]; exists (m :: ms');
        by rewrite <- app_assoc
    end.
Qed.

(** The marker is the first metacharacter that is read off a label
    [r{body}t]: [r] is free of braces, [body] of the closing brace, and [t]
    is empty or ends with a symbol. *)
Lemma parse_metacharacters_marker_first (ST : symbols) (r body t : string) :
  symbols_ok ST = true ->
  Py.mem_char (sym_defined_number_set_start ST) r = false ->
  Py.mem_char (sym_defined_number_set_end ST) r = false ->
  Py.mem_char (sym_defined_number_set_end ST) body = false ->
  (t = EmptyString
   \/ exists c, Py.last_char t = Some c /\ in_values ST c = true) ->
  exists ms,
    snd (parse_metacharacters ST (r ++ braces ST body ++ t))
    = braces ST body :: ms.
Proof.
  intros Hok Hor Her Hbody Ht.
  assert (Hne : sym_defined_number_set_start ST <> sym_defined_number_set_end ST)
    by symbols_differ Hok.
  assert (He : in_values ST (sym_defined_number_set_end ST) = true)
    by (apply in_values_In; cbn; tauto).
  assert (Hl : exists c,
             Py.last_char (String (sym_defined_number_set_end ST) t) = Some c
             /\ in_values ST c = true).
  { destruct Ht as [->|(c & Hc & Hin)]; [by eexists|].
    exists c. split; [|done]. by destruct t. }
  destruct Hl as (c & Hl & Hc).
  assert (E1 : r ++ braces ST body ++ t
               = r ++ String (sym_defined_number_set_start ST)
                        (body ++ String (sym_defined_number_set_end ST) t)).
  { unfold braces. f_equal. rewrite string_app_cons. f_equal.
    by rewrite string_app_assoc. }
  unfold parse_metacharacters. rewrite E1.
  set (name := r ++ String _ (body ++ String _ t)).
  assert (Hlen : exists n, String.length name = S n).
  { subst name. rewrite string_length_app. cbn [String.length].
    eexists. by rewrite Nat.add_succ_r. }
  destruct Hlen as [n ->]. subst name.
  rewrite (parse_loop_braces ST r body t c) by done.
  destruct (parse_loop_accumulates ST n r ([] ++ [braces ST body])%list)
    as [ms Hms].
  destruct (parse_metacharacters_loop ST n r ([] ++ [braces ST body])%list)
    as [name' ms0].
  cbn [snd] in Hms. subst ms0. exists ms. by destruct name'.
Qed.

Lemma define_skipping_malformed (ST : symbols) (body : string)
    (ms : list string) :
  malformed_bounds body = true ->
  define_skipping_properties ST (braces ST body :: ms) = Raise ValueError.
Proof.
  intros Hb. unfold define_skipping_properties.
  cbn [define_skipping_loop]. unfold define_skipping_step.
  rewrite (decode_repeat_symbol_malformed ST body Hb).
  unfold braces. rewrite !marker_not_symbol.
  cbn [Py.mem_char]. by rewrite Ascii.eqb_refl.
Qed.

(** [set_controller] on a node with a malformed marker. *)
Lemma set_controller_malformed_marker ST SET (self : loc) (h : heap)
    (o : pobj) (r body t : string) :
  symbols_ok ST = true ->
  Py.mem_char (sym_defined_number_set_start ST) r = false ->
  Py.mem_char (sym_defined_number_set_end ST) r = false ->
  Py.mem_char (sym_defined_number_set_end ST) body = false ->
  (t = EmptyString
   \/ exists c, Py.last_char t = Some c /\ in_values ST c = true) ->
  malformed_bounds body = true ->
  h !! self = Some o ->
  p_name o = r ++ braces ST body ++ t ->
  exists h', set_controller ST SET self h = (Exc ValueError, h').
Proof.
  intros Hok Hor Her Hbody Ht Hb Ho Hname.
  destruct (parse_metacharacters_marker_first ST r body t Hok Hor Her Hbody Ht)
    as [ms Hp].
  rewrite <- Hname in Hp.
  unfold set_controller, bind, get_obj. rewrite Ho.
  destruct (p_name o) as [|a s] eqn:E.
  { exfalso. unfold braces in Hname. by destruct r. }
  destruct (parse_metacharacters ST (String a s)) as [name' ms0].
  cbn [snd] in Hp. subst ms0.
  unfold set_name, ret. cbv beta iota zeta.
  rewrite (define_skipping_malformed ST body ms Hb). cbn. by eexists.
Qed.

(** ** What compiling a node does to the store *)

Lemma compiles_at_ret {A : Type} (l : loc) (a : A) : compiles_at l (ret a).
Proof. intros h _. by cbn. Qed.

Lemma compiles_at_bind {A B : Type} (l : loc) (m : M A) (k : A -> M B) :
  compiles_at l m -> (forall a, compiles_at l (k a)) ->
  compiles_at l (bind m k).
Proof.
  intros Hm Hk h Hl. unfold bind. specialize (Hm h Hl).
  destruct (m h) as [[a|e|] h1]; [|done..].
  destruct Hm as [Hlen Hsame].
  assert (Hl1 : is_Some (h1 !! l)).
  { apply lookup_lt_is_Some. rewrite Hlen. by apply lookup_lt_is_Some. }
  specialize (Hk a h1 Hl1).
  destruct (k a h1) as [[b|e|] h2]; [|done..].
  destruct Hk as [Hlen2 Hsame2]. split; [congruence|].
  intros l' Hne. by rewrite Hsame2, Hsame.
Qed.

Lemma compiles_at_get_obj (l : loc) : compiles_at l (get_obj l).
Proof. intros h [o Ho]. unfold get_obj. by rewrite Ho. Qed.

Lemma compiles_at_alter (l : loc) (f : pobj -> pobj) :
  compiles_at l (fun h => (Ret tt, alter f l h)).
Proof.
  intros h _. split; [apply length_alter|].
  intros l' Hne. by apply list_lookup_alter_ne.
Qed.

Lemma compiles_at_index {A : Type} (l : loc) (xs : list A) (i : nat) :
  compiles_at l (index xs i).
Proof.
  intros h _. unfold index. destruct (xs !! i); cbn; [done|by right].
Qed.

Lemma define_skipping_raises (ST : symbols) (ms : list string) :
  forall (props : properties) (e : exn),
    define_skipping_loop ST props ms = Raise e -> e = ValueError.
Proof.
  induction ms as [|m ms IH]; intros props e; [done|].
  cbn [define_skipping_loop].
  destruct (define_skipping_step ST props m) as [props'|e'] eqn:Es;
    cbn [res_bind]; [apply IH|].
  intros [= <-]. unfold define_skipping_step in Es.
  repeat match type of Es with
         | (if ?b then _ else _) = _ => destruct b; [done|]
         end.
  match type of Es with
  | (if ?b then _ else _) = _ => destruct b; [|done]
  end.
  unfold decode_repeat_symbol in Es.
  repeat match type of Es with
         | context [Py.int ?s] => destruct (Py.int s)
         | context [match ?s with EmptyString => _ | String _ _ => _ end] =>
             destruct s
         | context [if ?b then _ else _] => destruct b
         end; cbn [res_bind] in Es; congruence.
Qed.

Lemma compiles_at_set_controller ST SET (self : loc) :
  compiles_at self (set_controller ST SET self).
Proof.
  unfold set_controller.
  apply compiles_at_bind; [apply compiles_at_get_obj|]. intros o.
  apply compiles_at_bind.
  { destruct (p_name o); [apply compiles_at_ret|].
    destruct (parse_metacharacters ST _) as [name' ms].
    apply compiles_at_bind; [apply compiles_at_alter|]. intros _.
    apply compiles_at_ret. }
  intros ms.
  apply compiles_at_bind.
  { intros h _. unfold lift.
    destruct (define_skipping_properties ST ms) as [props|e] eqn:E; cbn;
      [done|].
    left. by apply (define_skipping_raises ST ms no_properties). }
  intros props. cbv zeta.
  apply compiles_at_bind; [apply compiles_at_get_obj|]. intros o1.
  apply compiles_at_bind; [apply compiles_at_alter|]. intros _.
  apply compiles_at_bind; [apply compiles_at_get_obj|]. intros o2.
  apply compiles_at_bind.
  { destruct (Py.contains _ _); [|apply compiles_at_ret]. cbv zeta.
    apply compiles_at_bind; [apply compiles_at_index|]. intros part0.
    apply compiles_at_bind; [apply compiles_at_index|]. intros part1.
    apply compiles_at_alter. }
  intros _.
  apply compiles_at_bind; [apply compiles_at_get_obj|]. intros o3.
  apply compiles_at_bind.
  { destruct (Py.contains _ _); [|apply compiles_at_ret]. cbv zeta.
    apply compiles_at_bind; [apply compiles_at_index|]. intros part0.
    apply compiles_at_bind; [apply compiles_at_index|]. intros part1.
    apply compiles_at_alter. }
  intros _.
  apply compiles_at_bind; [apply compiles_at_get_obj|]. intros o4.
  apply compiles_at_bind.
  { destruct (Py.contains _ _); [|apply compiles_at_ret].
    apply compiles_at_bind; [apply compiles_at_alter|]. intros _.
    apply compiles_at_ret. }
  intros c.
  apply compiles_at_bind; [apply compiles_at_alter|]. intros _.
  apply compiles_at_ret.
Qed.

(** The loop that compiles the nodes ends with an exception when one of the
    nodes it is to compile carries a malformed marker. *)
Lemma set_controllers_malformed ST SET (l0 : loc) (o : pobj)
    (r body t : string) :
  symbols_ok ST = true ->
  Py.mem_char (sym_defined_number_set_start ST) r = false ->
  Py.mem_char (sym_defined_number_set_end ST) r = false ->
  Py.mem_char (sym_defined_number_set_end ST) body = false ->
  (t = EmptyString
   \/ exists c, Py.last_char t = Some c /\ in_values ST c = true) ->
  malformed_bounds body = true ->
  p_name o = r ++ braces ST body ++ t ->
  forall (nodes : list loc) (b : bool) (h : heap),
    l0 ∈ nodes ->
    Forall (fun l => is_Some (h !! l)) nodes ->
    h !! l0 = Some o ->
    exists e h',
      set_controllers ST SET nodes b h = (Exc e, h')
      /\ (e = ValueError \/ e = IndexError)
      /\ (head nodes = Some l0 -> e = ValueError).
Proof.
  intros Hok Hor Her Hbody Ht Hb Hname.
  induction nodes as [|l rest IH]; intros b h Hin Hvalid Ho.
  { by apply elem_of_nil in Hin. }
  cbn [set_controllers]. unfold bind.
  destruct (decide (l = l0)) as [->|Hne].
  - destruct (set_controller_malformed_marker ST SET l0 h o r body t)
      as [h' ->]; try done.
    exists ValueError, h'. split; [done|]. split; [by left|done].
  - apply elem_of_cons in Hin as [->|Hin]; [done|].
    apply Forall_cons in Hvalid as [Hl Hrest].
    pose proof (compiles_at_set_controller ST SET l h Hl) as Hc.
    destruct (set_controller ST SET l h) as [[b'|e|] h1].
    + destruct Hc as [Hlen Hsame].
      destruct (IH (b || b') h1) as (e & h' & -> & He & _); [done| |..].
      * eapply Forall_impl; [exact Hrest|]. intros l' Hl'. cbn in *.
        apply lookup_lt_is_Some. rewrite Hlen. by apply lookup_lt_is_Some.
      * by rewrite Hsame.
      * exists e, h'. split; [done|]. split; [done|]. intros [= ?]. done.
    + exists e, h1. split; [done|]. split; [done|]. intros [= ?]. done.
    + done.
Qed.

(** ** A pattern in the store: construction, copy and traversal *)

Lemma ptree_forall_ind (P : ptree -> Prop) :
  (forall label ks, Forall P ks -> P (PNode label ks)) ->
  forall p, P p.
Proof.
  intros H. fix IH 1. intros [label ks]. apply H.
  induction ks as [|k ks IHks]; constructor; [apply IH|apply IHks].
Qed.

Lemma psize_pos (p : ptree) : (1 <= psize p)%nat.
Proof. destruct p. cbn. lia. Qed.

(** The constructor lays the pattern out from the location it starts at. *)
Lemma alloc_at_stored (p : ptree) :
  forall (base : loc) (up : option loc) (syn : syntax) (pre post : heap),
    length pre = base ->
    length (alloc_at base up syn p) = psize p
    /\ stored (pre ++ alloc_at base up syn p ++ post)%list p base.
Proof.
  induction p as [label ks IH] using ptree_forall_ind.
  intros base up syn pre post Hbase. cbn [alloc_at psize].
  assert (Hgo : forall (b : loc) (pre post : heap),
             length pre = b ->
             let '(ls, os) :=
               (fix go (b : loc) (ks0 : list ptree) {struct ks0} :
                  list loc * list pobj :=
                  match ks0 with
                  | [] => ([], [])
                  | k :: ks' =>
                      let '(ls, os) := go (b + psize k)%nat ks' in
                      (b :: ls,
                       (alloc_at b (Some base) DefaultSyntax k ++ os)%list)
                  end) b ks in
             length os = list_sum (map psize ks)
             /\ Forall2 (stored (pre ++ os ++ post)%list) ks ls).
  { clear pre post Hbase.
    induction IH as [|k ks' Hk Hks IHks]; intros b pre post Hb; [done|].
    specialize (IHks (b + psize k)%nat).
    destruct ((fix go (b : loc) (ks0 : list ptree) {struct ks0} :
                 list loc * list pobj :=
                 match ks0 with
                 | [] => ([], [])
                 | k :: ks' =>
                     let '(ls, os) := go (b + psize k)%nat ks' in
                     (b :: ls,
                      (alloc_at b (Some base) DefaultSyntax k ++ os)%list)
                 end) (b + psize k)%nat ks') as [ls os].
    destruct (Hk b (Some base) DefaultSyntax pre (os ++ post)%list Hb)
      as [Hlen Hst].
    destruct (IHks (pre ++ alloc_at b (Some base) DefaultSyntax k)%list post)
      as [Hlen' Hst'].
    { rewrite length_app, Hlen. lia. }
    split.
    - rewrite length_app, Hlen, Hlen'. done.
    - constructor.
      + by rewrite <- !app_assoc.
      + by rewrite <- !app_assoc in Hst' |- *. }
  set (obj ls := {| p_name := label; p_children := ls; p_up := up;
                    p_controller := None; p_syntax := syn |}).
  specialize (Hgo (S base)).
  destruct ((fix go (b : loc) (ks0 : list ptree) {struct ks0} :
               list loc * list pobj :=
               match ks0 with
               | [] => ([], [])
               | k :: ks' =>
                   let '(ls, os) := go (b + psize k)%nat ks' in
                   (b :: ls,
                    (alloc_at b (Some base) DefaultSyntax k ++ os)%list)
               end) (S base) ks) as [ls os].
  destruct (Hgo (pre ++ [obj ls])%list post) as [Hlen Hst].
  { rewrite length_app. cbn [length]. lia. }
  split; [cbn [length]; by rewrite Hlen|].
  apply (stored_node _ label ks base (obj ls)); [|done|done|].
  - rewrite lookup_app_r by lia. rewrite Hbase, Nat.sub_diag. done.
  - cbn [p_children obj]. by rewrite <- app_assoc in Hst.
Qed.

(** The copy of a stored pattern is stored at the copy of its location. *)
Lemma deepcopy_stored (h : heap) (p : ptree) :
  forall l : loc,
    stored h p l ->
    stored (h ++ map (shift_obj (length h)) h)%list p (length h + l)%nat.
Proof.
  induction p as [label ks IH] using ptree_forall_ind.
  intros l Hs. inversion Hs as [label' ks' l' o Ho Hn Hc Hks]; subst.
  apply (stored_node _ _ ks _ (shift_obj (length h) o)); [|done|done|].
  - rewrite lookup_app_r by lia.
    replace (length h + l - length h)%nat with l by lia.
    by rewrite list_lookup_fmap, Ho.
  - cbn [p_children shift_obj].
    clear Ho Hc Hs. revert IH.
    induction Hks as [|k c ks' cs Hk Hks' IHks]; intros IH; [constructor|].
    apply Forall_cons in IH as [IHk IHrest].
    cbn [map]. constructor; [by apply IHk|by apply IHks].
Qed.

Lemma list_sum_app_psize (ps qs : list ptree) :
  list_sum (map psize (ps ++ qs))
  = (list_sum (map psize ps) + list_sum (map psize qs))%nat.
Proof. by rewrite map_app, list_sum_app. Qed.

(** The traversal of stored patterns visits objects only, and an object for
    every label. *)
Lemma ptraverse_queue_stored (h : heap) (fuel : nat) :
  forall (queue : list loc) (ps : list ptree),
    Forall2 (stored h) ps queue ->
    (list_sum (map psize ps) <= fuel)%nat ->
    Forall (fun l => is_Some (h !! l)) (ptraverse_queue fuel h queue)
    /\ (forall label,
          In label (flat_map labels ps) ->
          exists l o,
            l ∈ ptraverse_queue fuel h queue
            /\ h !! l = Some o /\ p_name o = label).
Proof.
  induction fuel as [|fuel IH]; intros queue ps Hst Hf.
  { destruct Hst as [|p l ps' queue' Hp]; [by split|].
    pose proof (psize_pos p).
    change (list_sum (map psize (p :: ps')))
      with (psize p + list_sum (map psize ps'))%nat in Hf. lia. }
  destruct Hst as [|p l ps' queue' Hp Hrest]; [by split|].
  cbn [ptraverse_queue].
  inversion Hp as [label' ks l' o Ho Hn Hc Hks]; subst.
  assert (Ec : children_at h l = p_children o)
    by (unfold children_at; by rewrite Ho).
  rewrite Ec.
  destruct (IH (queue' ++ p_children o)%list (ps' ++ ks)%list) as [Hv Hl].
  { by apply Forall2_app. }
  { rewrite list_sum_app_psize.
    change (list_sum (map psize (PNode (p_name o) ks :: ps')))
      with (S (list_sum (map psize ks)) + list_sum (map psize ps'))%nat in Hf.
    lia. }
  split; [constructor; [by eexists|done]|].
  intros label Hin. cbn [flat_map labels] in Hin.
  destruct Hin as [<-|Hin].
  { exists l, o. split; [by left|done]. }
  destruct (Hl label) as (l1 & o1 & Hl1 & Ho1 & Hn1).
  { rewrite flat_map_app. apply in_app_iff in Hin. apply in_app_iff. tauto. }
  exists l1, o1. split; [by right|done].
Qed.

Lemma stored_label (h : heap) (p : ptree) :
  forall (l : loc) (label : string),
    stored h p l ->
    In label (labels p) ->
    exists l' o,
      h !! l' = Some o /\ p_name o = label /\ p_controller o = None.
Proof.
  induction p as [label0 ks IH] using ptree_forall_ind.
  intros l label Hs Hin.
  inversion Hs as [label' ks' l' o Ho Hn Hc Hks]; subst.
  cbn [labels] in Hin. destruct Hin as [<-|Hin]; [by exists l, o|].
  clear Ho Hc Hs. revert IH Hin.
  induction Hks as [|k c ks' cs Hk Hks' IHks]; intros IH Hin; [done|].
  apply Forall_cons in IH as [IHk IHrest].
  cbn [flat_map] in Hin. apply in_app_iff in Hin as [Hin|Hin].
  - by apply (IHk c).
  - by apply IHks.
Qed.

(** What the constructor and the copy make of a pattern. *)
Lemma init_deepcopy_stored (syn : syntax) (p : ptree) (h : heap) :
  let '(h1, root) := TreePattern_init syn p h in
  let '(h2, clone) := deepcopy root h1 in
  stored h1 p root /\ stored h2 p clone /\ (psize p <= length h2)%nat.
Proof.
  unfold TreePattern_init, deepcopy.
  destruct (alloc_at_stored p (length h) None syn h [] eq_refl) as [Hlen Hs].
  rewrite app_nil_r in Hs.
  split; [done|]. split; [by apply deepcopy_stored|].
  rewrite !length_app, length_map, length_app. lia.
Qed.

(** C6: the constructor does not look at the labels, so it accepts a pattern
    with a malformed bounded marker, on whatever node: the object of the node
    carries the label as it was written, and no controller.  The marker is
    met when [find_match] compiles its copy of the pattern, before any node
    of the target is matched: the search yields nothing and ends with an
    exception, the [ValueError] of [int] or the exception of a node compiled
    before that one, and the [ValueError] when the marker is on the root. *)
Theorem malformed_bound_is_met_by_the_search ST SET pyeval T (syn : syntax)
    (p : ptree) (r body t : string) (h : heap) (maxhits : option Z)
    (strat : strategy) :
  symbols_ok ST = true ->
  In (r ++ braces ST body ++ t) (labels p) ->
  Py.mem_char (sym_defined_number_set_start ST) r = false ->
  Py.mem_char (sym_defined_number_set_end ST) r = false ->
  Py.mem_char (sym_defined_number_set_end ST) body = false ->
  (t = EmptyString
   \/ exists c, Py.last_char t = Some c /\ in_values ST c = true) ->
  malformed_bounds body = true ->
  let '(h1, root) := TreePattern_init syn p h in
  (exists l o,
     h1 !! l = Some o
     /\ p_name o = r ++ braces ST body ++ t
     /\ p_controller o = None)
  /\ exists e,
       fst (find_match ST SET pyeval T root maxhits strat h1)
       = {| yielded := []; ending := Exc e |}
       /\ (e = ValueError \/ e = IndexError)
       /\ (forall ks, p = PNode (r ++ braces ST body ++ t) ks ->
           e = ValueError).
Proof.
  intros Hok Hin Hor Her Hbody Ht Hb.
  pose proof (init_deepcopy_stored syn p h) as Hinit.
  destruct (TreePattern_init syn p h) as [h1 root].
  destruct (deepcopy root h1) as [h2 clone] eqn:Hd.
  destruct Hinit as (Hs1 & Hs2 & Hsize).
  split; [by apply (stored_label h1 p root)|].
  destruct (ptraverse_queue_stored h2 (length h2) [clone] [p]) as [Hv Hl].
  { by repeat constructor. }
  { change (list_sum (map psize [p])) with (psize p + 0)%nat.
    by rewrite Nat.add_0_r. }
  destruct (Hl (r ++ braces ST body ++ t)) as (l0 & o & Hl0 & Ho & Hn).
  { cbn [flat_map]. by rewrite app_nil_r. }
  destruct (set_controllers_malformed ST SET l0 o r body t Hok Hor Her Hbody
              Ht Hb Hn (ptraverse h2 clone) false h2 Hl0 Hv Ho)
    as (e & h3 & Hrun & He & _).
  exists e. split; [|split; [exact He|]].
  - by rewrite (find_match_compile_error ST SET pyeval T root maxhits strat
                  h1 h2 h3 clone e Hd Hrun).
  - intros ks ->.
    inversion Hs2 as [label' ks' l' o' Ho' Hn' Hc' Hks']; subst.
    destruct (set_controllers_malformed ST SET clone o' r body t Hok Hor Her
                Hbody Ht Hb Hn' (ptraverse h2 clone) false h2)
      as (e' & h3' & Hrun' & _ & Hhead); [| done | done |].
    + unfold ptraverse. pose proof (psize_pos (PNode (r ++ braces ST body ++ t) ks)).
      destruct (length h2); [lia|]. cbn [ptraverse_queue]. by left.
    + rewrite Hrun in Hrun'. injection Hrun' as -> _. apply Hhead.
      unfold ptraverse. pose proof (psize_pos (PNode (r ++ braces ST body ++ t) ks)).
      destruct (length h2); [lia|]. done.
Qed.

Lemma malformed_bound_is_met_by_the_search_witness :
  let '(h1, root) :=
    TreePattern_init DefaultSyntax malformed_leaf_pattern [] in
  (exists l o,
     h1 !! l = Some o /\ p_name o = "c{1-x}+" /\ p_controller o = None)
  /\ exists e,
       fst (find_match default_symbols sample_sets no_oracle cg_target root
              (Some 1) preorder h1)
       = {| yielded := []; ending := Exc e |}
       /\ (e = ValueError \/ e = IndexError)
       /\ (forall ks, malformed_leaf_pattern = PNode "c{1-x}+" ks ->
           e = ValueError).
Proof.
  refine (malformed_bound_is_met_by_the_search default_symbols sample_sets
            no_oracle cg_target DefaultSyntax malformed_leaf_pattern
            "c" "1-x" "+" [] (Some 1) preorder eq_refl _ eq_refl eq_refl
            eq_refl _ eq_refl).
  - right. right. left. reflexivity.
  - right. exists "+"%char. split; reflexivity.
Defined.

(** C6, on examples: the constructor returns the patterns [c{x}] and
    [(b,c{1-x}+)a] with their labels as written and no controller, and the
    search ends with the [ValueError] of [int] without a result; the target
    has no node named [c], [a] is its root. *)
Lemma malformed_bound_examples :
  (let '(h1, p) := TreePattern_init DefaultSyntax malformed_pattern [] in
   h1 = [fresh_obj "c{x}" [] None DefaultSyntax]
   /\ fst (find_match default_symbols sample_sets no_oracle cg_target p
             (Some 1) preorder h1)
      = {| yielded := []; ending := Exc ValueError |})
  /\ (let '(h1, p) :=
        TreePattern_init DefaultSyntax malformed_leaf_pattern [] in
      h1 = [ fresh_obj "a" [1%nat; 2%nat] None DefaultSyntax;
             fresh_obj "b" [] (Some 0%nat) DefaultSyntax;
             fresh_obj "c{1-x}+" [] (Some 0%nat) DefaultSyntax ]
      /\ fst (find_match default_symbols sample_sets no_oracle cg_target p
                None levelorder h1)
         = {| yielded := []; ending := Exc ValueError |}).
Proof. vm_compute. done. Qed.

(** ** A pattern with two plain children *)

Lemma pick_map {A B : Type} (f : A -> B) (l : list A) :
  pick (map f l) = map (fun '(y, r) => (f y, map f r)) (pick l).
Proof.
  induction l as [|x l IH]; [done|]. cbn [map pick]. f_equal.
  rewrite IH, !map_map. apply map_ext. by intros [y r].
Qed.

Lemma existsb_map {A B : Type} (f : A -> B) (P : B -> bool) (l : list A) :
  existsb P (map f l) = existsb (fun x => P (f x)) l.
Proof. induction l as [|x l IH]; [done|]. cbn. by rewrite IH. Qed.

Lemma existsb_flat_map {A B : Type} (f : A -> list B) (P : B -> bool)
    (l : list A) :
  existsb P (flat_map f l) = existsb (fun x => existsb P (f x)) l.
Proof.
  induction l as [|x l IH]; [done|]. cbn [flat_map existsb].
  by rewrite existsb_app, IH.
Qed.

Lemma existsb_ext_in {A : Type} (P Q : A -> bool) (l : list A) :
  (forall x, x ∈ l -> P x = Q x) -> existsb P l = existsb Q l.
Proof.
  induction l as [|x l IH]; intros H; [done|]. cbn [existsb].
  rewrite H by by left. rewrite IH; [done|]. intros y Hy. apply H. by right.
Qed.

Lemma permutations_fuel_length {A : Type} (n : nat) :
  forall (l c : list A),
    length l = n -> c ∈ permutations_fuel n l -> length c = n.
Proof.
  induction n as [|n IH]; intros l c Hl Hc.
  - cbn in Hc. by apply list_elem_of_singleton in Hc as ->.
  - cbn [permutations_fuel] in Hc.
    apply list_elem_of_In, in_flat_map in Hc as ([x r] & Hp & Hc).
    apply list_elem_of_In in Hp, Hc.
    apply list_elem_of_fmap in Hc as (c' & -> & Hc').
    cbn [length]. f_equal. apply (IH r); [|done].
    pose proof (pick_length l) as Hpl. rewrite Forall_forall in Hpl.
    specialize (Hpl _ Hp). cbn in Hpl. lia.
Qed.

Lemma existsb_second {A : Type} (P1 P2 : A -> bool) (y : A)
    (L : list (list A)) :
  existsb (fun c => match y :: c with
                    | y1 :: y2 :: _ => P1 y1 && P2 y2
                    | _ => false
                    end) L
  = P1 y && existsb P2 (heads L).
Proof.
  induction L as [|c L IH]; [by rewrite andb_false_r|].
  cbn [existsb]. rewrite IH. unfold heads. destruct c as [|y2 c]; cbn.
  - by destruct (P1 y).
  - by destruct (P1 y), (P2 y2).
Qed.

(** The first two elements of the permutations of a list: an element and an
    element of the rest. *)
Lemma existsb_first_two {A : Type} (P1 P2 : A -> bool) (l : list A) :
  existsb (fun c => match c with
                    | y1 :: y2 :: _ => P1 y1 && P2 y2
                    | _ => false
                    end) (permutations l)
  = existsb (fun '(y, r) => P1 y && existsb P2 r) (pick l).
Proof.
  unfold permutations. destruct (length l) as [|n] eqn:El.
  { destruct l; [done|discriminate]. }
  cbn [permutations_fuel]. rewrite existsb_flat_map.
  apply existsb_ext_in. intros [y r] Hp.
  rewrite existsb_map.
  pose proof (pick_length l) as Hpl. rewrite Forall_forall in Hpl.
  specialize (Hpl _ Hp). cbn [snd] in Hpl.
  assert (Hr : length r = n) by lia.
  destruct r as [|z r'].
  { cbn in Hr. subst n. cbn. by rewrite andb_false_r. }
  rewrite <- (existsb_heads_permutations P2 (z :: r')) by done.
  unfold permutations. rewrite Hr. apply existsb_second.
Qed.

Section Pair.

Variable pyeval : tree -> syntax -> string -> list (string * path) -> res bool.
Variable T : tree.
Variables a b c : string.
Hypothesis Ha : Py.all_alpha a = true.
Hypothesis Hb : Py.all_alpha b = true.
Hypothesis Hc : Py.all_alpha c = true.

Local Abbreviation Hp := (pair_heap a b c).

(** [match] on a child of the pattern: the comparison of the names. *)
Lemma match_pair_child (l : loc) (n : string) (fuel : nat) (y : tnode) :
  Py.all_alpha n = true ->
  Hp !! l = Some {| p_name := "@.name == " ++ Py.quoted n; p_children := [];
                    p_up := Some 3%nat;
                    p_controller := Some default_controller;
                    p_syntax := DefaultSyntax |} ->
  match_fuel pyeval T (S fuel) l y Hp = (Ret (String.eqb (node_name y) n), Hp).
Proof.
  intros Hn Hl. cbn [match_fuel]. unfold match_body.
  assert (Hcl : get_controller l Hp = (Ret default_controller, Hp))
    by by eapply get_controller_Some.
  assert (Hleaf : is_leaf l Hp = (Ret true, Hp))
    by exact (is_leaf_Some _ _ _ Hl).
  assert (Hk : get_children l Hp = (Ret [], Hp))
    by exact (get_children_Some _ _ _ Hl).
  assert (Hm : is_local_match pyeval T l y Hp
               = (Ret (String.eqb (node_name y) n), Hp))
    by by eapply local_match_reference.
  assert (E : match_node pyeval T l y Hp
              = (Ret (String.eqb (node_name y) n, l), Hp)).
  { unfold match_node.
    rewrite (bind_run _ _ _ _ _ Hcl), (bind_run _ _ _ _ _ Hleaf).
    cbn [c_direct_connection_first default_controller andb].
    rewrite (bind_run _ _ Hp Hp l) by done.
    rewrite (bind_run _ _ _ _ _ Hm). cbv zeta. cbn [negb].
    rewrite (bind_run _ _ Hp Hp (String.eqb (node_name y) n)) by done.
    rewrite (bind_run _ _ _ _ _ Hcl).
    destruct (String.eqb (node_name y) n); cbn [negb]; [reflexivity|].
    rewrite (bind_run _ _ _ _ _ Hleaf).
    cbn [c_allow_indirect_connection default_controller andb].
    rewrite (bind_run _ _ _ _ _ (get_obj_Some _ _ _ Hl)). cbn [p_up].
    rewrite (bind_run _ _ Hp Hp default_controller) by reflexivity.
    reflexivity. }
  rewrite (bind_run _ _ _ _ _ E). unfold match_children.
  rewrite (bind_run _ _ _ _ _ Hk). rewrite andb_false_r.
  rewrite (bind_run _ _ Hp Hp (String.eqb (node_name y) n)) by done.
  destruct (String.eqb (node_name y) n); cbn [negb]; [reflexivity|].
  rewrite (bind_run _ _ _ _ _ Hcl). reflexivity.
Qed.

(** The answer of a candidate: its first node is named [b] and its second
    node [c]. *)
Local Abbreviation fits :=
  (fun cand : list tnode =>
     match cand with
     | y1 :: y2 :: _ =>
         String.eqb (node_name y1) b && String.eqb (node_name y2) c
     | _ => false
     end).

(** The loop over the two children of the pattern, for one candidate. *)
Lemma while_loop_pair (fuel extra : nat) (y1 y2 : tnode)
    (rest : list tnode) (v : locals) :
  sub_status v = true ->
  test_children_properties v = false ->
  (0 <= sub_status_count v)%Z ->
  exists v',
    while_loop (match_fuel pyeval T (S fuel)) (S (S (S extra))) 3
      (y1 :: y2 :: rest) 0 0 v Hp = (Ret v', Hp)
    /\ test_children_properties v' = false
    /\ status v' = status v
    /\ sub_status v' = fits (y1 :: y2 :: rest)
    /\ (sub_status v' = true -> 0 < sub_status_count v')%Z
    /\ (0 <= sub_status_count v')%Z.
Proof.
  intros Hv Ht Hn.
  assert (H4 : Hp !! 4%nat = Some {| p_name := "@.name == " ++ Py.quoted b;
                 p_children := []; p_up := Some 3%nat;
                 p_controller := Some default_controller;
                 p_syntax := DefaultSyntax |}) by reflexivity.
  assert (H5 : Hp !! 5%nat = Some {| p_name := "@.name == " ++ Py.quoted c;
                 p_children := []; p_up := Some 3%nat;
                 p_controller := Some default_controller;
                 p_syntax := DefaultSyntax |}) by reflexivity.
  assert (Hk : get_children 3 Hp = (Ret [4%nat; 5%nat], Hp)) by reflexivity.
  assert (Hc3 : get_controller 3 Hp = (Ret default_controller, Hp))
    by reflexivity.
  cbn [while_loop].
  rewrite (bind_run _ _ _ _ _ Hk).
  change (0 <? length [4%nat; 5%nat])%nat with true. cbv iota.
  rewrite (bind_run _ _ Hp Hp 4%nat) by done.
  rewrite (bind_run _ _ Hp Hp y1) by done.
  rewrite (bind_run _ _ _ _ _ (match_pair_child 4 b fuel y1 Hb H4)).
  rewrite (bind_run _ _ Hp Hp true) by reflexivity.
  rewrite (bind_run _ _ Hp Hp default_controller) by reflexivity.
  cbn [c_allow_indirect_connection c_not default_controller orb andb].
  rewrite (bind_run _ _ _ _ _ Hc3).
  cbn [is_in_bounds c_low c_skipped default_controller
       c_allow_indirect_connection].
  change (0 <=? 0) with true. cbn [negb]. rewrite !andb_false_r.
  rewrite (bind_run _ _ Hp Hp false) by reflexivity.
  cbv iota zeta.
  rewrite (bind_run _ _ _ _ _ Hk).
  change (1 <? length [4%nat; 5%nat])%nat with true. cbv iota.
  rewrite (bind_run _ _ Hp Hp 5%nat) by done.
  rewrite (bind_run _ _ Hp Hp y2) by done.
  rewrite (bind_run _ _ _ _ _ (match_pair_child 5 c fuel y2 Hc H5)).
  rewrite (bind_run _ _ Hp Hp true) by reflexivity.
  rewrite (bind_run _ _ Hp Hp default_controller) by reflexivity.
  cbn [c_allow_indirect_connection c_not default_controller orb andb].
  rewrite (bind_run _ _ _ _ _ Hc3).
  cbn [is_in_bounds c_low c_skipped default_controller
       c_allow_indirect_connection].
  change (0 <=? 0) with true. cbn [negb]. rewrite !andb_false_r.
  rewrite (bind_run _ _ Hp Hp false) by reflexivity.
  cbv iota zeta.
  rewrite (bind_run _ _ _ _ _ Hk).
  change (2 <? length [4%nat; 5%nat])%nat with false. cbv iota.
  eexists. split; [reflexivity|].
  cbn [test_children_properties status sub_status sub_status_count].
  rewrite Hv. cbn [andb].
  destruct (String.eqb (node_name y1) b), (String.eqb (node_name y2) c);
    cbn [andb]; repeat split; (done || lia).
Qed.

(** The loop over the permutations: it stops at the first candidate that
    fits. *)
Lemma candidates_loop_pair (fuel : nat) (candidates : list (list tnode)) :
  Forall (fun cand => (2 <= length cand)%nat) candidates ->
  forall v : locals,
    test_children_properties v = false ->
    (0 <= sub_status_count v)%Z ->
    exists v',
      candidates_loop (match_fuel pyeval T (S fuel)) 3 candidates v Hp
      = (Ret v', Hp)
      /\ test_children_properties v' = false
      /\ (if existsb fits candidates
          then status v' = true /\ (0 < sub_status_count v')%Z
          else status v' = match candidates with
                           | [] => status v
                           | _ => false
                           end).
Proof.
  induction 1 as [|cand rest Hl Hrest IH]; intros v Ht Hn.
  { exists v. by cbn. }
  destruct cand as [|y1 [|y2 ys]]; [cbn in Hl; lia..|].
  cbn [candidates_loop].
  rewrite (bind_run _ _ Hp Hp [4%nat; 5%nat]) by reflexivity.
  set (v0 := {| status := status v; sub_status := true;
                sub_status_count := sub_status_count v;
                test_children_properties := test_children_properties v;
                continious_matched := continious_matched v;
                current_matched := 0 |}).
  destruct (while_loop_pair fuel (length (y1 :: y2 :: ys)) y1 y2 ys v0)
    as (v1 & Hw & Ht1 & Hs1 & Hsub & Hpos & Hn1); [done..|].
  change (S (length [4%nat; 5%nat] + length (y1 :: y2 :: ys)))
    with (S (S (S (length (y1 :: y2 :: ys))))).
  rewrite (bind_run _ _ _ _ _ Hw), Ht1.
  cbn [existsb]. rewrite <- Hsub.
  destruct (sub_status v1) eqn:Es; cbn [andb orb].
  - specialize (Hpos eq_refl).
    destruct (Z.ltb_spec 0 (sub_status_count v1)); [|lia].
    eexists. split; [reflexivity|]. by cbn.
  - destruct (IH (with_status false v1)) as (v2 & Hl2 & Ht2 & Hres);
      [done|done|].
    exists v2. split; [done|]. split; [done|].
    destruct (existsb fits rest); [done|]. rewrite Hres. by destruct rest.
Qed.

Lemma match_pair (x : tnode) :
  match_ pyeval T 3 x Hp = (Ret (pair_match a b c (snd x)), Hp).
Proof.
  unfold match_, pair_match.
  assert (Hm : is_local_match pyeval T 3 x Hp
               = (Ret (String.eqb (node_name x) a), Hp)).
  { eapply (local_match_reference pyeval T 3%nat a x Hp _ default_controller Ha);
      reflexivity. }
  assert (E : match_node pyeval T 3 x Hp
             = (Ret (String.eqb (node_name x) a, 3%nat), Hp)).
  { unfold match_node.
    rewrite (bind_run _ _ Hp Hp default_controller) by reflexivity.
    rewrite (bind_run _ _ Hp Hp false) by reflexivity.
    cbn [c_direct_connection_first default_controller andb].
    rewrite (bind_run _ _ Hp Hp 3%nat) by done.
    rewrite (bind_run _ _ _ _ _ Hm). cbv zeta. cbn [negb].
    rewrite (bind_run _ _ Hp Hp (String.eqb (node_name x) a)) by done.
    rewrite (bind_run _ _ Hp Hp default_controller) by reflexivity.
    destruct (String.eqb (node_name x) a); reflexivity. }
  assert (Ek : two_named b c (t_children (snd x))
               = existsb fits (permutations (kids x))).
  { rewrite existsb_first_two. unfold two_named.
    rewrite <- (kids_children x), pick_map, existsb_map.
    apply existsb_ext_in. intros [y r] _.
    by rewrite existsb_map. }
  cbn [match_fuel]. unfold match_body.
  rewrite (bind_run _ _ _ _ _ E). unfold match_children.
  rewrite (bind_run _ _ Hp Hp [4%nat; 5%nat]) by reflexivity.
  change (node_name x) with (t_name (snd x)).
  destruct (String.eqb (t_name (snd x)) a); cbn [andb negb length].
  2:{ rewrite (bind_run _ _ Hp Hp false) by done. reflexivity. }
  destruct (Nat.ltb_spec (length (kids x)) 2) as [Hlt|Hge].
  - assert (Ef : existsb fits (permutations (kids x)) = false).
    { destruct (kids x) as [|y1 [|y2 ys]]; [done|done|cbn in Hlt; lia]. }
    rewrite Ek, Ef.
    rewrite (bind_run _ _ Hp Hp false); [reflexivity|].
    rewrite (bind_run _ _ Hp Hp default_controller) by reflexivity.
    unfold skip_to_nodes.
    destruct (Nat.ltb_spec (length (kids x)) 2) as [_|]; [|lia].
    cbn [c_allow_indirect_connection default_controller nodes_loop].
    rewrite (bind_run _ _ Hp Hp [4%nat; 5%nat]) by reflexivity.
    destruct (Nat.leb_spec (length [4%nat; 5%nat]) (length (kids x)))
      as [Hle|_]; [cbn in Hle; lia|].
    reflexivity.
  - assert (Hh : exists f, tree_height (snd x) = S (S f)).
    { destruct (kids x) as [|y1 ys] eqn:Ey; [cbn in Hge; lia|].
      assert (Hy : y1 ∈ kids x) by (rewrite Ey; by left).
      apply kids_height in Hy. pose proof (tree_height_pos (snd y1)).
      destruct (tree_height (snd x)) as [|[|f]]; [lia..|by exists f]. }
    destruct Hh as [f Hf]. rewrite Hf.
    set (v0 := {| status := true; sub_status := true; sub_status_count := 0;
                  test_children_properties := false;
                  continious_matched := [];
                  current_matched := 0 |}).
    assert (Hall : Forall (fun cand : list tnode => (2 <= length cand)%nat)
                     (permutations (kids x))).
    { apply Forall_forall. intros cand Hcand.
      rewrite (permutations_fuel_length _ _ _ eq_refl Hcand). exact Hge. }
    destruct (candidates_loop_pair (S f) (permutations (kids x)) Hall v0
                eq_refl ltac:(cbn; lia))
      as (v1 & Hl & Ht1 & Hres).
    rewrite (bind_run _ _ Hp Hp (existsb fits (permutations (kids x)))).
    2:{ rewrite (bind_run _ _ Hp Hp default_controller) by reflexivity.
        unfold skip_to_nodes.
        destruct (Nat.ltb_spec (length (kids x)) 2) as [|_]; [lia|].
        cbn [nodes_loop].
        rewrite (bind_run _ _ Hp Hp [4%nat; 5%nat]) by reflexivity.
        rewrite (bind_run _ _ Hp Hp v1).
        2:{ cbv zeta. fold v0.
            destruct (Nat.leb_spec (length [4%nat; 5%nat]) (length (kids x)))
              as [_|Hgt]; [|cbn in Hgt; lia].
            rewrite (bind_run _ _ _ _ _ Hl), Ht1. reflexivity. }
        destruct (existsb fits (permutations (kids x))).
        - destruct Hres as [-> Hpos].
          destruct (Z.ltb_spec 0 (sub_status_count v1)); [reflexivity|lia].
        - rewrite Hres.
          pose proof (permutations_fuel_nonempty (length (kids x)) (kids x)
                        eq_refl) as Hne.
          unfold permutations.
          destruct (permutations_fuel (length (kids x)) (kids x)); [done|].
          reflexivity. }
    rewrite Ek.
    destruct (existsb fits (permutations (kids x))); reflexivity.
Qed.

End Pair.

Lemma pick_split {A : Type} (l : list A) (y : A) (r : list A) :
  (y, r) ∈ pick l <-> exists l1 l2, l = (l1 ++ y :: l2)%list /\ r = (l1 ++ l2)%list.
Proof.
  revert y r. induction l as [|x l IH]; intros y r.
  { split; [by inversion 1|]. intros (l1 & l2 & E & _). by destruct l1. }
  cbn [pick]. rewrite elem_of_cons, list_elem_of_fmap. split.
  - intros [[= -> ->]|([y' r'] & [= -> ->] & Hp)].
    + by exists [], l.
    + apply IH in Hp as (l1 & l2 & -> & ->). by exists (x :: l1), l2.
  - intros (l1 & l2 & E & ->). destruct l1 as [|x' l1].
    + left. cbn in E. by injection E as -> ->.
    + right. cbn in E. injection E as -> ->.
      exists (y, (l1 ++ l2)%list). split; [done|]. apply IH. by exists l1, l2.
Qed.

(** With two different names: a tree named [b] and a tree named [c]. *)
Lemma two_named_distinct (b c : string) (ts : list tree) :
  b <> c ->
  two_named b c ts
  = existsb (fun t => String.eqb (t_name t) b) ts
    && existsb (fun t => String.eqb (t_name t) c) ts.
Proof.
  intros Hbc. unfold two_named. apply eq_true_iff_eq.
  rewrite andb_true_iff, !existsb_exists. split.
  - intros ([y r] & Hp & Hy). apply andb_prop in Hy as [Hy Hr].
    apply existsb_exists in Hr as (u & Hu & Hc).
    apply list_elem_of_In, pick_split in Hp as (l1 & l2 & -> & ->).
    split.
    + exists y. split; [|done]. apply in_or_app. right. by left.
    + exists u. split; [|done]. apply in_app_or in Hu.
      apply in_or_app. destruct Hu; [by left|]. right. by right.
  - intros [(y & Hy & Hb) (u & Hu & Hc)].
    apply in_split in Hy as (l1 & l2 & ->).
    exists (y, (l1 ++ l2)%list). split.
    + apply list_elem_of_In, pick_split. by exists l1, l2.
    + rewrite Hb. cbn [andb]. apply existsb_exists. exists u. split; [|done].
      apply in_app_or in Hu. apply in_or_app.
      destruct Hu as [Hu|[<-|Hu]]; [by left| |by right].
      apply String.eqb_eq in Hb, Hc. congruence.
Qed.

Lemma compile_pair SET (a b c : string) :
  Py.all_alpha a = true -> a <> EmptyString ->
  Py.all_alpha b = true -> b <> EmptyString ->
  Py.all_alpha c = true -> c <> EmptyString ->
  markers_absent SET [ "@.name == " ++ Py.quoted a;
                       "@.name == " ++ Py.quoted b;
                       "@.name == " ++ Py.quoted c ] = true ->
  set_controllers default_symbols SET [3%nat; 4%nat; 5%nat] false
    [ fresh_obj a [1%nat; 2%nat] None DefaultSyntax;
      fresh_obj b [] (Some 0%nat) DefaultSyntax;
      fresh_obj c [] (Some 0%nat) DefaultSyntax;
      fresh_obj a [4%nat; 5%nat] None DefaultSyntax;
      fresh_obj b [] (Some 3%nat) DefaultSyntax;
      fresh_obj c [] (Some 3%nat) DefaultSyntax ]
  = (Ret false, pair_heap a b c).
Proof.
  intros Ha Hane Hb Hbne Hc Hcne Hm.
  cbn [markers_absent forallb] in Hm. rewrite andb_true_r in Hm.
  apply andb_prop in Hm as [Hma Hm]. apply andb_prop in Hm as [Hmb Hmc].
  assert (Ep : forall n, Py.all_alpha n = true -> n <> "" ->
                 parse_node_name n = "@.name == " ++ Py.quoted n).
  { intros n Hn Hne. unfold parse_node_name.
    rewrite split_no_sep by by apply all_alpha_no_char.
    cbn [map]. rewrite all_alpha_strip, Hn by done.
    destruct n as [|d n]; [done|]. reflexivity. }
  assert (Epm : forall n, Py.all_alpha n = true -> n <> "" ->
                  parse_metacharacters default_symbols n = (n, [])).
  { intros n Hn Hne. unfold parse_metacharacters.
    rewrite parse_loop_stop by by apply alpha_no_symbols. by destruct n. }
  cbn [set_controllers].
  erewrite bind_run;
    [|eapply (set_controller_run default_symbols SET 3%nat _ _ a []);
      [reflexivity|exact Hane|by apply Epm|reflexivity|]].
  2:{ cbn [markers_absent forallb]. by rewrite Ep, Hma. }
  cbn [alter list_alter].
  erewrite bind_run;
    [|eapply (set_controller_run default_symbols SET 4%nat _ _ b []);
      [reflexivity|exact Hbne|by apply Epm|reflexivity|]].
  2:{ cbn [markers_absent forallb]. by rewrite Ep, Hmb. }
  cbn [alter list_alter].
  erewrite bind_run;
    [|eapply (set_controller_run default_symbols SET 5%nat _ _ c []);
      [reflexivity|exact Hcne|by apply Epm|reflexivity|]].
  2:{ cbn [markers_absent forallb]. by rewrite Ep, Hmc. }
  cbn [alter list_alter]. rewrite !Ep by done. reflexivity.
Qed.

(** The children of a pattern node are matched with the children of a target
    node in any order.  The pattern [(b,c)a] of three plain names yields the
    nodes named [a] that have a child named [b] and another child named [c],
    wherever the two stand among the children and whatever they and the
    other children have below them; the search ends normally, without a
    bound with all these nodes in the order of the traversal and under a
    bound [k] of at least 1 with the first [k] of them.  When [b] and [c]
    differ, these are the nodes named [a] with a child named [b] and a child
    named [c]. *)
Theorem children_match_in_any_order SET pyeval T (a b c : string)
    (strat : strategy) :
  Py.all_alpha a = true -> a <> EmptyString ->
  Py.all_alpha b = true -> b <> EmptyString ->
  Py.all_alpha c = true -> c <> EmptyString ->
  markers_absent SET [ "@.name == " ++ Py.quoted a;
                       "@.name == " ++ Py.quoted b;
                       "@.name == " ++ Py.quoted c ] = true ->
  let '(h, p) := TreePattern_init DefaultSyntax (pair_pattern a b c) [] in
  let found := List.filter (fun x => pair_match a b c (snd x))
                 (traverse strat ([], T)) in
  fst (find_match default_symbols SET pyeval T p None strat h)
  = {| yielded := found; ending := Ret tt |}
  /\ (forall k : Z, 1 <= k ->
        fst (find_match default_symbols SET pyeval T p (Some k) strat h)
        = {| yielded := take (Z.to_nat k) found; ending := Ret tt |})
  /\ (b <> c ->
      forall t : tree,
        pair_match a b c t
        = String.eqb (t_name t) a
          && (existsb (fun u => String.eqb (t_name u) b) (t_children t)
              && existsb (fun u => String.eqb (t_name u) c) (t_children t))).
Proof.
  intros Ha Hane Hb Hbne Hc Hcne Hm.
  change (TreePattern_init DefaultSyntax (pair_pattern a b c) [])
    with ([ fresh_obj a [1%nat; 2%nat] None DefaultSyntax;
            fresh_obj b [] (Some 0%nat) DefaultSyntax;
            fresh_obj c [] (Some 0%nat) DefaultSyntax ], 0%nat).
  cbv beta iota zeta.
  assert (E : forall mh,
             find_match default_symbols SET pyeval T 0 mh strat
               [ fresh_obj a [1%nat; 2%nat] None DefaultSyntax;
                 fresh_obj b [] (Some 0%nat) DefaultSyntax;
                 fresh_obj c [] (Some 0%nat) DefaultSyntax ]
             = search_loop pyeval T 3 mh (traverse strat ([], T)) 0
                 (pair_heap a b c)).
  { intros mh. unfold find_match.
    change (deepcopy 0 _)
      with ([ fresh_obj a [1%nat; 2%nat] None DefaultSyntax;
              fresh_obj b [] (Some 0%nat) DefaultSyntax;
              fresh_obj c [] (Some 0%nat) DefaultSyntax;
              fresh_obj a [4%nat; 5%nat] None DefaultSyntax;
              fresh_obj b [] (Some 3%nat) DefaultSyntax;
              fresh_obj c [] (Some 3%nat) DefaultSyntax ], 3%nat).
    cbv beta iota. change (ptraverse _ 3) with [3%nat; 4%nat; 5%nat].
    by rewrite (compile_pair SET a b c). }
  assert (En : forall nodes,
             search_loop pyeval T 3 None nodes 0 (pair_heap a b c)
             = ({| yielded := List.filter
                                (fun x => pair_match a b c (snd x)) nodes;
                   ending := Ret tt |}, pair_heap a b c)).
  { intros nodes. apply search_loop_pure. intros x. by apply match_pair. }
  split; [|split].
  - by rewrite E, En.
  - intros k Hk. rewrite E.
    pose proof (search_loop_prefix pyeval T 3 k (traverse strat ([], T)) 0
                  (pair_heap a b c)) as Hp.
    rewrite En, Z.sub_0_r in Hp. specialize (Hp ltac:(lia)).
    destruct (search_loop_stops pyeval T 3 k (traverse strat ([], T)) 0
                (pair_heap a b c)) as (pre & _ & Eq & _); [lia|].
    rewrite Eq, En in Hp |- *. cbn [fst yielded] in Hp |- *. by rewrite Hp.
  - intros Hbc t. unfold pair_match. by rewrite two_named_distinct.
Qed.

Lemma children_match_in_any_order_witness :
  let T := Node "r" [ Node "a" [leaf "c"; leaf "x"; Node "b" [leaf "y"]];
                      Node "a" [leaf "b"; leaf "b"];
                      Node "a" [leaf "b"; leaf "c"] ] in
  let '(h, p) :=
    TreePattern_init DefaultSyntax (pair_pattern "a" "b" "c") [] in
  fst (find_match default_symbols sample_sets no_oracle T p None preorder h)
  = {| yielded := List.filter (fun x => pair_match "a" "b" "c" (snd x))
                    (traverse preorder ([], T));
       ending := Ret tt |}.
Proof.
  exact (proj1 (children_match_in_any_order sample_sets no_oracle
                  (Node "r" [ Node "a" [leaf "c"; leaf "x";
                                        Node "b" [leaf "y"]];
                              Node "a" [leaf "b"; leaf "b"];
                              Node "a" [leaf "b"; leaf "c"] ])
                  "a" "b" "c" preorder
                  eq_refl ltac:(discriminate) eq_refl ltac:(discriminate)
                  eq_refl ltac:(discriminate) eq_refl)).
Defined.
